(** * The document context engine of the health assistant

    A shallow embedding of [server/vectorStore.js]: word-window chunking,
    embedding generation with its deterministic fallback, the two tables of
    the store, cosine-similarity search and token-budgeted context assembly,
    followed by the properties of the engine. *)

From Stdlib Require Import List Sorted ZArith Bool Arith Lia Ascii.
From Stdlib Require String DecimalString DecimalNat FinFun.
Import String.StringSyntax.
Delimit Scope string_scope with string.
From Stdlib Require Import Reals Lra.
From Stdlib Require Import Floats Uint63.
Import ListNotations.

Set Implicit Arguments.
Set Warnings "-abstract-large-number".

(** ** JavaScript numbers

    The engine computes with JavaScript numbers (IEEE 754 binary64).  The code
    is written once over the operations it uses; [float_Number] interprets
    them as the kernel's binary64 floats, which is what the engine runs on,
    and [R_Number] as exact real arithmetic. *)

Class Number (num : Type) : Type := {
  nofZ : Z -> num;                 (* an integer literal *)
  nadd : num -> num -> num;        (* x + y *)
  nsub : num -> num -> num;        (* x - y *)
  nmul : num -> num -> num;        (* x * y *)
  ndiv : num -> num -> num;        (* x / y *)
  nsqrt : num -> num;              (* Math.sqrt(x) *)
  nseq : num -> num -> bool;       (* x === y *)
  nge : num -> num -> bool;        (* x >= y *)
  ngt : num -> num -> bool;        (* x > y *)
  njson : num -> num               (* x written by JSON.stringify, read back *)
}.

Definition nzero {num} `{Number num} : num := nofZ 0.
Definition n_one {num} `{Number num} : num := nofZ 1.

(** The literal [0.7], the default threshold of [search]: the quotient of two
    exactly representable integers is the correctly rounded decimal. *)
Definition default_threshold {num} `{Number num} : num := ndiv (nofZ 7) (nofZ 10).

(** What the comparator [(a, b) => b - a] of [search] needs of the order on
    numbers that are not NaN ([nge x x] holds exactly of those).  The laws
    are proved below for binary64 numbers (gradual underflow makes a
    difference of distinct numbers non-zero) and for exact arithmetic. *)
Class NumberOrder (num : Type) `{Number num} : Prop := {
  nsub_pos_gt : forall x y, ngt (nsub y x) nzero = true ->
                            nge y x = true /\ nge x y = false;
  nsub_npos_ge : forall x y, nge x x = true -> nge y y = true ->
                             ngt (nsub y x) nzero = false -> nge x y = true;
  nge_trans : forall x y z, nge x y = true -> nge y z = true -> nge x z = true;
  nge_diag : forall x y, nge x y = true -> nge x x = true
}.
Arguments NumberOrder num {_}.

(** An integer as a binary64 number (exact up to [2^53]). *)
Definition float_of_Z (z : Z) : float :=
  if (z <? 0)%Z then PrimFloat.opp (PrimFloat.of_uint63 (Uint63.of_Z (- z)))
  else PrimFloat.of_uint63 (Uint63.of_Z z).

(** What [JSON.parse] and the arithmetic of [cosineSimilarity] make of a
    number written by [JSON.stringify]: a finite number other than zero
    comes back as it was; NaN and the infinities are written [null], which
    the products read as [+0]; [-0] is written [0]. *)
Definition float_json (x : float) : float :=
  if PrimFloat.is_nan x || PrimFloat.is_infinity x || PrimFloat.is_zero x
  then PrimFloat.zero else x.

#[export] Instance float_Number : Number float := {
  nofZ := float_of_Z;
  nadd := PrimFloat.add;
  nsub := PrimFloat.sub;
  nmul := PrimFloat.mul;
  ndiv := PrimFloat.div;
  nsqrt := PrimFloat.sqrt;
  nseq := PrimFloat.eqb;
  nge := fun x y => PrimFloat.leb y x;
  ngt := fun x y => PrimFloat.ltb y x;
  njson := float_json
}.

#[export] Instance R_Number : Number R := {
  nofZ := IZR;
  nadd := Rplus;
  nsub := Rminus;
  nmul := Rmult;
  ndiv := Rdiv;
  nsqrt := R_sqrt.sqrt;
  nseq := fun x y => if Req_dec_T x y then true else false;
  nge := fun x y => if Rge_dec x y then true else false;
  ngt := fun x y => if Rgt_dec x y then true else false;
  njson := fun x => x
}.

(** ** JavaScript values reaching [cosineSimilarity]

    The query embedding and the result of [JSON.parse] on a stored embedding:
    an array of numbers, or some other value (a number, a string, an object,
    [null]) on which [Array.isArray] is false. *)

Inductive jsval (num : Type) : Type :=
| VArray (v : list num)
| VOther.
Arguments VOther {num}.

Section Cosine.
Context {num : Type} `{Number num}.

(** The loop of [cosineSimilarity]: [dot], [na], [nb] are accumulated from
    the left, one index at a time. *)
Fixpoint cosine_loop (a b : list num) (dot na nb : num) : num * num * num :=
  match a, b with
  | x :: a', y :: b' =>
      cosine_loop a' b' (nadd dot (nmul x y)) (nadd na (nmul x x)) (nadd nb (nmul y y))
  | _, _ => (dot, na, nb)
  end.

Definition cosineSimilarity (a b : jsval num) : num :=
  match a, b with
  | VArray a, VArray b =>
      if negb (length a =? length b) then nzero
      else
        let '(dot, na, nb) := cosine_loop a b nzero nzero nzero in
        if nseq na nzero || nseq nb nzero then nzero
        else ndiv dot (nmul (nsqrt na) (nsqrt nb))
  | _, _ => nzero
  end.

End Cosine.

(** ** JavaScript strings and arrays

    A string is the list of its code units (Latin-1 range).  [is_space] is the
    class [\s] of the regular expression in [chunkText], which is also the
    set [String.prototype.trim] strips. *)

Definition jsstring : Type := list ascii.

Definition str (s : String.string) : jsstring := String.list_ascii_of_string s.
Arguments str s%_string.

Definition is_space (c : ascii) : bool :=
  let n := N_of_ascii c in
  ((9 <=? n) && (n <=? 13) || (n =? 32) || (n =? 160))%N.

Fixpoint jsstring_eqb (s t : jsstring) : bool :=
  match s, t with
  | [], [] => true
  | c :: s', d :: t' => Ascii.eqb c d && jsstring_eqb s' t'
  | _, _ => false
  end.

(** [s.split(/\s+/)], scanning left to right.  The head of the result is the
    word under construction; [prev_ws] tells that the previous code unit
    belonged to a separator, so that a run of white space separates once.
    The empty string gives [[""]], leading (trailing) white space gives an
    empty first (last) word. *)
Fixpoint split_go (prev_ws : bool) (s : jsstring) : list jsstring :=
  match s with
  | [] => [[]]
  | c :: s' =>
      if is_space c then
        if prev_ws then split_go true s' else [] :: split_go true s'
      else
        match split_go false s' with
        | w :: ws => (c :: w) :: ws
        | [] => [[c]]
        end
  end.

Definition split_ws (s : jsstring) : list jsstring := split_go false s.

(** [words.join(sep)] *)
Fixpoint join (sep : jsstring) (words : list jsstring) : jsstring :=
  match words with
  | [] => []
  | [w] => w
  | w :: ws => w ++ sep ++ join sep ws
  end.

Fixpoint trim_start (s : jsstring) : jsstring :=
  match s with
  | c :: s' => if is_space c then trim_start s' else s
  | [] => []
  end.

(** [s.trim()] *)
Definition trim (s : jsstring) : jsstring := rev (trim_start (rev (trim_start s))).

(** [a.slice(i, j)] for [0 <= i <= j] *)
Definition slice {A} (l : list A) (i j : nat) : list A := firstn (j - i) (skipn i l).

(** [a.slice(0, limit)]: a negative [limit] counts from the end. *)
Definition slice_to {A} (l : list A) (limit : Z) : list A :=
  if (limit <? 0)%Z then firstn (Z.to_nat (Z.max 0 (Z.of_nat (length l) + limit))) l
  else firstn (Z.to_nat limit) l.

(** Template-literal rendering of a non-negative integer. *)
Definition decimal (n : nat) : jsstring :=
  str (DecimalString.NilEmpty.string_of_uint (Nat.to_uint n)).

(** The last [n] elements of a list. *)
Definition lastn {A} (n : nat) (l : list A) : list A := skipn (length l - n) l.

(** ** [chunkText] *)

Record Chunk : Type := { text : jsstring; index : nat }.

(** The [for] loop of [chunkText], [i] advancing by [step]; [fuel] bounds the
    number of iterations. *)
Fixpoint chunk_loop (fuel : nat) (words : list jsstring) (maxChunkSize step i : nat)
  : list Chunk :=
  match fuel with
  | O => []
  | S fuel' =>
      if i <? length words then
        let chunk := join [" "%char] (slice words i (i + maxChunkSize)) in
        (match trim chunk with
         | [] => []
         | _ :: _ => [{| text := trim chunk; index := i / step |}]
         end) ++ chunk_loop fuel' words maxChunkSize step (i + step)
      else []
  end.

(** [chunkText(text, maxChunkSize, overlap)] for [overlap < maxChunkSize]: the
    loop makes at most [words.length] iterations. *)
Definition chunkText_with (content : jsstring) (maxChunkSize overlap : nat) : list Chunk :=
  let words := split_ws content in
  chunk_loop (length words) words maxChunkSize (maxChunkSize - overlap) 0.

Definition chunkText (content : jsstring) : list Chunk := chunkText_with content 1000 200.

(** ** The store

    The two tables read and written by the engine (the [citations] table is
    created but never used).  A table is the list of its rows in scan order;
    [INSERT OR REPLACE] deletes the row holding the primary key, if any, and
    appends the new row. *)

(** The TEXT column [content_embedding]: the serialization of an array of
    numbers, held as the numbers the arithmetic of [cosineSimilarity] reads
    from the parsed array (a [null] element counts as [+0]); the
    serialization of another JSON value; or text that is no JSON at all. *)
Inductive json_text (num : Type) : Type :=
| JsonArray (v : list num)
| JsonValue
| JsonMalformed.
Arguments JsonValue {num}.
Arguments JsonMalformed {num}.

Record ChunkRow : Type := {
  dc_id : jsstring;
  dc_document_id : jsstring;
  dc_document_title : jsstring;
  dc_chunk_text : jsstring;
  dc_chunk_index : nat;
  dc_document_type : jsstring;
  dc_source_file : option jsstring;
  dc_created_at : Z
}.

Record EmbeddingRow (num : Type) : Type := {
  e_id : jsstring;
  e_content_embedding : json_text num
}.

Record Store (num : Type) : Type := {
  document_chunks : list ChunkRow;
  embeddings : list (EmbeddingRow num)
}.

Definition upsert {R} (key : R -> jsstring) (row : R) (table : list R) : list R :=
  filter (fun r => negb (jsstring_eqb (key r) (key row))) table ++ [row].

(** ** Effects

    The engine talks to three things outside it: the embedding provider, the
    clock and the database.  [Env] fixes what each of them answers at every
    step of the run, [World] is the store together with the number of steps
    taken so far.  A computation returns a value or throws. *)

Record Env (num : Type) : Type := {
  (* process.env.OPENAI_API_KEY is a non-empty string *)
  OPENAI_API_KEY : bool;
  (* openai.embeddings.create at a step, on an input: the embedding of the
     response, or None when the call throws *)
  embeddings_create : nat -> jsstring -> option (list num);
  (* Date.now() at a step *)
  Date_now : nat -> Z;
  (* whether the statement executed at a step throws *)
  db_fails : nat -> bool
}.

Record World (num : Type) : Type := {
  store : Store num;
  steps : nat
}.

Inductive error : Type := ApiError | SqliteError | SyntaxError.

Inductive outcome (A : Type) : Type :=
| Ok (a : A)
| Throw (e : error).
Arguments Throw {A}.

Definition M (num A : Type) : Type := World num -> outcome A * World num.

Definition ret {num A} (a : A) : M num A := fun w => (Ok a, w).

Definition throw {num A} (e : error) : M num A := fun w => (Throw e, w).

Definition bind {num A B} (c : M num A) (k : A -> M num B) : M num B :=
  fun w => match c w with
           | (Ok a, w') => k a w'
           | (Throw e, w') => (Throw e, w')
           end.

(** [try { c } catch (e) { handler(e) }] *)
Definition try_catch {num A} (c : M num A) (handler : error -> M num A) : M num A :=
  fun w => match c w with
           | (Ok a, w') => (Ok a, w')
           | (Throw e, w') => handler e w'
           end.

(** [for (const x of l) { body(x) }] *)
Fixpoint for_of {num A} (l : list A) (body : A -> M num unit) : M num unit :=
  match l with
  | [] => ret tt
  | x :: l' => bind (body x) (fun _ => for_of l' body)
  end.

Declare Scope engine_scope.
Delimit Scope engine_scope with engine.
Notation "x <- c ;; k" := (bind c (fun x => k))
  (at level 100, c at next level, right associativity) : engine_scope.
Notation "c ;;; k" := (bind c (fun _ => k))
  (at level 100, right associativity) : engine_scope.

Definition tick {num} (w : World num) : World num :=
  {| store := store w; steps := S (steps w) |}.

Section Engine.
Variable num : Type.
Context `{Number num}.
(** [Math.sin] *)
Variable Math_sin : num -> num.
Variable env : Env num.
Local Open Scope engine_scope.

(** The provider call [this.openai.embeddings.create({model, input})]
    followed by [response.data[0].embedding]. *)
Definition openai_embeddings_create (input : jsstring) : M num (list num) :=
  fun w => match embeddings_create env (steps w) input with
           | Some v => (Ok v, tick w)
           | None => (Throw ApiError, tick w)
           end.

Definition now : M num Z := fun w => (Ok (Date_now env (steps w)), tick w).

(** [this.db.prepare(sql).run(...)]: the statement throws, or updates the
    store. *)
Definition db_run (update : Store num -> Store num) : M num unit :=
  fun w => if db_fails env (steps w) then (Throw SqliteError, tick w)
           else (Ok tt, {| store := update (store w); steps := S (steps w) |}).

(** [this.db.prepare(sql).all()]: the statement throws, or reads the store. *)
Definition db_all {A} (query : Store num -> A) : M num A :=
  fun w => if db_fails env (steps w) then (Throw SqliteError, tick w)
           else (Ok (query (store w)), tick w).

(** The deterministic vector of [generateEmbedding]: 256 components,
    [(Math.sin(c + i) + 1) / 2] with [c = text.charCodeAt(i % text.length) || 0]
    (on the empty string [charCodeAt] gives NaN, hence 0). *)
Definition pseudo_embedding (text : jsstring) : list num :=
  map (fun i =>
         let c := nth (i mod length text) (map nat_of_ascii text) 0 in
         ndiv (nadd (Math_sin (nofZ (Z.of_nat (c + i)))) n_one) (nofZ 2))
      (seq 0 256).

(** The input of the provider call is [text.slice(0, 8192)]. *)
Definition max_input_length : nat := 8192.

Definition generateEmbedding (text : jsstring) : M num (list num) :=
  try_catch
    (if negb (OPENAI_API_KEY env) then ret (pseudo_embedding text)
     else
       try_catch
         (openai_embeddings_create (slice text 0 max_input_length))
         (fun apiError => ret (pseudo_embedding text)))
    (fun error => throw error).

(** ** [addDocument] *)

Record Document : Type := {
  id : jsstring;
  title : jsstring;
  content : jsstring;
  type : jsstring;
  sourceFile : option jsstring
}.

Record AddResult : Type := { success : bool; chunksCreated : nat }.

(** [`${id}_chunk_${chunk.index}`] *)
Definition chunk_id (doc_id : jsstring) (chunk : Chunk) : jsstring :=
  doc_id ++ str "_chunk_" ++ decimal (index chunk).

Definition insert_chunk (row : ChunkRow) (s : Store num) : Store num :=
  {| document_chunks := upsert dc_id row (document_chunks s);
     embeddings := embeddings s |}.

Definition insert_embedding (row : EmbeddingRow num) (s : Store num) : Store num :=
  {| document_chunks := document_chunks s;
     embeddings := upsert (@e_id num) row (embeddings s) |}.

(** [JSON.stringify(embedding)]: each number is written as [njson] tells. *)
Definition JSON_stringify (embedding : list num) : json_text num :=
  JsonArray (map njson embedding).

(** The body of the loop of [addDocument] for one chunk. *)
Definition add_chunk (document : Document) (chunk : Chunk) : M num unit :=
  let chunkId := chunk_id (id document) chunk in
  embedding <- generateEmbedding (text chunk) ;;
  created_at <- now ;;
  db_run (insert_chunk
            {| dc_id := chunkId;
               dc_document_id := id document;
               dc_document_title := title document;
               dc_chunk_text := text chunk;
               dc_chunk_index := index chunk;
               dc_document_type := type document;
               dc_source_file := sourceFile document;
               dc_created_at := created_at |}) ;;;
  db_run (insert_embedding
            {| e_id := chunkId;
               e_content_embedding := JSON_stringify embedding |}).

Definition addDocument (document : Document) : M num AddResult :=
  try_catch
    (let chunks := chunkText (content document) in
     for_of chunks (add_chunk document) ;;;
     ret {| success := true; chunksCreated := length chunks |})
    (fun error => throw error).

(** ** [search] *)

(** A row of [document_chunks dc JOIN embeddings e ON e.id = dc.id]. *)
Record JoinedRow : Type := {
  row_chunk : ChunkRow;
  row_embedding : json_text num
}.

(** The join, as SQLite runs it for these two tables: a scan of
    [embeddings] in storage order, with a probe of [document_chunks] by its
    primary key for every row scanned. *)
Definition select_chunks_with_embeddings (s : Store num) : list JoinedRow :=
  flat_map
    (fun e =>
       map (fun dc => {| row_chunk := dc; row_embedding := e_content_embedding e |})
           (filter (fun dc => jsstring_eqb (dc_id dc) (e_id e)) (document_chunks s)))
    (embeddings s).

(** A scored row: the columns of the chunk and [relevanceScore]. *)
Record Scored : Type := {
  chunk : ChunkRow;
  relevanceScore : num
}.

(** An element of the result of [search]: [{ ...r, citation }]. *)
Record SearchResult : Type := {
  scored : Scored;
  citation : jsstring
}.

(** [JSON.parse(text)]: [None] when it throws. *)
Definition JSON_parse (t : json_text num) : option (jsval num) :=
  match t with
  | JsonArray v => Some (VArray v)
  | JsonValue => Some VOther
  | JsonMalformed => None
  end.

(** The scoring loop: a row whose embedding does not parse is passed over
    by the empty [catch] of the loop body. *)
Fixpoint score_rows (queryEmbedding : list num) (rows : list JoinedRow) : list Scored :=
  match rows with
  | [] => []
  | row :: rows' =>
      match JSON_parse (row_embedding row) with
      | Some emb =>
          {| chunk := row_chunk row;
             relevanceScore := cosineSimilarity (VArray queryEmbedding) emb |}
          :: score_rows queryEmbedding rows'
      | None => score_rows queryEmbedding rows'
      end
  end.

(** [Array.prototype.sort(compare)]: the stable sort of the language
    standard.  [x], which stood before every element of [l], is moved behind
    [y] exactly when [compare(x, y) > 0]. *)
Fixpoint insert_by {A} (compare : A -> A -> num) (x : A) (l : list A) : list A :=
  match l with
  | [] => [x]
  | y :: l' => if ngt (compare x y) nzero then y :: insert_by compare x l' else x :: l
  end.

Definition sort_by {A} (compare : A -> A -> num) (l : list A) : list A :=
  fold_right (insert_by compare) [] l.

Definition generateCitation (r : Scored) : jsstring :=
  let section := str ", section " ++ decimal (dc_chunk_index (chunk r) + 1) ++ str ")" in
  match dc_source_file (chunk r) with
  | Some (c :: f) =>
      dc_document_title (chunk r) ++ str " (" ++ (c :: f) ++ section
  | _ =>
      dc_document_title (chunk r) ++ str " (" ++ dc_document_type (chunk r) ++ section
  end.

(** The pipeline [filter / sort / slice / map] of [search]. *)
Definition rank (scoredRows : list Scored) (limit : Z) (threshold : num) : list SearchResult :=
  map (fun r => {| scored := r; citation := generateCitation r |})
      (slice_to
         (sort_by (fun a b => nsub (relevanceScore b) (relevanceScore a))
                  (filter (fun r => nge (relevanceScore r) threshold) scoredRows))
         limit).

Definition search (query : jsstring) (limit : Z) (threshold : num) : M num (list SearchResult) :=
  try_catch
    (queryEmbedding <- generateEmbedding query ;;
     rows <- db_all select_chunks_with_embeddings ;;
     ret (rank (score_rows queryEmbedding rows) limit threshold))
    (fun error => ret []).

(** ** [getContext] *)

Record Citation : Type := {
  cit_id : jsstring;
  cit_title : jsstring;
  cit_citation : jsstring;
  cit_relevanceScore : num;
  cit_type : jsstring
}.

Record Context : Type := {
  context : jsstring;
  citations : list Citation;
  tokenCount : Z
}.

(** [Math.ceil(chunkText.length / 4)] *)
Definition estimate_tokens (chunkText : jsstring) : Z :=
  (Z.of_nat (length chunkText) + 3) / 4.

(** What an iteration of the loop of [getContext] adds for a result that
    fits. *)
Definition append_result (acc : Context) (result : SearchResult) (estimatedTokens : Z)
  : Context :=
  let chunkText := dc_chunk_text (chunk (scored result)) in
  {| context := context acc ++ str "

[Source: " ++ citation result ++ str "]
" ++ chunkText;
     citations := citations acc ++
       [{| cit_id := dc_id (chunk (scored result));
           cit_title := dc_document_title (chunk (scored result));
           cit_citation := citation result;
           cit_relevanceScore := relevanceScore (scored result);
           cit_type := dc_document_type (chunk (scored result)) |}];
     tokenCount := (tokenCount acc + estimatedTokens)%Z |}.

(** The loop of [getContext]; [break] returns what was accumulated. *)
Fixpoint accumulate (results : list SearchResult) (maxTokens : Z) (acc : Context) : Context :=
  match results with
  | [] => acc
  | result :: results' =>
      let chunkText := dc_chunk_text (chunk (scored result)) in
      let estimatedTokens := estimate_tokens chunkText in
      if (tokenCount acc + estimatedTokens >? maxTokens)%Z then acc
      else accumulate results' maxTokens (append_result acc result estimatedTokens)
  end.

Definition empty_context : Context :=
  {| context := []; citations := []; tokenCount := 0 |}.

Definition getContext (query : jsstring) (maxTokens : Z) : M num Context :=
  results <- search query 10 default_threshold ;;
  ret (accumulate results maxTokens empty_context).

End Engine.

(** ** The server: [buildGlobalContext] and [buildStructuredPrompt]

    The request handler of the server asks the engine for the context of the
    user's text and renders it into the system prompt. *)

(** [s || d] on strings: the empty string is falsy. *)
Definition or_else (s d : jsstring) : jsstring :=
  match s with
  | [] => d
  | _ :: _ => s
  end.

Definition newline : jsstring := [ascii_of_nat 10].

(** A template written with ['] where the source has a double quote. *)
Definition double_quoted (s : jsstring) : jsstring :=
  map (fun c => if Ascii.eqb c "'"%char then ascii_of_nat 34 else c) s.

(** The schemas of [schemas.js] a prompt can come with. *)
Inductive Schema : Type :=
| SymptomAnalysisSchema
| LabInterpretationSchema
| NutritionPlanSchema
| PredictiveAnalysisSchema.

(** An element of [contextData.memories], as [buildStructuredPrompt] reads
    it. *)
Record Memory : Type := { key_info : jsstring; value : jsstring }.

Record StructuredPrompt : Type := {
  systemPrompt : jsstring;
  responseSchema : option Schema
}.

Section Server.
Variable num : Type.
Context `{Number num}.
Variable Math_sin : num -> num.
Variable env : Env num.
Local Open Scope engine_scope.

(** The object [buildGlobalContext] returns; its [catch] branch leaves
    [tokenCount] out. *)
Record GlobalContext : Type := {
  gc_context : jsstring;
  gc_citations : list (Citation num);
  gc_memories : list Memory;
  gc_recentSymptoms : list jsstring;
  gc_activeGoals : list jsstring;
  gc_tokenCount : option Z
}.

(** [buildGlobalContext(userId, userText)], on the engine the server holds.
    An array is truthy, so [citations || []] is [citations]; 0 is falsy, so
    [tokenCount || 0] is spelled out. *)
Definition buildGlobalContext (userId userText : jsstring) : M num GlobalContext :=
  try_catch
    (vectorResults <- getContext Math_sin env userText 3000 ;;
     ret {| gc_context := or_else (context vectorResults) (str "Demo health copilot context");
            gc_citations := citations vectorResults;
            gc_memories := [];
            gc_recentSymptoms := [];
            gc_activeGoals := [];
            gc_tokenCount :=
              Some (if (tokenCount vectorResults =? 0)%Z then 0%Z
                    else tokenCount vectorResults) |})
    (fun error =>
       ret {| gc_context := []; gc_citations := []; gc_memories := [];
              gc_recentSymptoms := []; gc_activeGoals := []; gc_tokenCount := None |}).

(** The line of a citation in the prompt, [`- ${c.citation}: ${c.text}`]:
    the citations [getContext] builds have no property [text], which the
    template renders as [undefined]. *)
Definition citation_line (c : Citation num) : jsstring :=
  str "- " ++ cit_citation c ++ str ": " ++ str "undefined".

(** [`- ${m.key_info}: ${m.value}`] *)
Definition memory_line (m : Memory) : jsstring :=
  str "- " ++ key_info m ++ str ": " ++ value m.

(** The constant [baseContext] of [buildStructuredPrompt]. *)
Definition baseContext (contextData : GlobalContext) : jsstring :=
  join newline
    [ [];
      str "User Context:";
      or_else (gc_context contextData) [];
      [];
      str "Knowledge Base Citations:";
      or_else (join newline (map citation_line (gc_citations contextData))) (str "None");
      [];
      str "Previous Memories:";
      or_else (join newline (map memory_line (gc_memories contextData))) (str "None");
      [] ].

(** [buildStructuredPrompt(task, data, contextData)]; [data] is not read. *)
Definition buildStructuredPrompt (task : jsstring) (contextData : GlobalContext)
  : StructuredPrompt :=
  if jsstring_eqb task (str "symptom_analysis") then
    {| systemPrompt :=
         join newline
           [ str "You are a medical AI assistant providing symptom analysis. Analyze the provided symptoms and provide structured recommendations.";
             [];
             baseContext contextData;
             [];
             str "Respond with a JSON object matching this structure:";
             str "{";
             double_quoted (str "  'symptoms': [{'name': 'string', 'severity': 'mild|moderate|severe', 'duration': 'string', 'frequency': 'string', 'associatedFactors': ['string']}],");
             double_quoted (str "  'assessment': {'urgency': 'low|medium|high|emergency', 'riskFactors': ['string'], 'recommendations': ['string'], 'followUpNeeded': boolean, 'timeframe': 'string'},");
             double_quoted (str "  'citations': [{'source': 'string', 'relevance': number, 'text': 'string'}]");
             str "}" ];
       responseSchema := Some SymptomAnalysisSchema |}
  else if jsstring_eqb task (str "lab_interpretation") then
    {| systemPrompt :=
         join newline
           [ str "You are a medical AI assistant interpreting lab results. Provide detailed analysis and recommendations.";
             [];
             baseContext contextData;
             [];
             str "Respond with a JSON object matching this structure for lab interpretation." ];
       responseSchema := Some LabInterpretationSchema |}
  else if jsstring_eqb task (str "nutrition_plan") then
    {| systemPrompt :=
         join newline
           [ str "You are a nutrition AI assistant creating personalized meal plans.";
             [];
             baseContext contextData;
             [];
             str "Respond with a JSON object containing nutritional recommendations and meal plans." ];
       responseSchema := Some NutritionPlanSchema |}
  else if jsstring_eqb task (str "predictive_analysis") then
    {| systemPrompt :=
         join newline
           [ str "You are a predictive health analytics AI. Analyze patterns and provide forecasts.";
             [];
             baseContext contextData;
             [];
             str "Respond with predictions, risk factors, and visualization data." ];
       responseSchema := Some PredictiveAnalysisSchema |}
  else
    {| systemPrompt :=
         join newline
           [ str "You are an AI health assistant. Provide helpful, accurate health information.";
             [];
             baseContext contextData;
             [];
             str "Respond with a JSON object containing your response and any relevant recommendations." ];
       responseSchema := None |}.

End Server.

(** ** Vocabulary of the statements *)

(** The zero-norm guard on binary64 numbers: a vector of zeros (of either
    sign) leaves its accumulator at [+0], whatever the other vector holds. *)
Definition float_zero (x : float) : Prop := x = PrimFloat.zero \/ x = PrimFloat.neg_zero.

(** The value of a finite binary64 number of sign [s], mantissa [m] and
    exponent [e], in units of [2^ez]. *)
Definition SFvalue (ez : Z) (s : bool) (m : positive) (e : Z) : Z :=
  cond_Zopp s (Zpos (fst (shl_align m e ez))).

(** A word: a non-empty string without white space. *)
Definition is_word (w : jsstring) : Prop :=
  w <> [] /\ Forall (fun c => is_space c = false) w.

(** Nothing, or one empty string. *)
Definition blank (e : list jsstring) : Prop := e = [] \/ e = [[]].

(** The shape of the result of [split(/\s+/)] and of its slices: words,
    with at most one empty string before and one after. *)
Definition shaped (l : list jsstring) : Prop :=
  exists e1 core e2, l = e1 ++ core ++ e2 /\ blank e1 /\ blank e2 /\ Forall is_word core.

Definition nonempty (w : jsstring) : bool :=
  match w with [] => false | _ :: _ => true end.

(** A text of 1601 words, the decimal numbers from 0 to 1600: three chunks. *)
Definition numbers_text : jsstring := join [" "%char] (map decimal (seq 0 1601)).

(** The three chunks of [numbers_text]. *)
Definition numbers_chunk_0 : Chunk :=
  {| text := join [" "%char] (map decimal (seq 0 1000)); index := 0 |}.
Definition numbers_chunk_1 : Chunk :=
  {| text := join [" "%char] (map decimal (seq 800 801)); index := 1 |}.
Definition numbers_chunk_2 : Chunk :=
  {| text := decimal 1600; index := 2 |}.

Section Vocabulary.
Variable num : Type.
Context `{Number num}.

(** The results the loop takes before it breaks, [tokens] being the count
    accumulated so far. *)
Fixpoint taken (results : list (SearchResult num)) (maxTokens tokens : Z)
  : list (SearchResult num) :=
  match results with
  | [] => []
  | r :: results' =>
      let cost := estimate_tokens (dc_chunk_text (chunk (scored r))) in
      if (tokens + cost >? maxTokens)%Z then []
      else r :: taken results' maxTokens (tokens + cost)
  end.

Definition cost_of (r : SearchResult num) : Z :=
  estimate_tokens (dc_chunk_text (chunk (scored r))).

Definition total_cost (l : list (SearchResult num)) : Z :=
  fold_right Z.add 0%Z (map cost_of l).

Definition citation_of (r : SearchResult num) : Citation num :=
  {| cit_id := dc_id (chunk (scored r));
     cit_title := dc_document_title (chunk (scored r));
     cit_citation := citation r;
     cit_relevanceScore := relevanceScore (scored r);
     cit_type := dc_document_type (chunk (scored r)) |}.

(** The comparator of the sort in [search]. *)
Definition by_score (a b : Scored num) : num := nsub (relevanceScore b) (relevanceScore a).

(** The joined rows whose embedding parses, each with the value parsed, in
    the order of the rows. *)
Definition parsed_rows (rows : list (JoinedRow num)) : list (ChunkRow * jsval num) :=
  flat_map (fun row => match JSON_parse (row_embedding row) with
                       | Some emb => [(row_chunk row, emb)]
                       | None => []
                       end) rows.

(** A chunk with the similarity of its parsed embedding to the query. *)
Definition score_of (queryEmbedding : list num) (p : ChunkRow * jsval num) : Scored num :=
  {| chunk := fst p;
     relevanceScore := cosineSimilarity (VArray queryEmbedding) (snd p) |}.

(** A parsed embedding that is no array of the dimension of the query. *)
Definition dimension_mismatch (queryEmbedding : list num) (emb : jsval num) : Prop :=
  match emb with
  | VArray v => length v <> length queryEmbedding
  | VOther => True
  end.

(** The step that follows [generateEmbedding] begun at step [n]: the
    provider is called when a key is configured, and only then. *)
Definition after_embedding (env : Env num) (n : nat) : nat :=
  if OPENAI_API_KEY env then S n else n.

(** The step at which [search] reads the store. *)
Definition read_step (env : Env num) (w : World num) : nat :=
  after_embedding env (steps w).

(** What [generateEmbedding] begun at step [n] returns. *)
Definition embedding_at (Math_sin : num -> num) (env : Env num) (n : nat) (text : jsstring)
  : list num :=
  if OPENAI_API_KEY env then
    match embeddings_create env n (slice text 0 max_input_length) with
    | Some v => v
    | None => pseudo_embedding Math_sin text
    end
  else pseudo_embedding Math_sin text.

(** A chunk as [addDocument] stores it: with the clock reading and the
    embedding of its iteration. *)
Record Ingested : Type := {
  ing_chunk : Chunk;
  ing_created_at : Z;
  ing_embedding : list num
}.

Definition chunk_row (document : Document) (i : Ingested) : ChunkRow :=
  {| dc_id := chunk_id (id document) (ing_chunk i);
     dc_document_id := id document;
     dc_document_title := title document;
     dc_chunk_text := text (ing_chunk i);
     dc_chunk_index := index (ing_chunk i);
     dc_document_type := type document;
     dc_source_file := sourceFile document;
     dc_created_at := ing_created_at i |}.

Definition embedding_row (document : Document) (i : Ingested) : EmbeddingRow num :=
  {| e_id := chunk_id (id document) (ing_chunk i);
     e_content_embedding := JSON_stringify (ing_embedding i) |}.

(** The chunks of a run of [addDocument] that begins at step [n] and meets
    no database failure: an iteration takes the steps of
    [generateEmbedding], then one for the clock and two for the writes. *)
Fixpoint ingested_from (Math_sin : num -> num) (env : Env num) (n : nat) (chunks : list Chunk)
  : list Ingested :=
  match chunks with
  | [] => []
  | c :: chunks' =>
      {| ing_chunk := c;
         ing_created_at := Date_now env (after_embedding env n);
         ing_embedding := embedding_at Math_sin env n (text c) |}
      :: ingested_from Math_sin env (after_embedding env n + 3) chunks'
  end.

(** The step at which the iteration that follows those of [chunks] begins,
    in a run begun at step [n] whose writes for [chunks] succeeded. *)
Fixpoint steps_after (env : Env num) (n : nat) (chunks : list Chunk) : nat :=
  match chunks with
  | [] => n
  | _ :: chunks' => steps_after env (after_embedding env n + 3) chunks'
  end.

(** A chunk with the clock reading and the embedding of an iteration begun
    at step [n]. *)
Definition ingested_at (Math_sin : num -> num) (env : Env num) (n : nat) (c : Chunk)
  : Ingested :=
  {| ing_chunk := c;
     ing_created_at := Date_now env (after_embedding env n);
     ing_embedding := embedding_at Math_sin env n (text c) |}.

(** What an iteration begun at step [n] leaves of a store when one of its
    two writes throws: the store as it was when it is the write of the
    chunk, with the row of the chunk when it is the write of the
    embedding. *)
Definition interrupted (Math_sin : num -> num) (env : Env num) (document : Document)
    (n : nat) (c : Chunk) (s : Store num) : Store num :=
  if db_fails env (after_embedding env n + 1) then s
  else insert_chunk (chunk_row document (ingested_at Math_sin env n c)) s.

(** The rows of a table that hold the key [k]. *)
Definition rows_of {R} (key : R -> jsstring) (k : jsstring) (table : list R) : list R :=
  filter (fun r => jsstring_eqb (key r) k) table.

(** What one iteration does to the store. *)
Definition ingest_one (document : Document) (s : Store num) (i : Ingested) : Store num :=
  insert_embedding (embedding_row document i) (insert_chunk (chunk_row document i) s).

(** The rows of a table whose key is none of [keys]. *)
Definition without_keys {R} (key : R -> jsstring) (keys : list jsstring) (table : list R)
  : list R :=
  filter (fun r => negb (existsb (jsstring_eqb (key r)) keys)) table.

(** Two scores the comparator of [search] takes for equal. *)
Definition same_score (s : num) (r : Scored num) : bool :=
  nge (relevanceScore r) s && nge s (relevanceScore r).

(** [a] is ranked at least as high as [b]. *)
Definition score_ge (a b : Scored num) : Prop :=
  nge (relevanceScore a) (relevanceScore b) = true.

End Vocabulary.

(** ** Sample environments and stores (exact arithmetic) *)

(** [Math.sin] in exact arithmetic. *)
Definition R_sin : R -> R := Rtrigo_def.sin.

(** A world that has taken no step yet. *)
Definition world_of {num} (s : Store num) : World num := {| store := s; steps := 0 |}.

Definition empty_store {num} : Store num := {| document_chunks := []; embeddings := [] |}.

(** No key is configured: every embedding is the deterministic one. *)
Definition env_offline : Env R :=
  {| OPENAI_API_KEY := false;
     embeddings_create := fun _ _ => None;
     Date_now := fun n => Z.of_nat n;
     db_fails := fun _ => false |}.

(** No key is configured and the clock stands still. *)
Definition env_steady : Env R :=
  {| OPENAI_API_KEY := false;
     embeddings_create := fun _ _ => None;
     Date_now := fun _ => 0%Z;
     db_fails := fun _ => false |}.

(** A key is configured and the provider call throws at every invocation. *)
Definition env_provider_down : Env R :=
  {| OPENAI_API_KEY := true;
     embeddings_create := fun _ _ => None;
     Date_now := fun n => Z.of_nat n;
     db_fails := fun _ => false |}.

(** A key is configured and the provider answers the vector [[1]]. *)
Definition env_unit : Env R :=
  {| OPENAI_API_KEY := true;
     embeddings_create := fun _ _ => Some [1%R];
     Date_now := fun n => Z.of_nat n;
     db_fails := fun _ => false |}.

Definition sample_row (doc : String.string) (chunk_text : String.string) : ChunkRow :=
  {| dc_id := chunk_id (str doc) {| text := str chunk_text; index := 0 |};
     dc_document_id := str doc;
     dc_document_title := str "Notes";
     dc_chunk_text := str chunk_text;
     dc_chunk_index := 0;
     dc_document_type := str "note";
     dc_source_file := None;
     dc_created_at := 0 |}.
Arguments sample_row (doc chunk_text)%_string.

Definition sample_embedding (doc : String.string) (e : json_text R) : EmbeddingRow R :=
  {| e_id := chunk_id (str doc) {| text := []; index := 0 |};
     e_content_embedding := e |}.
Arguments sample_embedding doc%_string e.

(** A one-word document. *)
Definition doc_x : Document :=
  {| id := str "d"; title := str "Notes"; content := str "x"; type := str "note";
     sourceFile := None |}.

(** Two one-chunk documents, both embedded as [[1]]. *)
Definition two_chunks : Store R :=
  {| document_chunks := [sample_row "a" "first note"; sample_row "b" "second note"];
     embeddings := [sample_embedding "a" (JsonArray [1%R]);
                    sample_embedding "b" (JsonArray [1%R])] |}.

(** Three one-chunk documents: the stored embedding of the first is no JSON,
    that of the second has two components, that of the third one. *)
Definition three_chunks : Store R :=
  {| document_chunks := [sample_row "a" "first note"; sample_row "b" "second note";
                         sample_row "c" "third note"];
     embeddings := [sample_embedding "a" JsonMalformed;
                    sample_embedding "b" (JsonArray [1%R; 1%R]);
                    sample_embedding "c" (JsonArray [1%R])] |}.

(** The world after [addDocument(doc_x)] on the empty store, the provider
    being down. *)
Definition world_x : World R :=
  {| store :=
       {| document_chunks :=
            [{| dc_id := str "d_chunk_0"; dc_document_id := str "d";
                dc_document_title := str "Notes"; dc_chunk_text := str "x";
                dc_chunk_index := 0; dc_document_type := str "note";
                dc_source_file := None; dc_created_at := 1 |}];
          embeddings :=
            [{| e_id := str "d_chunk_0";
                e_content_embedding := JsonArray (pseudo_embedding R_sin (str "x")) |}] |};
     steps := 4 |}.

(** A document of 801 words, hence of two chunks: the words 0 to 800 and the
    word 800. *)
Definition doc_long : Document :=
  {| id := str "long"; title := str "Notes";
     content := concat (repeat (str "a ") 800) ++ str "a";
     type := str "note"; sourceFile := None |}.

(** No key is configured, and the third step that touches the database
    or the clock fails: in [addDocument], the write of the first embedding. *)
Definition env_write_fails : Env R :=
  {| OPENAI_API_KEY := false;
     embeddings_create := fun _ _ => None;
     Date_now := fun n => Z.of_nat n;
     db_fails := fun n => n =? 2 |}.

(** A document of 1601 words, hence of three chunks. *)
Definition doc_numbers : Document :=
  {| id := str "n"; title := str "Notes"; content := numbers_text; type := str "note";
     sourceFile := None |}.

(** A key is configured; the provider call throws at step 0 and answers
    [[1]] afterwards; the statement executed at step 11 throws: in
    [addDocument] begun at step 0, the write of the embedding of the third
    chunk. *)
Definition env_flaky : Env R :=
  {| OPENAI_API_KEY := true;
     embeddings_create := fun n _ => if n =? 0 then None else Some [1%R];
     Date_now := fun n => Z.of_nat n;
     db_fails := fun n => n =? 11 |}.

(** On binary64 numbers: a key is configured, the provider answers [[1]],
    and the statement executed at step 15 throws: in the second of two runs
    of [addDocument] on a document of two chunks, the first begun at step 0,
    the write of the embedding of the second chunk. *)
Definition env_second_run_fails : Env float :=
  {| OPENAI_API_KEY := true;
     embeddings_create := fun _ _ => Some [PrimFloat.one];
     Date_now := fun n => Z.of_nat n;
     db_fails := fun n => n =? 15 |}.

(** Four scored rows on binary64 numbers, with the scores 0.5, 0.75, 0.875
    and 0.75 (all exactly representable). *)
Definition float_rows : list (Scored float) :=
  [{| chunk := sample_row "a" "first"; relevanceScore := 0x1p-1%float |};
   {| chunk := sample_row "b" "second"; relevanceScore := 0x1.8p-1%float |};
   {| chunk := sample_row "c" "third"; relevanceScore := 0x1.cp-1%float |};
   {| chunk := sample_row "d" "fourth"; relevanceScore := 0x1.8p-1%float |}].

(** The chunk of the scenario "citation format". *)
Definition labs_row : ChunkRow :=
  {| dc_id := str "labs_chunk_2"; dc_document_id := str "labs";
     dc_document_title := str "Labs"; dc_chunk_text := str "HDL 52";
     dc_chunk_index := 2; dc_document_type := str "lab_result";
     dc_source_file := None; dc_created_at := 0 |}.

(** ** Vocabulary of the further properties *)

Section Blocks.
Variable num : Type.
Context `{Number num}.

(** What [getContext] appends to the context for a result it includes. *)
Definition source_block (r : SearchResult num) : jsstring :=
  str "

[Source: " ++ citation r ++ str "]
" ++ dc_chunk_text (chunk (scored r)).

(** The number of code units of the chunk texts of a list of results. *)
Definition chunk_chars (l : list (SearchResult num)) : Z :=
  fold_right Z.add 0%Z (map (fun r => Z.of_nat (length (dc_chunk_text (chunk (scored r))))) l).

(** The number of code units of the source lines of a list of citations: a
    block spends 13 code units around its citation (two line breaks,
    [[Source: ], []] and a line break). *)
Definition source_chars (l : list (Citation num)) : Z :=
  fold_right Z.add 0%Z (map (fun c => 13 + Z.of_nat (length (cit_citation c)))%Z l).

End Blocks.

Section Keeping.
Variable num : Type.
Context `{Number num}.

(** The rows of [s] whose id is none of [ids] are those of [s'], in the same
    order, in both tables. *)
Definition other_rows_kept (ids : list jsstring) (s s' : Store num) : Prop :=
  without_keys dc_id ids (document_chunks s') = without_keys dc_id ids (document_chunks s) /\
  without_keys (@e_id num) ids (embeddings s') = without_keys (@e_id num) ids (embeddings s).

(** The table of the chunks holds a row of the id [k]. *)
Definition has_chunk (s : Store num) (k : jsstring) : bool :=
  existsb (jsstring_eqb k) (map dc_id (document_chunks s)).

(** The id of a joined row is one of [ids]. *)
Definition joined_with (ids : list jsstring) (row : JoinedRow num) : bool :=
  existsb (jsstring_eqb (dc_id (row_chunk row))) ids.

(** The joined row of a chunk as [addDocument] stores it. *)
Definition joined_row (document : Document) (i : Ingested num) : JoinedRow num :=
  {| row_chunk := chunk_row document i;
     row_embedding := JSON_stringify (ing_embedding i) |}.

End Keeping.

(** ** Sample texts and documents *)

(** A text of 257 code units: 256 times [a], then [last]. *)
Definition long_text (last : ascii) : jsstring := repeat "a"%char 256 ++ [last].

(** A text with white space before, between and after its three words. *)
Definition spaced_text : jsstring :=
  [" "%char] ++ str "Total" ++ [" "%char; ascii_of_nat 10] ++ str "cholesterol 180"
  ++ [ascii_of_nat 9].

(** A document of white space only. *)
Definition doc_blank : Document :=
  {| id := str "blank"; title := str "Notes";
     content := [" "%char; ascii_of_nat 10; ascii_of_nat 9; " "%char];
     type := str "note"; sourceFile := None |}.

(** * Properties *)

(** ** Cosine similarity *)

Section CosineExact.
Local Open Scope R_scope.

Lemma two_products_bound (u v t : R) :
  0 <= u -> 0 <= v -> t * t <= u * v -> 2 * t <= u + v.
Proof.
  intros Hu Hv Ht.
  destruct (Rle_or_lt (2 * t) (u + v)) as [|Hlt]; [assumption|exfalso].
  assert (Hp : 0 < (2 * t - (u + v)) * (2 * t + (u + v)))
    by (apply Rmult_lt_0_compat; lra).
  pose proof (Rle_0_sqr (u - v)) as Hq. unfold Rsqr in Hq.
  lra.
Qed.

(** One step of the loop keeps the Cauchy-Schwarz inequality between the
    three accumulators. *)
Lemma cauchy_schwarz_step (dot na nb x y : R) :
  0 <= na -> 0 <= nb -> dot * dot <= na * nb ->
  (dot + x * y) * (dot + x * y) <= (na + x * x) * (nb + y * y).
Proof.
  intros Hna Hnb Hdot.
  pose proof (Rle_0_sqr x) as Hx. pose proof (Rle_0_sqr y) as Hy.
  pose proof (Rle_0_sqr (x * y)) as Hxy. unfold Rsqr in *.
  assert (H2 : 2 * (dot * (x * y)) <= na * (y * y) + nb * (x * x)).
  { apply two_products_bound.
    - apply Rmult_le_pos; assumption.
    - apply Rmult_le_pos; assumption.
    - replace (dot * (x * y) * (dot * (x * y))) with ((dot * dot) * ((x * y) * (x * y))) by ring.
      replace (na * (y * y) * (nb * (x * x))) with ((na * nb) * ((x * y) * (x * y))) by ring.
      apply Rmult_le_compat_r; assumption. }
  lra.
Qed.

Lemma cosine_loop_cauchy_schwarz (a : list R) : forall b dot na nb,
  0 <= na -> 0 <= nb -> dot * dot <= na * nb ->
  forall d x y, cosine_loop a b dot na nb = (d, x, y) ->
  na <= x /\ nb <= y /\ d * d <= x * y.
Proof.
  induction a as [|u a IH]; intros b dot na nb Hna Hnb Hdot d x y Heq.
  - simpl in Heq. inversion Heq; subst. lra.
  - destruct b as [|v b].
    + simpl in Heq. inversion Heq; subst. lra.
    + simpl in Heq.
      pose proof (Rle_0_sqr u) as Hu. pose proof (Rle_0_sqr v) as Hv. unfold Rsqr in *.
      apply IH in Heq.
      * lra.
      * lra.
      * lra.
      * apply cauchy_schwarz_step; assumption.
Qed.

Lemma quotient_bound (d x y : R) :
  0 < x -> 0 < y -> d * d <= x * y ->
  -1 <= d / (R_sqrt.sqrt x * R_sqrt.sqrt y) <= 1.
Proof.
  intros Hx Hy Hd.
  set (s := R_sqrt.sqrt x * R_sqrt.sqrt y).
  assert (Hs : 0 < s)
    by (apply Rmult_lt_0_compat; apply sqrt_lt_R0; assumption).
  assert (Hss : s * s = x * y).
  { unfold s.
    replace (R_sqrt.sqrt x * R_sqrt.sqrt y * (R_sqrt.sqrt x * R_sqrt.sqrt y))
      with ((R_sqrt.sqrt x * R_sqrt.sqrt x) * (R_sqrt.sqrt y * R_sqrt.sqrt y)) by ring.
    rewrite !sqrt_sqrt by lra. reflexivity. }
  assert (Hle : d <= s).
  { destruct (Rle_or_lt d s) as [|Hlt]; [assumption|exfalso].
    assert (0 < (d - s) * (d + s)) by (apply Rmult_lt_0_compat; lra). lra. }
  assert (Hge : - s <= d).
  { destruct (Rle_or_lt (- s) d) as [|Hlt]; [assumption|exfalso].
    assert (0 < (- s - d) * (s - d)) by (apply Rmult_lt_0_compat; lra). lra. }
  split.
  - apply Rmult_le_reg_r with s; [assumption|].
    unfold Rdiv. rewrite Rmult_assoc, Rinv_l by lra. lra.
  - apply Rmult_le_reg_r with s; [assumption|].
    unfold Rdiv. rewrite Rmult_assoc, Rinv_l by lra. lra.
Qed.

Lemma cosineSimilarity_R_bounds (a b : jsval R) :
  -1 <= cosineSimilarity a b <= 1.
Proof.
  destruct a as [a|], b as [b|]; simpl; try lra.
  destruct (negb (length a =? length b)); [lra|].
  destruct (cosine_loop a b 0 0 0) as [[d x] y] eqn:Heq.
  apply cosine_loop_cauchy_schwarz in Heq; try lra.
  destruct Heq as (Hx & Hy & Hd).
  destruct (Req_dec_T x 0); simpl; [lra|].
  destruct (Req_dec_T y 0); simpl; [lra|].
  apply quotient_bound; lra.
Qed.

(** On [(a, a)] the three accumulators stay equal. *)
Lemma cosine_loop_self (a : list R) : forall s, cosine_loop a a s s s =
  (fold_left (fun acc x => acc + x * x) a s,
   fold_left (fun acc x => acc + x * x) a s,
   fold_left (fun acc x => acc + x * x) a s).
Proof.
  induction a as [|x a IH]; intros s; simpl; [reflexivity|apply IH].
Qed.

Lemma sum_squares_ge (a : list R) : forall s,
  s <= fold_left (fun acc x => acc + x * x) a s.
Proof.
  induction a as [|x a IH]; intros s; simpl; [lra|].
  pose proof (Rle_0_sqr x) as Hx. unfold Rsqr in Hx.
  specialize (IH (s + x * x)). lra.
Qed.

Lemma sum_squares_pos (a : list R) : forall s,
  0 <= s -> Exists (fun x => x <> 0) a ->
  0 < fold_left (fun acc x => acc + x * x) a s.
Proof.
  induction a as [|x a IH]; intros s Hs Hex.
  - inversion Hex.
  - simpl. pose proof (Rle_0_sqr x) as Hx. unfold Rsqr in Hx.
    inversion Hex as [? ? Hne|? ? Hex']; subst.
    + assert (0 < x * x).
      { destruct (Rtotal_order x 0) as [Hlt|[Heq|Hgt]]; [|contradiction|].
        - replace (x * x) with ((- x) * (- x)) by ring. apply Rmult_lt_0_compat; lra.
        - apply Rmult_lt_0_compat; lra. }
      pose proof (sum_squares_ge a (s + x * x)). lra.
    + apply IH; [lra|assumption].
Qed.

Lemma cosineSimilarity_R_self (a : list R) :
  Exists (fun x => x <> 0) a -> cosineSimilarity (VArray a) (VArray a) = 1.
Proof.
  intros Hex. simpl. rewrite Nat.eqb_refl. simpl.
  change (IZR 0) with 0. rewrite cosine_loop_self.
  pose proof (@sum_squares_pos a 0 (Rle_refl 0) Hex) as Hpos.
  set (n := fold_left (fun acc x => acc + x * x) a 0) in *.
  destruct (Req_dec_T n 0); [lra|]. simpl.
  rewrite sqrt_sqrt by lra. unfold Rdiv. apply Rinv_r. lra.
Qed.

Lemma cosine_loop_zero_right (b : list R) : forall a dot na d x y,
  Forall (fun v => v = 0) b ->
  cosine_loop a b dot na 0 = (d, x, y) -> y = 0.
Proof.
  induction b as [|v b IH]; intros a dot na d x y Hall Heq.
  - destruct a; simpl in Heq; inversion Heq; reflexivity.
  - destruct a as [|u a]; simpl in Heq; [inversion Heq; reflexivity|].
    inversion Hall as [|? ? Hv Hall']; subst.
    replace (0 + 0 * 0) with 0 in Heq by ring.
    eapply IH; eassumption.
Qed.

Lemma cosine_loop_zero_left (a : list R) : forall b dot nb d x y,
  Forall (fun v => v = 0) a ->
  cosine_loop a b dot 0 nb = (d, x, y) -> x = 0.
Proof.
  induction a as [|u a IH]; intros b dot nb d x y Hall Heq.
  - simpl in Heq; inversion Heq; reflexivity.
  - destruct b as [|v b]; simpl in Heq; [inversion Heq; reflexivity|].
    inversion Hall as [|? ? Hu Hall']; subst.
    replace (0 + 0 * 0) with 0 in Heq by ring.
    eapply IH; eassumption.
Qed.

Lemma cosineSimilarity_R_zero (a b : list R) :
  Forall (fun v => v = 0) a \/ Forall (fun v => v = 0) b ->
  cosineSimilarity (VArray a) (VArray b) = 0.
Proof.
  intros Hz. simpl.
  destruct (negb (length a =? length b)); [reflexivity|].
  change (IZR 0) with 0.
  destruct (cosine_loop a b 0 0 0) as [[d x] y] eqn:Heq.
  destruct Hz as [Hz|Hz].
  - apply cosine_loop_zero_left in Heq; [|assumption]. subst x.
    destruct (Req_dec_T 0 0); [reflexivity|contradiction].
  - apply cosine_loop_zero_right in Heq; [|assumption]. subst y.
    destruct (Req_dec_T x 0); [reflexivity|].
    destruct (Req_dec_T 0 0); [reflexivity|contradiction].
Qed.

End CosineExact.

Lemma cosine_loop_float_zero_right (b : list float) : forall a dot na d x y,
  Forall float_zero b ->
  cosine_loop a b dot na PrimFloat.zero = (d, x, y) -> y = PrimFloat.zero.
Proof.
  induction b as [|v b IH]; intros a dot na d x y Hall Heq.
  - destruct a; simpl in Heq; inversion Heq; reflexivity.
  - destruct a as [|u a]; simpl in Heq; [inversion Heq; reflexivity|].
    inversion Hall as [|? ? Hv Hall']; subst.
    destruct Hv as [-> | ->];
      (replace (PrimFloat.add PrimFloat.zero (PrimFloat.mul _ _)) with PrimFloat.zero in Heq
        by reflexivity);
      eapply IH; eassumption.
Qed.

Lemma cosine_loop_float_zero_left (a : list float) : forall b dot nb d x y,
  Forall float_zero a ->
  cosine_loop a b dot PrimFloat.zero nb = (d, x, y) -> x = PrimFloat.zero.
Proof.
  induction a as [|u a IH]; intros b dot nb d x y Hall Heq.
  - simpl in Heq; inversion Heq; reflexivity.
  - destruct b as [|v b]; simpl in Heq; [inversion Heq; reflexivity|].
    inversion Hall as [|? ? Hu Hall']; subst.
    destruct Hu as [-> | ->];
      (replace (PrimFloat.add PrimFloat.zero (PrimFloat.mul _ _)) with PrimFloat.zero in Heq
        by reflexivity);
      eapply IH; eassumption.
Qed.

Lemma cosineSimilarity_float_zero (a b : list float) :
  Forall float_zero a \/ Forall float_zero b ->
  cosineSimilarity (VArray a) (VArray b) = PrimFloat.zero.
Proof.
  intros Hz. unfold cosineSimilarity.
  destruct (negb (length a =? length b)); [reflexivity|].
  change (@nzero float _) with PrimFloat.zero.
  destruct (cosine_loop a b PrimFloat.zero PrimFloat.zero PrimFloat.zero) as [[d x] y] eqn:Heq.
  destruct Hz as [Hz|Hz].
  - apply cosine_loop_float_zero_left in Heq; [|assumption]. subst x. reflexivity.
  - apply cosine_loop_float_zero_right in Heq; [|assumption]. subst y.
    rewrite orb_true_r. reflexivity.
Qed.

(** C9, as the engine computes it: on binary64 numbers the square of
    [1.125 * 2^-537] underflows to the smallest positive number, and the
    computed similarity of [[1.125 * 2^-537]] and [[2^33]] is [1.125], above
    1 by an eighth: no floating-point tolerance brings it back into
    [-1, 1]. *)
Lemma cosineSimilarity_float_out_of_bounds :
  cosineSimilarity (VArray [0x1.2p-537%float]) (VArray [0x1p33%float]) = 0x1.2p0%float /\
  ngt (cosineSimilarity (VArray [0x1.2p-537%float]) (VArray [0x1p33%float]))
      (nadd n_one (ndiv n_one (nofZ 10))) = true.
Proof. vm_compute. split; reflexivity. Qed.

(** C9, amended.  On the binary64 numbers of the engine: the similarity
    involving a vector of zeros (of either sign) is exactly [+0], whatever
    the other vector holds; the computed value is not confined to [-1, 1]
    ([1.125] for [[1.125 * 2^-537]] and [[2^33]]); the similarity of a vector
    with itself is [1.0000000000000002] for [[1, 1, 1]], NaN for [[2^700]]
    (the square overflows) and [0] for [[2^-700]] (the square underflows).
    In exact arithmetic: the similarity of any two vectors lies in [-1, 1],
    that of a vector that has a nonzero component with itself is 1, and the
    similarity involving an all-zero vector is 0. *)
Theorem cosineSimilarity_bounds :
  (forall a b : list float,
      Forall float_zero a \/ Forall float_zero b ->
      cosineSimilarity (VArray a) (VArray b) = PrimFloat.zero) /\
  cosineSimilarity (VArray [0x1.2p-537%float]) (VArray [0x1p33%float]) = 0x1.2p0%float /\
  cosineSimilarity (VArray [PrimFloat.one; PrimFloat.one; PrimFloat.one])
                   (VArray [PrimFloat.one; PrimFloat.one; PrimFloat.one])
    = PrimFloat.next_up PrimFloat.one /\
  PrimFloat.is_nan (cosineSimilarity (VArray [0x1p700%float]) (VArray [0x1p700%float]))
    = true /\
  (nseq 0x1p-700%float nzero = false /\
   cosineSimilarity (VArray [0x1p-700%float]) (VArray [0x1p-700%float]) = PrimFloat.zero) /\
  (forall a b : list R,
      (-1 <= cosineSimilarity (VArray a) (VArray b) <= 1)%R /\
      (Exists (fun x => x <> 0%R) a -> cosineSimilarity (VArray a) (VArray a) = 1%R) /\
      (Forall (fun x => x = 0%R) a \/ Forall (fun x => x = 0%R) b ->
       cosineSimilarity (VArray a) (VArray b) = 0%R)).
Proof.
  split; [apply cosineSimilarity_float_zero|].
  split; [vm_compute; reflexivity|].
  split; [vm_compute; reflexivity|].
  split; [vm_compute; reflexivity|].
  split; [vm_compute; split; reflexivity|].
  intros a b. split; [|split].
  - apply cosineSimilarity_R_bounds.
  - apply cosineSimilarity_R_self.
  - apply cosineSimilarity_R_zero.
Qed.

Lemma cosineSimilarity_bounds_witness :
  cosineSimilarity (VArray [PrimFloat.zero; PrimFloat.neg_zero])
                   (VArray [PrimFloat.one; PrimFloat.infinity]) = PrimFloat.zero /\
  cosineSimilarity (VArray [PrimFloat.nan; PrimFloat.one])
                   (VArray [PrimFloat.neg_zero; PrimFloat.zero]) = PrimFloat.zero /\
  (-1 <= cosineSimilarity (VArray [3; 4]) (VArray [4; 3]) <= 1)%R /\
  cosineSimilarity (VArray [3; 4]%R) (VArray [3; 4]%R) = 1%R /\
  cosineSimilarity (VArray [0; 0]%R) (VArray [3; 4]%R) = 0%R.
Proof.
  destruct cosineSimilarity_bounds as (Hzero & _ & _ & _ & _ & Hexact).
  destruct (Hexact [3; 4] [4; 3])%R as (Hbounds & _ & _).
  destruct (Hexact [3; 4] [3; 4])%R as (_ & Hself & _).
  destruct (Hexact [0; 0] [3; 4])%R as (_ & _ & Hz).
  split; [|split; [|split; [exact Hbounds|split]]].
  - apply Hzero. left. constructor; [left; reflexivity|].
    constructor; [right; reflexivity|constructor].
  - apply Hzero. right. constructor; [right; reflexivity|].
    constructor; [left; reflexivity|constructor].
  - apply Hself. apply Exists_cons_hd. lra.
  - apply Hz. left. repeat constructor.
Defined.

(** ** Lists: prefixes, [slice] and the sort *)

Section ListFacts.
Context {A : Type}.

Lemma In_firstn (n : nat) (l : list A) (x : A) : In x (firstn n l) -> In x l.
Proof.
  intros Hin. rewrite <- (firstn_skipn n l). apply in_or_app. left. exact Hin.
Qed.

Lemma slice_to_firstn (l : list A) (limit : Z) : exists k, slice_to l limit = firstn k l.
Proof.
  unfold slice_to. destruct (limit <? 0)%Z; eexists; reflexivity.
Qed.

Lemma In_slice_to (l : list A) (limit : Z) (x : A) : In x (slice_to l limit) -> In x l.
Proof.
  destruct (slice_to_firstn l limit) as [k ->]. apply In_firstn.
Qed.

Lemma length_slice_to (l : list A) (limit : Z) :
  (0 <= limit)%Z -> (Z.of_nat (length (slice_to l limit)) <= limit)%Z.
Proof.
  intros Hpos. unfold slice_to.
  destruct (limit <? 0)%Z eqn:Hneg; [apply Z.ltb_lt in Hneg; lia|].
  pose proof (firstn_le_length (Z.to_nat limit) l). lia.
Qed.

Lemma filter_firstn (f : A -> bool) (l : list A) : forall n,
  exists k, filter f (firstn n l) = firstn k (filter f l).
Proof.
  induction l as [|x l IH]; intros [|n]; simpl.
  - exists 0; reflexivity.
  - exists 0; reflexivity.
  - exists 0; reflexivity.
  - destruct (IH n) as [k Hk]. destruct (f x).
    + exists (S k). simpl. rewrite Hk. reflexivity.
    + exists k. exact Hk.
Qed.

Lemma StronglySorted_firstn (R : A -> A -> Prop) (l : list A) : forall n,
  StronglySorted R l -> StronglySorted R (firstn n l).
Proof.
  induction l as [|x l IH]; intros [|n] Hs; simpl; try constructor.
  - apply IH. apply StronglySorted_inv in Hs. tauto.
  - apply StronglySorted_inv in Hs. destruct Hs as [_ Hall].
    rewrite Forall_forall in *. intros y Hy. apply Hall. eapply In_firstn; eassumption.
Qed.

End ListFacts.

Section SortFacts.
Context {num : Type} `{Number num} {A : Type}.
Variable compare : A -> A -> num.

Lemma In_insert_by (x y : A) (l : list A) :
  In x (insert_by compare y l) <-> x = y \/ In x l.
Proof.
  induction l as [|z l IH]; simpl.
  - intuition congruence.
  - destruct (ngt (compare y z) nzero); simpl; [rewrite IH|]; intuition congruence.
Qed.

Lemma In_sort_by (x : A) (l : list A) : In x (sort_by compare l) <-> In x l.
Proof.
  induction l as [|y l IH]; simpl; [tauto|].
  rewrite In_insert_by, IH. intuition congruence.
Qed.

Lemma length_insert_by (y : A) (l : list A) :
  length (insert_by compare y l) = S (length l).
Proof.
  induction l as [|z l IH]; simpl; [reflexivity|].
  destruct (ngt (compare y z) nzero); simpl; [rewrite IH|]; reflexivity.
Qed.

Lemma length_sort_by (l : list A) : length (sort_by compare l) = length l.
Proof.
  induction l as [|y l IH]; simpl; [reflexivity|].
  rewrite length_insert_by, IH. reflexivity.
Qed.

(** The sort yields a sorted list for every relation [ge] the comparator
    decides on the elements at hand. *)
Variable ge : A -> A -> Prop.
Variable good : A -> Prop.
Hypothesis ge_trans : forall x y z, ge x y -> ge y z -> ge x z.
Hypothesis compare_pos : forall x y, ngt (compare x y) nzero = true -> ge y x.
Hypothesis compare_npos :
  forall x y, good x -> good y -> ngt (compare x y) nzero = false -> ge x y.

Lemma insert_by_sorted (x : A) (l : list A) :
  good x -> Forall good l ->
  StronglySorted ge l -> StronglySorted ge (insert_by compare x l).
Proof.
  intros Hx Hl Hs. induction Hs as [|y l Hs IH Hy]; simpl.
  - constructor; constructor.
  - inversion Hl as [|? ? Hgy Hgl]; subst.
    destruct (ngt (compare x y) nzero) eqn:Hc.
    + constructor; [apply IH; assumption|].
      rewrite Forall_forall in *. intros z Hz.
      apply (proj1 (In_insert_by _ _ _)) in Hz. destruct Hz as [->|Hz]; [apply compare_pos; exact Hc|auto].
    + assert (Hxy : ge x y) by (apply compare_npos; assumption).
      constructor; [constructor; assumption|].
      constructor; [exact Hxy|].
      rewrite Forall_forall in *. intros z Hz. eapply ge_trans; [exact Hxy|auto].
Qed.

Lemma sort_by_sorted (l : list A) :
  Forall good l -> StronglySorted ge (sort_by compare l).
Proof.
  induction l as [|x l IH]; intros Hl; simpl; [constructor|].
  inversion Hl as [|? ? Hx Hl']; subst.
  apply insert_by_sorted; [assumption| |apply IH; assumption].
  apply Forall_forall. intros z Hz. apply (proj1 (In_sort_by _ _)) in Hz.
  rewrite Forall_forall in Hl'. apply Hl'. exact Hz.
Qed.

(** The sort is stable: a class [same] of elements that the comparator never
    puts in strict order keeps its order. *)
Variable same : A -> bool.
Hypothesis same_unordered :
  forall x y, same x = true -> same y = true -> ngt (compare x y) nzero = false.

Lemma filter_insert_by (x : A) (l : list A) :
  filter same (insert_by compare x l) = filter same (x :: l).
Proof.
  induction l as [|y l IH]; [reflexivity|].
  simpl insert_by. destruct (ngt (compare x y) nzero) eqn:Hc; [|reflexivity].
  simpl. simpl in IH. rewrite IH.
  destruct (same x) eqn:Hsx, (same y) eqn:Hsy; try reflexivity.
  rewrite (same_unordered Hsx Hsy) in Hc. discriminate.
Qed.

Lemma filter_sort_by (l : list A) :
  filter same (sort_by compare l) = filter same l.
Proof.
  induction l as [|x l IH]; [reflexivity|].
  simpl sort_by. rewrite filter_insert_by. simpl. rewrite IH. reflexivity.
Qed.

End SortFacts.

(** ** What [generateEmbedding] and [search] return *)

Section SearchFacts.
Context {num : Type} `{Number num}.
Variable Math_sin : num -> num.
Variable env : Env num.

(** [generateEmbedding] never throws and leaves the store alone: it returns
    the provider's vector, or the deterministic vector when no key is
    configured or the provider call throws. *)
Lemma generateEmbedding_returns (text : jsstring) (w : World num) :
  exists v w',
    generateEmbedding Math_sin env text w = (Ok v, w') /\
    store w' = store w /\
    (v = pseudo_embedding Math_sin text \/
     OPENAI_API_KEY env = true /\
     embeddings_create env (steps w) (slice text 0 max_input_length) = Some v).
Proof.
  unfold generateEmbedding, try_catch, openai_embeddings_create.
  destruct (OPENAI_API_KEY env) eqn:Hkey; cbn [negb].
  - destruct (embeddings_create env (steps w) (slice text 0 max_input_length)) as [v|] eqn:Hcall.
    + exists v, (tick w). repeat split; auto.
    + exists (pseudo_embedding Math_sin text), (tick w). repeat split; auto.
  - exists (pseudo_embedding Math_sin text), w. repeat split; auto.
Qed.

(** [search] never throws and leaves the store alone.  It returns the ranked
    scores of the joined rows, or the empty list when the read failed. *)
Lemma search_returns (query : jsstring) (limit : Z) (threshold : num) (w : World num) :
  exists results w',
    search Math_sin env query limit threshold w = (Ok results, w') /\
    store w' = store w /\
    (results = [] \/
     exists queryEmbedding,
       results = rank (score_rows queryEmbedding (select_chunks_with_embeddings (store w)))
                      limit threshold).
Proof.
  destruct (generateEmbedding_returns query w) as (v & w1 & Hgen & Hstore & _).
  unfold search, try_catch, bind. rewrite Hgen.
  unfold db_all. destruct (db_fails env (steps w1)).
  - exists [], (tick w1). simpl. auto.
  - exists (rank (score_rows v (select_chunks_with_embeddings (store w1))) limit threshold),
           (tick w1).
    simpl. rewrite Hstore. split; [reflexivity|]. split; [reflexivity|].
    right. exists v. reflexivity.
Qed.

Lemma In_rank (rows : list (Scored num)) (limit : Z) (threshold : num) (r : SearchResult num) :
  In r (rank rows limit threshold) ->
  In (scored r) rows /\ nge (relevanceScore (scored r)) threshold = true /\
  citation r = generateCitation (scored r).
Proof.
  unfold rank. intros Hin. apply in_map_iff in Hin.
  destruct Hin as (s & <- & Hin). simpl.
  apply In_slice_to in Hin. apply (proj1 (In_sort_by _ _ _)) in Hin.
  apply filter_In in Hin. destruct Hin as [Hin Hge].
  split; [exact Hin|]. split; [exact Hge|reflexivity].
Qed.

Lemma length_rank (rows : list (Scored num)) (limit : Z) (threshold : num) :
  (0 <= limit)%Z -> (Z.of_nat (length (rank rows limit threshold)) <= limit)%Z.
Proof.
  intros Hpos. unfold rank. rewrite length_map. apply length_slice_to. exact Hpos.
Qed.

(** ** The loop of [getContext] *)

Lemma accumulate_taken (results : list (SearchResult num)) (maxTokens : Z) :
  forall acc,
    citations (accumulate results maxTokens acc) =
      citations acc ++ map (@citation_of num) (taken results maxTokens (tokenCount acc)) /\
    tokenCount (accumulate results maxTokens acc) =
      (tokenCount acc + total_cost (taken results maxTokens (tokenCount acc)))%Z.
Proof.
  induction results as [|r results IH]; intros acc; cbn [accumulate taken].
  - rewrite app_nil_r. unfold total_cost. simpl. split; [reflexivity|lia].
  - destruct (tokenCount acc + estimate_tokens (dc_chunk_text (chunk (scored r))) >? maxTokens)%Z.
    + rewrite app_nil_r. unfold total_cost. simpl. split; [reflexivity|lia].
    + destruct (IH (append_result acc r (estimate_tokens (dc_chunk_text (chunk (scored r))))))
        as [Hc Ht].
      rewrite Hc, Ht. cbn [append_result citations tokenCount map].
      split.
      * rewrite <- app_assoc. reflexivity.
      * unfold total_cost. cbn [map fold_right]. unfold cost_of at 2. lia.
Qed.

(** The taken results are a prefix of the results; the loop stops at the
    first result that would exceed the budget. *)
Lemma taken_prefix (results : list (SearchResult num)) (maxTokens : Z) : forall tokens,
  exists rest,
    results = taken results maxTokens tokens ++ rest /\
    match rest with
    | [] => True
    | r :: _ =>
        (tokens + total_cost (taken results maxTokens tokens) + cost_of r > maxTokens)%Z
    end.
Proof.
  induction results as [|r results IH]; intros tokens; simpl.
  - exists []. auto.
  - destruct (tokens + estimate_tokens (dc_chunk_text (chunk (scored r))) >? maxTokens)%Z eqn:Hc.
    + exists (r :: results). split; [reflexivity|].
      apply Z.gtb_lt in Hc. unfold total_cost, cost_of. simpl. lia.
    + destruct (IH (tokens + estimate_tokens (dc_chunk_text (chunk (scored r))))%Z)
        as (rest & Heq & Hstop).
      exists rest. split; [simpl; congruence|].
      destruct rest as [|r' rest']; [exact I|].
      unfold total_cost in *. simpl. unfold cost_of at 1. lia.
Qed.

Lemma taken_within_budget (results : list (SearchResult num)) (maxTokens : Z) :
  forall tokens, (tokens <= maxTokens)%Z ->
  (tokens + total_cost (taken results maxTokens tokens) <= maxTokens)%Z.
Proof.
  induction results as [|r results IH]; intros tokens Hle; simpl.
  - unfold total_cost. simpl. lia.
  - destruct (tokens + estimate_tokens (dc_chunk_text (chunk (scored r))) >? maxTokens)%Z eqn:Hc.
    + unfold total_cost. simpl. lia.
    + assert (Hle' : (tokens + estimate_tokens (dc_chunk_text (chunk (scored r))) <= maxTokens)%Z).
      { destruct (Z.gtb_spec (tokens + estimate_tokens (dc_chunk_text (chunk (scored r)))) maxTokens);
          [discriminate|lia]. }
      specialize (IH _ Hle'). unfold total_cost in *. simpl. unfold cost_of at 1. lia.
Qed.

(** [estimate_tokens] is the ceiling of a quarter of the length. *)
Lemma estimate_tokens_ceiling (s : jsstring) :
  (4 * (estimate_tokens s - 1) < Z.of_nat (length s) <= 4 * estimate_tokens s)%Z.
Proof.
  unfold estimate_tokens.
  pose proof (Z.div_mod (Z.of_nat (length s) + 3) 4 ltac:(lia)).
  pose proof (Z.mod_pos_bound (Z.of_nat (length s) + 3) 4 ltac:(lia)).
  lia.
Qed.

End SearchFacts.

(** ** Comparisons in exact arithmetic *)

Section ExactComparisons.
Local Open Scope R_scope.

Lemma R_nge_true (x y : R) : x >= y -> nge x y = true.
Proof. intros Hge. simpl. destruct (Rge_dec x y); [reflexivity|contradiction]. Qed.

Lemma R_nge_false (x y : R) : x < y -> nge x y = false.
Proof. intros Hlt. simpl. destruct (Rge_dec x y); [lra|reflexivity]. Qed.

Lemma R_nge_inv (x y : R) : nge x y = true -> x >= y.
Proof. simpl. destruct (Rge_dec x y); [trivial|discriminate]. Qed.

Lemma R_ngt_true (x y : R) : x > y -> ngt x y = true.
Proof. intros Hgt. simpl. destruct (Rgt_dec x y); [reflexivity|contradiction]. Qed.

Lemma R_ngt_false (x y : R) : x <= y -> ngt x y = false.
Proof. intros Hle. simpl. destruct (Rgt_dec x y); [lra|reflexivity]. Qed.

Lemma R_ngt_inv (x y : R) : ngt x y = true -> x > y.
Proof. simpl. destruct (Rgt_dec x y); [trivial|discriminate]. Qed.

Lemma R_ngt_false_inv (x y : R) : ngt x y = false -> x <= y.
Proof. simpl. destruct (Rgt_dec x y); [discriminate|lra]. Qed.

#[export] Instance R_NumberOrder : NumberOrder R.
Proof.
  split.
  - intros x y Hgt. apply R_ngt_inv in Hgt. unfold nsub, nzero, nofZ in Hgt. simpl in Hgt.
    split; [apply R_nge_true|apply R_nge_false]; lra.
  - intros x y _ _ Hngt. apply R_ngt_false_inv in Hngt.
    unfold nsub, nzero, nofZ in Hngt. simpl in Hngt. apply R_nge_true. lra.
  - intros x y z Hxy Hyz. apply R_nge_inv in Hxy, Hyz. apply R_nge_true. lra.
  - intros x y _. apply R_nge_true. lra.
Qed.

End ExactComparisons.

(** ** Runs of [search] *)

Section SearchRuns.
Variable num : Type.
Context `{Number num}.
Variable Math_sin : num -> num.
Variable env : Env num.

Lemma search_with_provider query limit threshold (w : World num) v :
  OPENAI_API_KEY env = true ->
  embeddings_create env (steps w) (slice query 0 max_input_length) = Some v ->
  db_fails env (S (steps w)) = false ->
  search Math_sin env query limit threshold w =
    (Ok (rank (score_rows v (select_chunks_with_embeddings (store w))) limit threshold),
     tick (tick w)).
Proof.
  intros Hkey Hcall Hdb.
  unfold search, try_catch, bind, generateEmbedding, try_catch, openai_embeddings_create, db_all.
  rewrite Hkey. cbn [negb]. rewrite Hcall. cbn [tick steps store]. rewrite Hdb. reflexivity.
Qed.

Lemma search_fallback query limit threshold (w : World num) :
  OPENAI_API_KEY env = true ->
  embeddings_create env (steps w) (slice query 0 max_input_length) = None ->
  db_fails env (S (steps w)) = false ->
  search Math_sin env query limit threshold w =
    (Ok (rank (score_rows (pseudo_embedding Math_sin query)
                          (select_chunks_with_embeddings (store w))) limit threshold),
     tick (tick w)).
Proof.
  intros Hkey Hcall Hdb.
  unfold search, try_catch, bind, generateEmbedding, try_catch, openai_embeddings_create, db_all.
  rewrite Hkey. cbn [negb]. rewrite Hcall. cbn [ret tick steps store]. rewrite Hdb. reflexivity.
Qed.

Lemma search_without_key query limit threshold (w : World num) :
  OPENAI_API_KEY env = false ->
  db_fails env (steps w) = false ->
  search Math_sin env query limit threshold w =
    (Ok (rank (score_rows (pseudo_embedding Math_sin query)
                          (select_chunks_with_embeddings (store w))) limit threshold),
     tick w).
Proof.
  intros Hkey Hdb.
  unfold search, try_catch, bind, generateEmbedding, try_catch, db_all.
  rewrite Hkey. cbn [negb ret]. rewrite Hdb. reflexivity.
Qed.

End SearchRuns.

Section SampleRuns.
Local Open Scope R_scope.

Lemma cosineSimilarity_unit : cosineSimilarity (VArray [1]) (VArray [1]) = 1.
Proof. apply cosineSimilarity_R_self. constructor. lra. Qed.

Lemma default_threshold_R : @default_threshold R _ = 7 / 10.
Proof. reflexivity. Qed.

Lemma select_two_chunks :
  select_chunks_with_embeddings two_chunks =
    [{| row_chunk := sample_row "a" "first note"; row_embedding := JsonArray [1] |};
     {| row_chunk := sample_row "b" "second note"; row_embedding := JsonArray [1] |}].
Proof. reflexivity. Qed.

Lemma score_two_chunks :
  score_rows [1] (select_chunks_with_embeddings two_chunks) =
    [{| chunk := sample_row "a" "first note"; relevanceScore := 1 |};
     {| chunk := sample_row "b" "second note"; relevanceScore := 1 |}].
Proof.
  rewrite select_two_chunks. cbn [score_rows JSON_parse row_embedding row_chunk].
  rewrite cosineSimilarity_unit. reflexivity.
Qed.

End SampleRuns.

(** ** [search]: threshold and limit *)

Section SearchClaims.
Variable num : Type.
Context `{Number num}.
Variable Math_sin : num -> num.
Variable env : Env num.

Lemma search_results_ranked query limit threshold (w : World num) :
  exists results w',
    search Math_sin env query limit threshold w = (Ok results, w') /\
    store w' = store w /\
    exists rows, results = rank rows limit threshold.
Proof.
  destruct (search_returns Math_sin env query limit threshold w)
    as (results & w' & Hs & Hst & [->|[qe ->]]).
  - exists [], w'. split; [exact Hs|]. split; [exact Hst|]. exists [].
    unfold rank, slice_to. simpl. destruct (limit <? 0)%Z; rewrite firstn_nil; reflexivity.
  - eexists _, w'. split; [exact Hs|]. split; [exact Hst|]. eexists. reflexivity.
Qed.

(** The two bounds on the results of [search]. *)
Lemma search_bounds query limit threshold (w : World num) :
  exists results w',
    search Math_sin env query limit threshold w = (Ok results, w') /\
    (forall r, In r results -> nge (relevanceScore (scored r)) threshold = true) /\
    ((0 <= limit)%Z -> (Z.of_nat (length results) <= limit)%Z).
Proof.
  destruct (search_results_ranked query limit threshold w)
    as (results & w' & Hs & _ & rows & ->).
  exists (rank rows limit threshold), w'. split; [exact Hs|]. split.
  - intros r Hin. apply In_rank in Hin. apply Hin.
  - apply length_rank.
Qed.


(** ** [getContext]: budget, size and scores *)

Lemma getContext_returns query maxTokens (w : World num) :
  exists results w',
    search Math_sin env query 10 default_threshold w = (Ok results, w') /\
    getContext Math_sin env query maxTokens w =
      (Ok (accumulate results maxTokens (empty_context num)), w') /\
    (Z.of_nat (length results) <= 10)%Z /\
    (forall r, In r results -> nge (relevanceScore (scored r)) default_threshold = true).
Proof.
  destruct (search_bounds query 10 default_threshold w)
    as (results & w' & Hs & Hscore & Hlen).
  exists results, w'. split; [exact Hs|]. split; [|split; [apply Hlen; lia|assumption]].
  unfold getContext, bind. rewrite Hs. reflexivity.
Qed.

(** C10: [getContext] includes at most 10 chunks, and every chunk it
    includes and cites has [relevanceScore >= 0.7]. *)
Theorem getContext_ten_chunks_above_default query maxTokens (w : World num) :
  exists c w',
    getContext Math_sin env query maxTokens w = (Ok c, w') /\
    length (citations c) <= 10 /\
    (forall cit, In cit (citations c) ->
                 nge (cit_relevanceScore cit) default_threshold = true).
Proof.
  destruct (getContext_returns query maxTokens w)
    as (results & w' & _ & Hg & Hlen & Hscore).
  exists (accumulate results maxTokens (empty_context num)), w'.
  split; [exact Hg|].
  destruct (accumulate_taken results maxTokens (empty_context num)) as [Hc _].
  destruct (taken_prefix results maxTokens (tokenCount (empty_context num)))
    as (rest & Hpre & _).
  rewrite Hc. cbn [citations empty_context app]. split.
  - rewrite length_map.
    assert (Hl : length results =
                 length (taken results maxTokens (tokenCount (empty_context num))) + length rest)
      by (rewrite Hpre at 1; apply length_app).
    lia.
  - intros cit Hin. apply in_map_iff in Hin. destruct Hin as (r & <- & Hin).
    cbn [citation_of cit_relevanceScore]. apply Hscore.
    rewrite Hpre. apply in_or_app. left. exact Hin.
Qed.


End SearchClaims.

(** ** Sample runs: a negative limit, a negative budget *)

Section NegativeArguments.
Local Open Scope R_scope.

Lemma rank_two_chunks (limit : Z) :
  rank (score_rows [1] (select_chunks_with_embeddings two_chunks)) limit default_threshold =
    map (fun r => {| scored := r; citation := generateCitation r |})
        (slice_to [{| chunk := sample_row "a" "first note"; relevanceScore := 1 |};
                   {| chunk := sample_row "b" "second note"; relevanceScore := 1 |}] limit).
Proof.
  rewrite score_two_chunks. unfold rank.
  cbn [filter relevanceScore]. rewrite default_threshold_R.
  rewrite (R_nge_true (x := 1) (y := 7 / 10)) by lra.
  cbn [sort_by fold_right insert_by relevanceScore].
  rewrite R_ngt_false; [reflexivity|].
  unfold nsub, nzero, nofZ. simpl. lra.
Qed.

Lemma search_two_chunks (query : jsstring) (limit : Z) :
  search R_sin env_unit query limit default_threshold (world_of two_chunks) =
    (Ok (map (fun r => {| scored := r; citation := generateCitation r |})
             (slice_to [{| chunk := sample_row "a" "first note"; relevanceScore := 1 |};
                        {| chunk := sample_row "b" "second note"; relevanceScore := 1 |}] limit)),
     tick (tick (world_of two_chunks))).
Proof.
  rewrite (search_with_provider R_sin env_unit query limit default_threshold
             (world_of two_chunks) (v := [1]) eq_refl eq_refl eq_refl).
  cbn [store world_of]. rewrite rank_two_chunks. reflexivity.
Qed.





(** The budget at work: with room for three tokens only, the first note
    (10 characters, 3 tokens) is included and the second left out. *)
Example getContext_three_tokens :
  exists c w',
    getContext R_sin env_unit (str "note") 3 (world_of two_chunks) = (Ok c, w') /\
    tokenCount c = 3%Z /\
    map (@cit_id R) (citations c) = [str "a_chunk_0"].
Proof.
  eexists _, _. split; [|split].
  - unfold getContext, bind. rewrite search_two_chunks. reflexivity.
  - reflexivity.
  - reflexivity.
Qed.

End NegativeArguments.

(** ** The order of binary64 numbers

    The laws of [NumberOrder] on the kernel's binary64 numbers, from their
    specification ([SpecFloat]): comparison is the order of the values, and
    a subtraction, which rounds, still has the sign of the exact
    difference. *)

Section Binary64Order.
Local Open Scope Z_scope.
Local Unset Implicit Arguments.

Lemma digits2_pos_bounds (m : positive) :
  2 ^ (Zpos (digits2_pos m) - 1) <= Zpos m < 2 ^ Zpos (digits2_pos m).
Proof.
  induction m as [m IH|m IH|]; cbn [digits2_pos].
  - rewrite Pos2Z.inj_succ.
    replace (Z.succ (Zpos (digits2_pos m)) - 1) with (Z.succ (Zpos (digits2_pos m) - 1)) by lia.
    rewrite !Z.pow_succ_r by lia. lia.
  - rewrite Pos2Z.inj_succ.
    replace (Z.succ (Zpos (digits2_pos m)) - 1) with (Z.succ (Zpos (digits2_pos m) - 1)) by lia.
    rewrite !Z.pow_succ_r by lia. lia.
  - simpl. lia.
Qed.

Lemma bounded_inv (m : positive) (e : Z) :
  bounded prec emax m e = true ->
  -1074 <= e /\ Zpos (digits2_pos m) <= 53 /\ (-1074 < e -> Zpos (digits2_pos m) = 53).
Proof.
  unfold bounded, canonical_mantissa, fexp, emin, prec, emax.
  intros H. apply andb_true_iff in H. destruct H as [H _].
  apply Z.eqb_eq in H. lia.
Qed.

Lemma Pos_iter_xO (m d : positive) : Zpos (Pos.iter xO m d) = Zpos m * 2 ^ Zpos d.
Proof.
  induction d as [|d IH] using Pos.peano_ind.
  - simpl. lia.
  - rewrite Pos.iter_succ, Pos2Z.inj_succ, Z.pow_succ_r by lia.
    rewrite Pos2Z.inj_xO, IH. lia.
Qed.

Lemma shl_align_value (m : positive) (e ez : Z) :
  ez <= e -> Zpos (fst (shl_align m e ez)) = Zpos m * 2 ^ (e - ez).
Proof.
  intros Hle. unfold shl_align.
  destruct (ez - e) as [|d|d] eqn:Hd; simpl.
  - replace (e - ez) with 0 by lia. rewrite Z.pow_0_r. lia.
  - lia.
  - rewrite Pos_iter_xO. replace (e - ez) with (Zpos d) by lia. reflexivity.
Qed.

Lemma canonical_lt (m1 m2 : positive) (e1 e2 : Z) :
  bounded prec emax m1 e1 = true -> bounded prec emax m2 e2 = true ->
  e1 < e2 -> Zpos m1 < Zpos m2 * 2 ^ (e2 - e1).
Proof.
  intros H1 H2 Hlt.
  apply bounded_inv in H1. apply bounded_inv in H2.
  destruct H1 as (Hmin1 & Hd1 & _). destruct H2 as (_ & _ & Hd2).
  specialize (Hd2 ltac:(lia)).
  pose proof (digits2_pos_bounds m1) as [_ Hm1].
  pose proof (digits2_pos_bounds m2) as [Hm2 _]. rewrite Hd2 in Hm2.
  assert (Hp1 : 2 ^ Zpos (digits2_pos m1) <= 2 ^ 53) by (apply Z.pow_le_mono_r; lia).
  assert (Hp2 : 2 ^ 1 <= 2 ^ (e2 - e1)) by (apply Z.pow_le_mono_r; lia).
  change (2 ^ (53 - 1)) with 4503599627370496 in Hm2.
  change (2 ^ 53) with 9007199254740992 in Hp1.
  change (2 ^ 1) with 2 in Hp2.
  nia.
Qed.

Lemma Pos_compare_cont_Eq (p q : positive) : Pos.compare_cont Eq p q = (Zpos p ?= Zpos q).
Proof. reflexivity. Qed.

Lemma SFcompare_finite (sX : bool) (mX : positive) (eX : Z) (sY : bool) (mY : positive) (eY : Z) :
  bounded prec emax mX eX = true -> bounded prec emax mY eY = true ->
  SFcompare (S754_finite sX mX eX) (S754_finite sY mY eY) =
    Some (SFvalue (Z.min eX eY) sX mX eX ?= SFvalue (Z.min eX eY) sY mY eY).
Proof.
  intros HX HY. unfold SFvalue.
  rewrite !shl_align_value by lia.
  pose proof (Z.pow_pos_nonneg 2 (eX - Z.min eX eY) ltac:(lia) ltac:(lia)) as HpX.
  pose proof (Z.pow_pos_nonneg 2 (eY - Z.min eX eY) ltac:(lia) ltac:(lia)) as HpY.
  cbn [SFcompare]. f_equal.
  destruct (Z.compare_spec eX eY) as [Heq|Hlt|Hgt].
  - subst eY. rewrite Z.min_id, Z.sub_diag in *. rewrite Z.pow_0_r, !Z.mul_1_r.
    rewrite Pos_compare_cont_Eq.
    destruct sX, sY; cbn [cond_Zopp]; reflexivity.
  - pose proof (canonical_lt _ _ _ _ HX HY Hlt) as Hc.
    replace (Z.min eX eY) with eX in * by lia. rewrite Z.sub_diag, Z.pow_0_r, Z.mul_1_r in *.
    set (vY := Zpos mY * 2 ^ (eY - eX)) in *.
    destruct sX, sY; cbn [cond_Zopp]; symmetry.
    + apply Z.compare_gt_iff. lia.
    + apply Z.compare_lt_iff. lia.
    + apply Z.compare_gt_iff. lia.
    + apply Z.compare_lt_iff. lia.
  - pose proof (canonical_lt _ _ _ _ HY HX ltac:(lia)) as Hc.
    replace (Z.min eX eY) with eY in * by lia. rewrite Z.sub_diag, Z.pow_0_r, Z.mul_1_r in *.
    set (vX := Zpos mX * 2 ^ (eX - eY)) in *.
    destruct sX, sY; cbn [cond_Zopp]; symmetry.
    + apply Z.compare_lt_iff. lia.
    + apply Z.compare_lt_iff. lia.
    + apply Z.compare_gt_iff. lia.
    + apply Z.compare_gt_iff. lia.
Qed.

(** Rounding never turns a non-zero mantissa into zero when the exponent
    is at least [emin] (-1074 for binary64). *)

Lemma iter_pos_nat {A} (f : A -> A) (p : positive) : forall x,
  iter_pos f p x = Nat.iter (Pos.to_nat p) f x.
Proof.
  induction p as [p IH|p IH|]; intros x; cbn [iter_pos].
  - rewrite !IH. rewrite Pos2Nat.inj_xI.
    replace (S (2 * Pos.to_nat p))%nat with (Pos.to_nat p + Pos.to_nat p + 1)%nat by lia.
    rewrite !Nat.iter_add. reflexivity.
  - rewrite !IH. rewrite Pos2Nat.inj_xO.
    replace (2 * Pos.to_nat p)%nat with (Pos.to_nat p + Pos.to_nat p)%nat by lia.
    rewrite Nat.iter_add. reflexivity.
  - reflexivity.
Qed.

Lemma shr_1_m (mrs : shr_record) :
  0 <= shr_m mrs -> shr_m (shr_1 mrs) = Z.div2 (shr_m mrs).
Proof.
  destruct mrs as [m r s]. cbn [shr_m]. intros Hm.
  destruct m as [|[p|p|]|p]; try reflexivity. lia.
Qed.

Lemma shr_iter (n : nat) : forall mrs,
  2 ^ Z.of_nat n <= shr_m mrs -> 0 < shr_m (Nat.iter n shr_1 mrs).
Proof.
  induction n as [|n IH]; intros mrs Hm.
  - simpl in *. lia.
  - rewrite Nat.iter_succ_r. apply IH.
    assert (Hpos : 0 < 2 ^ Z.of_nat n) by (apply Z.pow_pos_nonneg; lia).
    rewrite Nat2Z.inj_succ, Z.pow_succ_r in Hm by lia.
    rewrite shr_1_m by lia. rewrite Z.div2_div.
    apply Z.div_le_lower_bound; lia.
Qed.

Lemma shr_record_of_loc_m (m : Z) (l : location) : shr_m (shr_record_of_loc m l) = m.
Proof. destruct l as [|[| |]]; reflexivity. Qed.

Lemma shr_fexp_pos (m : Z) (e : Z) (l : location) :
  0 < m -> -1074 <= e ->
  0 < shr_m (fst (shr_fexp prec emax m e l)) /\ -1074 <= snd (shr_fexp prec emax m e l).
Proof.
  intros Hm He. unfold shr_fexp, shr.
  destruct m as [|p|p]; try lia. cbn [Zdigits2].
  pose proof (digits2_pos_bounds p) as [Hlow _].
  set (d := Zpos (digits2_pos p)) in *.
  unfold fexp, emin, prec, emax.
  destruct (Z.max (d + e - 53) (3 - 1024 - 53) - e) as [|n|n] eqn:Hn; cbn [fst snd].
  - rewrite shr_record_of_loc_m. lia.
  - split; [|lia].
    rewrite iter_pos_nat. apply shr_iter. rewrite shr_record_of_loc_m.
    rewrite positive_nat_Z.
    assert (Hle : Zpos n <= d - 1) by lia.
    assert (Hp : 2 ^ Zpos n <= 2 ^ (d - 1)) by (apply Z.pow_le_mono_r; lia).
    lia.
  - rewrite shr_record_of_loc_m. lia.
Qed.

Lemma round_nearest_even_ge (m : Z) (l : location) : m <= round_nearest_even m l.
Proof.
  destruct l as [|[| |]]; cbn [round_nearest_even]; try lia.
  destruct (Z.even m); lia.
Qed.

Lemma binary_round_aux_pos (m e : Z) (l : location) :
  0 < m -> -1074 <= e ->
  SFltb (S754_zero false) (binary_round_aux prec emax false m e l) = true.
Proof.
  intros Hm He. unfold binary_round_aux.
  destruct (shr_fexp_pos m e l Hm He) as [Hm1 He1].
  destruct (shr_fexp prec emax m e l) as [mrs1 e1]. cbn [fst snd] in *.
  pose proof (round_nearest_even_ge (shr_m mrs1) (loc_of_shr_record mrs1)) as Hr.
  destruct (shr_fexp_pos (round_nearest_even (shr_m mrs1) (loc_of_shr_record mrs1)) e1 loc_Exact
              ltac:(lia) He1) as [Hm2 He2].
  destruct (shr_fexp prec emax (round_nearest_even (shr_m mrs1) (loc_of_shr_record mrs1)) e1
              loc_Exact) as [mrs2 e2]. cbn [fst snd] in *.
  destruct (shr_m mrs2) as [|q|q]; try lia.
  destruct (e2 <=? emax - prec); reflexivity.
Qed.

Lemma binary_round_aux_neg (m e : Z) (l : location) :
  SFltb (S754_zero false) (binary_round_aux prec emax true m e l) = false.
Proof.
  unfold binary_round_aux.
  destruct (shr_fexp prec emax m e l) as [mrs1 e1].
  destruct (shr_fexp prec emax (round_nearest_even (shr_m mrs1) (loc_of_shr_record mrs1)) e1
              loc_Exact) as [mrs2 e2].
  destruct (shr_m mrs2) as [|q|q]; try reflexivity.
  destruct (e2 <=? emax - prec); reflexivity.
Qed.

Lemma binary_normalize_sign (m e : Z) :
  -1074 <= e ->
  SFltb (S754_zero false) (binary_normalize prec emax m e false) = (0 <? m).
Proof.
  intros He. destruct m as [|p|p]; cbn [binary_normalize]; unfold binary_round.
  - reflexivity.
  - destruct (shl_align p e (fexp prec emax (Zpos (digits2_pos p) + e))) as [mz ez] eqn:Hal.
    apply binary_round_aux_pos; [lia|].
    unfold shl_align in Hal.
    destruct (fexp prec emax (Zpos (digits2_pos p) + e) - e) eqn:Hd;
      inversion Hal; subst; try lia.
    unfold fexp, emin, prec, emax. lia.
  - destruct (shl_align p e (fexp prec emax (Zpos (digits2_pos p) + e))) as [mz ez].
    apply binary_round_aux_neg.
Qed.

(** The sign of a difference tells the order. *)
Lemma SFsub_pos (X Y : spec_float) :
  valid_binary X = true -> valid_binary Y = true ->
  SFltb (S754_zero false) (SFsub prec emax Y X) = SFltb X Y.
Proof.
  intros HX HY.
  destruct X as [sx|sx| |sx mx ex], Y as [sy|sy| |sy my ey];
    try reflexivity;
    try (destruct sx; reflexivity);
    try (destruct sy; reflexivity);
    try (destruct sx, sy; reflexivity).
  cbn [valid_binary] in HX, HY. cbn [SFsub].
  pose proof (bounded_inv _ _ HX) as (HeX & _). pose proof (bounded_inv _ _ HY) as (HeY & _).
  rewrite binary_normalize_sign by lia.
  unfold SFltb. rewrite (SFcompare_finite _ _ _ _ _ _ HX HY).
  rewrite (Z.min_comm ey ex). fold (SFvalue (Z.min ex ey) sy my ey).
  fold (SFvalue (Z.min ex ey) sx mx ex).
  destruct (Z.compare_spec (SFvalue (Z.min ex ey) sx mx ex) (SFvalue (Z.min ex ey) sy my ey));
    [apply Z.ltb_ge|apply Z.ltb_lt|apply Z.ltb_ge]; lia.
Qed.

Lemma SFcompare_antisym (X Y : spec_float) :
  SFcompare Y X = option_map CompOpp (SFcompare X Y).
Proof.
  destruct X as [sx|sx| |sx mx ex], Y as [sy|sy| |sy my ey];
    try reflexivity;
    try (destruct sx; reflexivity);
    try (destruct sy; reflexivity);
    try (destruct sx, sy; reflexivity).
  cbn [SFcompare option_map]. f_equal.
  rewrite (Z.compare_antisym ex ey).
  rewrite !Pos_compare_cont_Eq. rewrite (Z.compare_antisym (Zpos mx) (Zpos my)).
  destruct sx, sy; try reflexivity;
    destruct (ex ?= ey); cbn [CompOpp]; try reflexivity;
    destruct (Zpos mx ?= Zpos my); reflexivity.
Qed.

Lemma SFcompare_refl (X : spec_float) : X <> S754_nan -> SFcompare X X = Some Eq.
Proof.
  destruct X as [sx|sx| |sx mx ex]; intros Hnan; try congruence.
  - reflexivity.
  - destruct sx; reflexivity.
  - cbn [SFcompare]. rewrite Z.compare_refl, Pos_compare_cont_Eq, Z.compare_refl.
    destruct sx; reflexivity.
Qed.

Lemma SFleb_not_nan_l (X Y : spec_float) : SFleb X Y = true -> X <> S754_nan.
Proof. intros H ->. discriminate H. Qed.

Lemma SFleb_not_nan_r (X Y : spec_float) : SFleb X Y = true -> Y <> S754_nan.
Proof. intros H ->. destruct X; discriminate H. Qed.

Lemma SFcompare_defined (X Y : spec_float) :
  X <> S754_nan -> Y <> S754_nan -> exists c, SFcompare X Y = Some c.
Proof.
  destruct X as [sx|sx| |sx mx ex], Y as [sy|sy| |sy my ey]; intros HX HY;
    try congruence; cbn [SFcompare]; eauto.
Qed.

Ltac compare_cases :=
  repeat match goal with
  | H : context [Pos.compare_cont Eq ?a ?b] |- _ => rewrite (Pos_compare_cont_Eq a b) in H
  | |- context [Pos.compare_cont Eq ?a ?b] => rewrite (Pos_compare_cont_Eq a b)
  end;
  repeat match goal with
  | H : context [(?a ?= ?b)%Z] |- _ => destruct (Z.compare_spec a b); cbn [CompOpp] in *
  | |- context [(?a ?= ?b)%Z] => destruct (Z.compare_spec a b); cbn [CompOpp] in *
  end.

Lemma SFleb_trans (X Y Z : spec_float) :
  SFleb X Y = true -> SFleb Y Z = true -> SFleb X Z = true.
Proof.
  unfold SFleb.
  destruct X as [sx|sx| |sx mx ex], Y as [sy|sy| |sy my ey], Z as [sz|sz| |sz mz ez];
    cbn [SFcompare]; intros HXY HYZ;
    try discriminate; try reflexivity;
    try (destruct sx; try discriminate; try reflexivity);
    try (destruct sy; try discriminate; try reflexivity);
    try (destruct sz; try discriminate; try reflexivity);
    compare_cases; try discriminate; try reflexivity; try lia.
Qed.

(** The laws on binary64 numbers. *)

Lemma Prim2SF_zero : Prim2SF PrimFloat.zero = S754_zero false.
Proof. reflexivity. Qed.

Lemma float_sub_pos (x y : float) :
  PrimFloat.ltb PrimFloat.zero (PrimFloat.sub y x) = PrimFloat.ltb x y.
Proof.
  rewrite !FloatAxioms.ltb_spec, FloatAxioms.sub_spec, Prim2SF_zero.
  apply SFsub_pos; apply FloatAxioms.Prim2SF_valid.
Qed.

Lemma float_ltb_leb (x y : float) :
  PrimFloat.ltb x y = true -> PrimFloat.leb x y = true /\ PrimFloat.leb y x = false.
Proof.
  rewrite FloatAxioms.ltb_spec, !FloatAxioms.leb_spec. unfold SFltb, SFleb.
  rewrite (SFcompare_antisym (Prim2SF x) (Prim2SF y)).
  destruct (SFcompare (Prim2SF x) (Prim2SF y)) as [[| |]|]; try discriminate.
  intros _. split; reflexivity.
Qed.

Lemma float_not_ltb_leb (x y : float) :
  PrimFloat.leb x x = true -> PrimFloat.leb y y = true ->
  PrimFloat.ltb x y = false -> PrimFloat.leb y x = true.
Proof.
  rewrite FloatAxioms.ltb_spec, !FloatAxioms.leb_spec. intros Hx Hy.
  apply SFleb_not_nan_l in Hx. apply SFleb_not_nan_l in Hy.
  destruct (SFcompare_defined _ _ Hx Hy) as [c Hc].
  unfold SFltb, SFleb. rewrite (SFcompare_antisym (Prim2SF x) (Prim2SF y)), Hc.
  destruct c; try discriminate; reflexivity.
Qed.

Lemma float_leb_trans (x y z : float) :
  PrimFloat.leb x y = true -> PrimFloat.leb y z = true -> PrimFloat.leb x z = true.
Proof. rewrite !FloatAxioms.leb_spec. apply SFleb_trans. Qed.

Lemma float_leb_diag (x y : float) : PrimFloat.leb y x = true -> PrimFloat.leb x x = true.
Proof.
  rewrite !FloatAxioms.leb_spec. intros H. apply SFleb_not_nan_r in H.
  unfold SFleb. rewrite SFcompare_refl by exact H. reflexivity.
Qed.

#[export] Instance float_NumberOrder : NumberOrder float.
Proof.
  split.
  - intros x y Hgt. change (PrimFloat.ltb PrimFloat.zero (PrimFloat.sub y x) = true) in Hgt.
    rewrite float_sub_pos in Hgt. apply float_ltb_leb in Hgt. exact Hgt.
  - intros x y Hx Hy Hngt.
    change (PrimFloat.ltb PrimFloat.zero (PrimFloat.sub y x) = false) in Hngt.
    rewrite float_sub_pos in Hngt. exact (float_not_ltb_leb x y Hx Hy Hngt).
  - intros x y z Hxy Hyz. exact (float_leb_trans z y x Hyz Hxy).
  - intros x y Hxy. exact (float_leb_diag x y Hxy).
Qed.

End Binary64Order.

(** ** [search]: ranking order *)

Lemma StronglySorted_map {A B} (f : A -> B) (R : B -> B -> Prop) (l : list A) :
  StronglySorted R (map f l) -> StronglySorted (fun a b => R (f a) (f b)) l.
Proof.
  induction l as [|x l IH]; intros Hs; [constructor|].
  simpl in Hs. apply StronglySorted_inv in Hs. destruct Hs as [Hs Hall].
  constructor; [apply IH; exact Hs|].
  rewrite Forall_forall in *. intros y Hy. apply Hall. apply in_map. exact Hy.
Qed.

Section Ranking.
Variable num : Type.
Context `{NumberOrder num}.

Lemma by_score_pos (x y : Scored num) :
  ngt (by_score x y) nzero = true -> score_ge y x.
Proof. intros Hc. apply nsub_pos_gt in Hc. apply Hc. Qed.

Lemma by_score_npos (x y : Scored num) :
  score_ge x x -> score_ge y y -> ngt (by_score x y) nzero = false -> score_ge x y.
Proof. intros Hx Hy Hc. apply nsub_npos_ge; assumption. Qed.

Lemma score_ge_trans (x y z : Scored num) : score_ge x y -> score_ge y z -> score_ge x z.
Proof. unfold score_ge. apply nge_trans. Qed.

Lemma same_score_unordered (s : num) (x y : Scored num) :
  same_score s x = true -> same_score s y = true -> ngt (by_score x y) nzero = false.
Proof.
  unfold same_score. intros Hx Hy.
  apply andb_true_iff in Hx. apply andb_true_iff in Hy.
  destruct Hx as [Hxs _], Hy as [_ Hsy].
  destruct (ngt (by_score x y) nzero) eqn:Hc; [|reflexivity].
  apply nsub_pos_gt in Hc. destruct Hc as [_ Hc].
  rewrite (nge_trans _ _ _ Hxs Hsy) in Hc. discriminate.
Qed.

(** The threshold filter keeps or drops a class of equal scores as a whole. *)
Lemma filter_same_score_threshold (s threshold : num) (rows : list (Scored num)) :
  filter (same_score s) (filter (fun r => nge (relevanceScore r) threshold) rows) =
    if nge s threshold then filter (same_score s) rows else [].
Proof.
  induction rows as [|r rows IH]; simpl; [destruct (nge s threshold); reflexivity|].
  destruct (nge (relevanceScore r) threshold) eqn:Hrt; simpl; rewrite IH;
    destruct (same_score s r) eqn:Hsr; try reflexivity.
  - unfold same_score in Hsr. apply andb_true_iff in Hsr. destruct Hsr as [_ Hsr].
    rewrite (nge_trans _ _ _ Hsr Hrt). reflexivity.
  - destruct (nge s threshold) eqn:Hst; [|reflexivity].
    unfold same_score in Hsr. apply andb_true_iff in Hsr. destruct Hsr as [Hrs _].
    rewrite (nge_trans _ _ _ Hrs Hst) in Hrt. discriminate.
Qed.

Lemma scored_rank (rows : list (Scored num)) (limit : Z) (threshold : num) :
  map (@scored num) (rank rows limit threshold) =
    slice_to (sort_by (@by_score num _) (filter (fun r => nge (relevanceScore r) threshold) rows)) limit.
Proof.
  unfold rank. rewrite map_map. simpl. apply map_id.
Qed.

Lemma rank_sorted (rows : list (Scored num)) (limit : Z) (threshold : num) :
  StronglySorted (fun a b => score_ge (scored a) (scored b)) (rank rows limit threshold).
Proof.
  apply StronglySorted_map with (R := @score_ge num _). rewrite scored_rank.
  destruct (slice_to_firstn
              (sort_by (@by_score num _) (filter (fun r => nge (relevanceScore r) threshold) rows)) limit)
    as [k ->].
  apply StronglySorted_firstn.
  apply sort_by_sorted with (good := fun r => score_ge r r).
  - exact score_ge_trans.
  - exact by_score_pos.
  - exact by_score_npos.
  - apply Forall_forall. intros r Hr. apply filter_In in Hr. destruct Hr as [_ Hr].
    exact (nge_diag _ _ Hr).
Qed.

Lemma rank_stable (rows : list (Scored num)) (limit : Z) (threshold s : num) :
  exists k, filter (same_score s) (map (@scored num) (rank rows limit threshold)) =
            firstn k (filter (same_score s) rows).
Proof.
  rewrite scored_rank.
  destruct (slice_to_firstn
              (sort_by (@by_score num _) (filter (fun r => nge (relevanceScore r) threshold) rows)) limit)
    as [k0 ->].
  destruct (filter_firstn (same_score s)
              (sort_by (@by_score num _) (filter (fun r => nge (relevanceScore r) threshold) rows)) k0)
    as [k ->].
  rewrite filter_sort_by by (apply same_score_unordered).
  rewrite filter_same_score_threshold.
  destruct (nge s threshold).
  - exists k. reflexivity.
  - exists 0. rewrite firstn_nil. reflexivity.
Qed.

Variable Math_sin : num -> num.
Variable env : Env num.

(** The ranking order of [search], for every number type that meets the
    laws of [NumberOrder]. *)
Lemma search_ranking_order_of_laws query limit threshold (w : World num) :
  exists results w' queryEmbedding,
    search Math_sin env query limit threshold w = (Ok results, w') /\
    StronglySorted (fun a b => score_ge (scored a) (scored b)) results /\
    forall s, exists k,
      filter (same_score s) (map (@scored num) results) =
      firstn k (filter (same_score s)
                  (score_rows queryEmbedding (select_chunks_with_embeddings (store w)))).
Proof.
  destruct (search_returns Math_sin env query limit threshold w)
    as (results & w' & Hs & _ & [->|[qe ->]]).
  - exists [], w', []. split; [exact Hs|]. split; [constructor|].
    intros s. exists 0. reflexivity.
  - exists (rank (score_rows qe (select_chunks_with_embeddings (store w))) limit threshold),
           w', qe.
    split; [exact Hs|]. split; [apply rank_sorted|].
    intros s. apply rank_stable.
Qed.

End Ranking.

(** The ranking order in exact arithmetic. *)
Lemma search_ranking_order_exact (env : Env R)
    (query : jsstring) (limit : Z) (threshold : R) (w : World R) :
  exists results w' queryEmbedding,
    search R_sin env query limit threshold w = (Ok results, w') /\
    StronglySorted (fun a b => score_ge (scored a) (scored b)) results /\
    forall s, exists k,
      filter (same_score s) (map (@scored R) results) =
      firstn k (filter (same_score s)
                  (score_rows queryEmbedding (select_chunks_with_embeddings (store w)))).
Proof.
  exact (search_ranking_order_of_laws (H0 := R_NumberOrder) R_sin env
           query limit threshold w).
Qed.

(** ** [search]: stored embeddings that do not parse or do not fit *)

Section StoredEmbeddings.
Variable num : Type.
Context `{Number num}.
Variable Math_sin : num -> num.
Variable env : Env num.

Lemma In_score_rows (queryEmbedding : list num) (rows : list (JoinedRow num)) (s : Scored num) :
  In s (score_rows queryEmbedding rows) <->
  exists row emb,
    In row rows /\ JSON_parse (row_embedding row) = Some emb /\
    s = {| chunk := row_chunk row;
           relevanceScore := cosineSimilarity (VArray queryEmbedding) emb |}.
Proof.
  induction rows as [|row rows IH]; simpl.
  - split; [tauto|]. intros (? & ? & [] & _).
  - destruct (JSON_parse (row_embedding row)) as [emb|] eqn:Hparse; simpl; rewrite IH.
    + split.
      * intros [<-|(row' & emb' & Hin & Hp & Hs)].
        -- exists row, emb. auto.
        -- exists row', emb'. auto.
      * intros (row' & emb' & [<-|Hin] & Hp & Hs).
        -- left. rewrite Hparse in Hp. inversion Hp; subst. reflexivity.
        -- right. exists row', emb'. auto.
    + split.
      * intros (row' & emb' & Hin & Hp & Hs). exists row', emb'. auto.
      * intros (row' & emb' & [<-|Hin] & Hp & Hs).
        -- rewrite Hparse in Hp. discriminate.
        -- exists row', emb'. auto.
Qed.

Lemma cosineSimilarity_mismatch (queryEmbedding : list num) (emb : jsval num) :
  dimension_mismatch queryEmbedding emb ->
  cosineSimilarity (VArray queryEmbedding) emb = nzero.
Proof.
  destruct emb as [v|]; simpl; [|reflexivity].
  intros Hne. destruct (length queryEmbedding =? length v) eqn:Heq; [|reflexivity].
  apply Nat.eqb_eq in Heq. congruence.
Qed.

(** The scoring loop passes over the rows that do not parse and scores all
    the others, in their order. *)
Lemma score_rows_parsed (queryEmbedding : list num) (rows : list (JoinedRow num)) :
  score_rows queryEmbedding rows = map (score_of queryEmbedding) (parsed_rows rows).
Proof.
  unfold parsed_rows. induction rows as [|row rows IH]; cbn [score_rows flat_map]; [reflexivity|].
  destruct (JSON_parse (row_embedding row)) as [emb|]; cbn [app map]; rewrite IH; reflexivity.
Qed.

Lemma length_score_rows (queryEmbedding : list num) (rows : list (JoinedRow num)) :
  length (score_rows queryEmbedding rows) <= length rows.
Proof.
  induction rows as [|row rows IH]; cbn [score_rows length]; [lia|].
  destruct (JSON_parse (row_embedding row)); cbn [length]; lia.
Qed.

(** A limit that is at least the number of rows cuts nothing off. *)
Lemma rank_complete (rows : list (Scored num)) (limit : Z) (threshold : num) (s : Scored num) :
  (Z.of_nat (length rows) <= limit)%Z ->
  In s rows -> nge (relevanceScore s) threshold = true ->
  In {| scored := s; citation := generateCitation s |} (rank rows limit threshold).
Proof.
  intros Hlimit Hin Hge. unfold rank.
  apply (in_map (fun r => {| scored := r; citation := generateCitation r |})).
  unfold slice_to.
  assert (Hl : (limit <? 0)%Z = false) by (apply Z.ltb_ge; lia). rewrite Hl.
  rewrite firstn_all2.
  - apply In_sort_by. apply filter_In. split; assumption.
  - rewrite length_sort_by.
    pose proof (filter_length_le (fun r => nge (relevanceScore r) threshold) rows). lia.
Qed.

(** C4, amended.  With [queryEmbedding] the vector [generateEmbedding] gives
    for the query, [search] never fails and every record it returns was
    scored from a joined row whose embedding parses.  When the read of the
    store succeeds, the result is the ranking of the rows that parse, all of
    them and in their order: a row that does not parse is passed over and
    the rows behind it are scored.  A row whose parsed value is no array of
    the query's dimensionality is scored 0: if it is returned then 0 meets
    the threshold, and if 0 meets the threshold it is returned, as is every
    row whose score meets the threshold, when the limit is at least the
    number of rows. *)
Theorem search_stored_embeddings query limit threshold (w : World num) :
  exists queryEmbedding w1 results w',
    generateEmbedding Math_sin env query w = (Ok queryEmbedding, w1) /\
    search Math_sin env query limit threshold w = (Ok results, w') /\
    (forall r, In r results ->
      exists row emb,
        In row (select_chunks_with_embeddings (store w)) /\
        JSON_parse (row_embedding row) = Some emb /\
        chunk (scored r) = row_chunk row /\
        relevanceScore (scored r) = cosineSimilarity (VArray queryEmbedding) emb /\
        nge (relevanceScore (scored r)) threshold = true /\
        (dimension_mismatch queryEmbedding emb ->
         relevanceScore (scored r) = nzero /\ nge nzero threshold = true)) /\
    (db_fails env (steps w1) = false ->
     results = rank (map (score_of queryEmbedding)
                         (parsed_rows (select_chunks_with_embeddings (store w))))
                    limit threshold /\
     ((Z.of_nat (length (select_chunks_with_embeddings (store w))) <= limit)%Z ->
      forall row emb,
        In row (select_chunks_with_embeddings (store w)) ->
        JSON_parse (row_embedding row) = Some emb ->
        (nge (cosineSimilarity (VArray queryEmbedding) emb) threshold = true ->
         exists r,
           In r results /\ chunk (scored r) = row_chunk row /\
           relevanceScore (scored r) = cosineSimilarity (VArray queryEmbedding) emb) /\
        (dimension_mismatch queryEmbedding emb -> nge nzero threshold = true ->
         exists r,
           In r results /\ chunk (scored r) = row_chunk row /\
           relevanceScore (scored r) = nzero))).
Proof.
  destruct (generateEmbedding_returns Math_sin env query w) as (qe & w1 & Hgen & Hstore & _).
  exists qe, w1. unfold search, try_catch, bind. rewrite Hgen.
  unfold db_all. destruct (db_fails env (steps w1)).
  - exists [], (tick w1). split; [reflexivity|]. split; [reflexivity|].
    split; [intros r []|discriminate].
  - eexists _, (tick w1). split; [reflexivity|]. split; [reflexivity|].
    rewrite Hstore. split.
    + intros r Hin. apply In_rank in Hin. destruct Hin as (Hin & Hge & _).
      apply In_score_rows in Hin. destruct Hin as (row & emb & Hrow & Hparse & Heq).
      exists row, emb. rewrite Heq in *. cbn [chunk relevanceScore] in *.
      repeat split; try assumption.
      * rewrite cosineSimilarity_mismatch by assumption. reflexivity.
      * rewrite cosineSimilarity_mismatch in Hge by assumption. exact Hge.
    + intros _. split; [rewrite score_rows_parsed; reflexivity|].
      intros Hlimit row emb Hrow Hparse.
      assert (Hret : nge (cosineSimilarity (VArray qe) emb) threshold = true ->
                     exists r,
                       In r (rank (score_rows qe (select_chunks_with_embeddings (store w)))
                                  limit threshold) /\
                       chunk (scored r) = row_chunk row /\
                       relevanceScore (scored r) = cosineSimilarity (VArray qe) emb).
      { intros Hge.
        exists {| scored := {| chunk := row_chunk row;
                               relevanceScore := cosineSimilarity (VArray qe) emb |};
                  citation := generateCitation
                                {| chunk := row_chunk row;
                                   relevanceScore := cosineSimilarity (VArray qe) emb |} |}.
        split; [|split; reflexivity].
        apply rank_complete; [|apply In_score_rows; exists row, emb; auto|exact Hge].
        pose proof (length_score_rows qe (select_chunks_with_embeddings (store w))). lia. }
      split; [exact Hret|].
      intros Hmis Hzero. rewrite <- (cosineSimilarity_mismatch qe emb Hmis).
      apply Hret. rewrite cosineSimilarity_mismatch by exact Hmis. exact Hzero.
Qed.

Lemma length_pseudo_embedding (text : jsstring) :
  length (pseudo_embedding Math_sin text) = 256.
Proof.
  unfold pseudo_embedding. rewrite length_map, length_seq. reflexivity.
Qed.

End StoredEmbeddings.

Section MismatchedRun.
Local Open Scope R_scope.

Lemma score_two_chunks_offline (query : jsstring) :
  score_rows (pseudo_embedding R_sin query) (select_chunks_with_embeddings two_chunks) =
    [{| chunk := sample_row "a" "first note"; relevanceScore := 0 |};
     {| chunk := sample_row "b" "second note"; relevanceScore := 0 |}].
Proof.
  rewrite select_two_chunks. cbn [score_rows JSON_parse row_embedding row_chunk].
  rewrite (cosineSimilarity_mismatch (pseudo_embedding R_sin query) (VArray [1])).
  - reflexivity.
  - unfold dimension_mismatch. rewrite length_pseudo_embedding. discriminate.
Qed.

Lemma search_two_chunks_offline :
  search R_sin env_offline (str "note") 5 nzero (world_of two_chunks) =
    (Ok (map (fun r => {| scored := r; citation := generateCitation r |})
             [{| chunk := sample_row "a" "first note"; relevanceScore := 0 |};
              {| chunk := sample_row "b" "second note"; relevanceScore := 0 |}]),
     tick (world_of two_chunks)).
Proof.
  rewrite (search_without_key R_sin env_offline (str "note") 5 nzero
             (world_of two_chunks) eq_refl eq_refl).
  cbn [store world_of]. rewrite score_two_chunks_offline. unfold rank.
  cbn [filter relevanceScore].
  rewrite (R_nge_true (x := 0) (y := nzero)) by (unfold nzero; simpl; lra).
  cbn [sort_by fold_right insert_by relevanceScore].
  rewrite R_ngt_false by (unfold nsub, nzero, nofZ; simpl; lra).
  reflexivity.
Qed.

(** C4 as stated, with the threshold of the scenario "ingest then search":
    the stored embeddings have one component and the query embedding 256,
    and both chunks are returned, with score 0. *)
Lemma search_returns_mismatched_rows :
  exists r1 r2 w',
    search R_sin env_offline (str "note") 5 nzero (world_of two_chunks)
      = (Ok [r1; r2], w') /\
    length (pseudo_embedding R_sin (str "note")) = 256%nat /\
    map (@e_content_embedding R) (embeddings two_chunks) = [JsonArray [1]; JsonArray [1]] /\
    relevanceScore (scored r1) = 0 /\ relevanceScore (scored r2) = 0.
Proof.
  eexists _, _, _. split.
  - rewrite search_two_chunks_offline. reflexivity.
  - split; [apply length_pseudo_embedding|].
    split; [reflexivity|]. split; reflexivity.
Qed.

Lemma select_three_chunks :
  select_chunks_with_embeddings three_chunks =
    [{| row_chunk := sample_row "a" "first note"; row_embedding := JsonMalformed |};
     {| row_chunk := sample_row "b" "second note"; row_embedding := JsonArray [1; 1] |};
     {| row_chunk := sample_row "c" "third note"; row_embedding := JsonArray [1] |}].
Proof. reflexivity. Qed.

Lemma search_stored_embeddings_witness :
  exists results w',
    search R_sin env_unit (str "note") 5 nzero (world_of three_chunks) = (Ok results, w') /\
    map (@e_content_embedding R) (embeddings three_chunks) =
      [JsonMalformed; JsonArray [1; 1]; JsonArray [1]] /\
    (exists r, In r results /\ chunk (scored r) = sample_row "b" "second note" /\
               relevanceScore (scored r) = 0) /\
    (exists r, In r results /\ chunk (scored r) = sample_row "c" "third note" /\
               relevanceScore (scored r) = 1) /\
    (forall r, In r results -> chunk (scored r) <> sample_row "a" "first note").
Proof.
  destruct (@search_stored_embeddings R _ R_sin env_unit (str "note") 5 nzero
              (world_of three_chunks))
    as (qe & w1 & results & w' & Hgen & Hs & Hsound & Hread).
  assert (Hqe : qe = [1] /\ w1 = tick (world_of three_chunks)).
  { unfold generateEmbedding, try_catch, openai_embeddings_create in Hgen.
    cbn [OPENAI_API_KEY env_unit negb embeddings_create] in Hgen.
    inversion Hgen. split; reflexivity. }
  destruct Hqe as [-> ->].
  destruct (Hread eq_refl) as [_ Hcomplete].
  cbn [store world_of] in Hcomplete, Hsound. rewrite select_three_chunks in Hcomplete, Hsound.
  specialize (Hcomplete ltac:(cbn; lia)).
  exists results, w'. split; [exact Hs|]. split; [reflexivity|]. split; [|split].
  - destruct (Hcomplete {| row_chunk := sample_row "b" "second note";
                           row_embedding := JsonArray [1; 1] |} (VArray [1; 1])
                ltac:(right; left; reflexivity) eq_refl) as [_ Hmis].
    apply Hmis; [cbn; discriminate|]. apply R_nge_true. unfold nzero. cbn. lra.
  - destruct (Hcomplete {| row_chunk := sample_row "c" "third note";
                           row_embedding := JsonArray [1] |} (VArray [1])
                ltac:(right; right; left; reflexivity) eq_refl) as [Hfit _].
    rewrite (@cosineSimilarity_R_self [1]) in Hfit by (apply Exists_cons_hd; lra).
    apply Hfit. apply R_nge_true. unfold nzero. cbn. lra.
  - intros r Hin. destruct (Hsound r Hin) as (row & emb & Hrow & Hparse & Hchunk & _).
    rewrite Hchunk.
    destruct Hrow as [<-|[<-|[<-|[]]]]; cbn [row_embedding JSON_parse row_chunk] in *;
      [discriminate| |]; intros Heq; apply (f_equal dc_document_id) in Heq;
      vm_compute in Heq; discriminate.
Defined.

End MismatchedRun.

(** ** Fail-soft retrieval *)

Section FailSoft.
Variable num : Type.
Context `{Number num}.
Variable Math_sin : num -> num.
Variable env : Env num.

Lemma generateEmbedding_provider_down (text : jsstring) (w : World num) :
  (forall n input, embeddings_create env n input = None) ->
  exists w',
    generateEmbedding Math_sin env text w = (Ok (pseudo_embedding Math_sin text), w') /\
    store w' = store w /\ steps w' = read_step env w.
Proof.
  intros Hdown.
  unfold generateEmbedding, try_catch, openai_embeddings_create, read_step, after_embedding.
  destruct (OPENAI_API_KEY env); cbn [negb].
  - rewrite Hdown. exists (tick w). repeat split.
  - exists w. repeat split.
Qed.

Lemma search_provider_down query limit threshold (w : World num) :
  (forall n input, embeddings_create env n input = None) ->
  exists w',
    search Math_sin env query limit threshold w =
      (Ok (if db_fails env (read_step env w) then []
           else rank (score_rows (pseudo_embedding Math_sin query)
                                 (select_chunks_with_embeddings (store w)))
                     limit threshold), w').
Proof.
  intros Hdown.
  destruct (generateEmbedding_provider_down query w Hdown) as (w1 & Hgen & Hstore & Hsteps).
  unfold search, try_catch, bind. rewrite Hgen. unfold db_all.
  rewrite Hsteps, Hstore.
  destruct (db_fails env (read_step env w)); eexists; reflexivity.
Qed.

(** C2, amended: [search] and [getContext] never throw.  When the provider
    call throws at every invocation they work on the deterministic vector of
    the query: their results are those of the ranked store, and are empty
    ([[]], and the context with no text, no citation and a token count of 0)
    when reading the store fails. *)
Theorem retrieval_fails_soft query limit threshold maxTokens (w : World num) :
  exists results c w' w'',
    search Math_sin env query limit threshold w = (Ok results, w') /\
    getContext Math_sin env query maxTokens w = (Ok c, w'') /\
    ((forall n input, embeddings_create env n input = None) ->
     let ranked k t :=
       rank (score_rows (pseudo_embedding Math_sin query)
                        (select_chunks_with_embeddings (store w))) k t in
     if db_fails env (read_step env w)
     then results = [] /\ c = empty_context num
     else results = ranked limit threshold /\
          c = accumulate (ranked 10%Z default_threshold) maxTokens (empty_context num)).
Proof.
  destruct (search_returns Math_sin env query limit threshold w)
    as (results & w' & Hs & _).
  destruct (getContext_returns Math_sin env query maxTokens w)
    as (results10 & w'' & Hs10 & Hg & _).
  exists results, (accumulate results10 maxTokens (empty_context num)), w', w''.
  split; [exact Hs|]. split; [exact Hg|].
  intros Hdown ranked.
  destruct (search_provider_down query limit threshold w Hdown) as (v' & Hs').
  destruct (search_provider_down query 10 default_threshold w Hdown) as (v'' & Hs10').
  rewrite Hs in Hs'. rewrite Hs10 in Hs10'.
  inversion Hs' as [[Hr Hw]]. inversion Hs10' as [[Hr10 Hw10]].
  destruct (db_fails env (read_step env w)); split; reflexivity.
Qed.

End FailSoft.

(** ** Sample run: retrieval while the provider is down *)

Section ProviderDownRun.
Local Open Scope R_scope.

Lemma sin_next_not_minus_one (a : R) : sin a = -1 -> sin (a + 1) <> -1.
Proof.
  intros Ha Hb.
  pose proof (sin2_cos2 a) as Hsc. unfold Rsqr in Hsc. rewrite Ha in Hsc.
  assert (Hcos : cos a = 0).
  { assert (Hz : cos a * cos a = 0) by lra.
    apply Rmult_integral in Hz. tauto. }
  rewrite sin_plus, Ha, Hcos in Hb.
  assert (Hc1 : cos 1 = 1) by lra.
  pose proof (sin2_cos2 1) as Hsc1. unfold Rsqr in Hsc1. rewrite Hc1 in Hsc1.
  assert (Hs1 : sin 1 = 0).
  { assert (Hz : sin 1 * sin 1 = 0) by lra.
    apply Rmult_integral in Hz. tauto. }
  pose proof PI2_1 as Hpi.
  pose proof (sin_gt_0 1 ltac:(lra) ltac:(lra)). lra.
Qed.

(** The deterministic vector of a one-character text is not the zero
    vector: its first two components are not both 0. *)
Lemma pseudo_embedding_nonzero (c : ascii) :
  Exists (fun x => x <> 0) (pseudo_embedding R_sin [c]).
Proof.
  unfold pseudo_embedding.
  change (seq 0 256) with (0%nat :: 1%nat :: seq 2 254).
  cbn [map length].
  change (0 mod 1)%nat with 0%nat. change (1 mod 1)%nat with 0%nat. cbn [nth].
  set (n := nat_of_ascii c).
  unfold R_sin, n_one, nofZ, nadd, ndiv. cbn [R_Number].
  destruct (Req_dec_T (sin (IZR (Z.of_nat (n + 0)))) (-1)) as [Heq|Hne].
  - apply Exists_cons_tl, Exists_cons_hd.
    apply sin_next_not_minus_one in Heq.
    replace (IZR (Z.of_nat (n + 1))) with (IZR (Z.of_nat (n + 0)) + 1).
    + lra.
    + rewrite <- plus_IZR. f_equal. lia.
  - apply Exists_cons_hd. lra.
Qed.

Lemma cosineSimilarity_pseudo_self (c : ascii) :
  cosineSimilarity (VArray (pseudo_embedding R_sin [c])) (VArray (pseudo_embedding R_sin [c])) = 1.
Proof. apply cosineSimilarity_R_self, pseudo_embedding_nonzero. Qed.

Lemma addDocument_doc_x :
  addDocument R_sin env_provider_down doc_x (world_of empty_store) =
    (Ok {| success := true; chunksCreated := 1 |}, world_x).
Proof. reflexivity. Qed.

Lemma search_world_x (limit : Z) :
  search R_sin env_provider_down (str "x") limit default_threshold world_x =
    (Ok (map (fun r => {| scored := r; citation := generateCitation r |})
             (slice_to [{| chunk := {| dc_id := str "d_chunk_0"; dc_document_id := str "d";
                                       dc_document_title := str "Notes"; dc_chunk_text := str "x";
                                       dc_chunk_index := 0; dc_document_type := str "note";
                                       dc_source_file := None; dc_created_at := 1 |};
                           relevanceScore := 1 |}] limit)),
     tick (tick world_x)).
Proof.
  rewrite (search_fallback R_sin env_provider_down (str "x") limit default_threshold
             world_x eq_refl eq_refl eq_refl).
  f_equal. f_equal.
  change (select_chunks_with_embeddings (store world_x)) with
    [{| row_chunk := {| dc_id := str "d_chunk_0"; dc_document_id := str "d";
                        dc_document_title := str "Notes"; dc_chunk_text := str "x";
                        dc_chunk_index := 0; dc_document_type := str "note";
                        dc_source_file := None; dc_created_at := 1 |};
        row_embedding := JsonArray (pseudo_embedding R_sin (str "x")) |}].
  cbn [score_rows JSON_parse row_embedding row_chunk].
  change (str "x") with ["x"%char].
  rewrite cosineSimilarity_pseudo_self. unfold rank.
  cbn [filter relevanceScore]. rewrite default_threshold_R.
  rewrite (R_nge_true (x := 1) (y := 7 / 10)) by lra.
  reflexivity.
Qed.

(** C2 as stated, with a provider that throws at every invocation: a
    document ingested in that state is found by [search], and [getContext]
    returns it with one citation and a token count of 1. *)
Lemma retrieval_with_provider_down :
  (forall n input, embeddings_create env_provider_down n input = None) /\
  exists w1 r w2 c w3,
    addDocument R_sin env_provider_down doc_x (world_of empty_store) =
      (Ok {| success := true; chunksCreated := 1 |}, w1) /\
    search R_sin env_provider_down (str "x") 5 default_threshold w1 = (Ok [r], w2) /\
    getContext R_sin env_provider_down (str "x") 4000 w1 = (Ok c, w3) /\
    length (citations c) = 1%nat /\ tokenCount c = 1%Z.
Proof.
  split; [reflexivity|].
  eexists _, _, _, _, _. split; [exact addDocument_doc_x|]. split; [|split; [|split]].
  - rewrite search_world_x. reflexivity.
  - unfold getContext, bind. rewrite search_world_x. reflexivity.
  - reflexivity.
  - reflexivity.
Qed.

End ProviderDownRun.

Lemma retrieval_fails_soft_witness :
  exists results c w' w'',
    search R_sin env_provider_down (str "x") 5 default_threshold world_x = (Ok results, w') /\
    getContext R_sin env_provider_down (str "x") 4000 world_x = (Ok c, w'') /\
    results = rank (score_rows (pseudo_embedding R_sin (str "x"))
                               (select_chunks_with_embeddings (store world_x)))
                   5 default_threshold /\
    c = accumulate (rank (score_rows (pseudo_embedding R_sin (str "x"))
                                     (select_chunks_with_embeddings (store world_x)))
                         10 default_threshold)
                   4000 (empty_context R).
Proof.
  destruct (retrieval_fails_soft R_sin env_provider_down (str "x") 5 default_threshold
              4000 world_x) as (results & c & w' & w'' & Hs & Hg & Hdown).
  exists results, c, w', w''. split; [exact Hs|]. split; [exact Hg|].
  exact (Hdown (fun _ _ => eq_refl)).
Defined.

(** ** Keys and [INSERT OR REPLACE] *)

Lemma jsstring_eqb_eq (s t : jsstring) : jsstring_eqb s t = true <-> s = t.
Proof.
  revert t. induction s as [|c s IH]; intros [|d t]; simpl; try (split; congruence).
  rewrite andb_true_iff, Ascii.eqb_eq, IH. split; [intros [-> ->]; reflexivity|].
  intros Heq. inversion Heq. auto.
Qed.

Lemma jsstring_eqb_refl (s : jsstring) : jsstring_eqb s s = true.
Proof. apply jsstring_eqb_eq. reflexivity. Qed.

Lemma jsstring_eqb_neq (s t : jsstring) : s <> t -> jsstring_eqb s t = false.
Proof.
  intros Hne. destruct (jsstring_eqb s t) eqn:Heq; [|reflexivity].
  apply jsstring_eqb_eq in Heq. contradiction.
Qed.

Lemma existsb_jsstring_eqb (k : jsstring) (keys : list jsstring) :
  existsb (jsstring_eqb k) keys = true <-> In k keys.
Proof.
  rewrite existsb_exists. split.
  - intros (x & Hin & Heq). apply jsstring_eqb_eq in Heq. subst. exact Hin.
  - intros Hin. exists k. split; [exact Hin|apply jsstring_eqb_refl].
Qed.

Lemma decimal_inj (n m : nat) : decimal n = decimal m -> n = m.
Proof.
  unfold decimal, str. intros Heq.
  apply (f_equal String.string_of_list_ascii) in Heq.
  rewrite !String.string_of_list_ascii_of_string in Heq.
  apply (f_equal DecimalString.NilEmpty.uint_of_string) in Heq.
  rewrite !DecimalString.NilEmpty.usu in Heq.
  inversion Heq as [Hu]. apply DecimalNat.Unsigned.to_uint_inj. exact Hu.
Qed.

Section Upsert.
Context {R : Type}.
Variable key : R -> jsstring.

Lemma without_keys_nil (table : list R) : without_keys key [] table = table.
Proof.
  unfold without_keys. induction table as [|r table IH]; [reflexivity|].
  cbn in *. f_equal. exact IH.
Qed.

Lemma without_keys_app (keys : list jsstring) (t1 t2 : list R) :
  without_keys key keys (t1 ++ t2) = without_keys key keys t1 ++ without_keys key keys t2.
Proof. unfold without_keys. apply filter_app. Qed.

Lemma without_keys_cons (k : jsstring) (keys : list jsstring) (table : list R) :
  without_keys key keys (filter (fun r => negb (jsstring_eqb (key r) k)) table) =
  without_keys key (k :: keys) table.
Proof.
  unfold without_keys. induction table as [|r table IH]; simpl; [reflexivity|].
  destruct (jsstring_eqb (key r) k); simpl; rewrite IH; reflexivity.
Qed.

(** Rows whose keys are all among [keys] are all dropped. *)
Lemma without_keys_all (keys : list jsstring) (rows : list R) :
  (forall r, In r rows -> In (key r) keys) -> without_keys key keys rows = [].
Proof.
  unfold without_keys. induction rows as [|r rows IH]; intros Hall; simpl; [reflexivity|].
  assert (Hr : existsb (jsstring_eqb (key r)) keys = true)
    by (apply existsb_jsstring_eqb, Hall; left; reflexivity).
  rewrite Hr. simpl. apply IH. intros r' Hin. apply Hall. right. exact Hin.
Qed.

Lemma without_keys_idem (keys : list jsstring) (table : list R) :
  without_keys key keys (without_keys key keys table) = without_keys key keys table.
Proof.
  unfold without_keys. induction table as [|r table IH]; simpl; [reflexivity|].
  destruct (negb (existsb (jsstring_eqb (key r)) keys)) eqn:Hk; simpl; [rewrite Hk, IH|];
    auto.
Qed.

(** Upserting rows of distinct keys one after the other drops the rows that
    held these keys and appends the new rows in their order. *)
Lemma fold_upsert (rows : list R) : forall table,
  NoDup (map key rows) ->
  fold_left (fun t r => upsert key r t) rows table =
    without_keys key (map key rows) table ++ rows.
Proof.
  induction rows as [|r rows IH]; intros table Hnd; simpl.
  - rewrite without_keys_nil, app_nil_r. reflexivity.
  - inversion Hnd as [|? ? Hnotin Hnd']; subst.
    rewrite IH by assumption. unfold upsert.
    rewrite without_keys_app, without_keys_cons.
    assert (Hr : without_keys key (map key rows) [r] = [r]).
    { unfold without_keys. simpl.
      destruct (existsb (jsstring_eqb (key r)) (map key rows)) eqn:Hex; [|reflexivity].
      apply existsb_jsstring_eqb in Hex. contradiction. }
    rewrite Hr, <- app_assoc. reflexivity.
Qed.

End Upsert.

(** ** The ordinals and the ids of the chunks *)

Lemma chunk_loop_index_ge (fuel : nat) (words : list jsstring) (size step : nat) :
  0 < step -> forall i c,
  In c (chunk_loop fuel words size step i) -> i / step <= index c.
Proof.
  intros Hstep. induction fuel as [|fuel IH]; intros i c Hin; simpl in Hin; [contradiction|].
  destruct (i <? length words); [|contradiction].
  apply in_app_or in Hin. destruct Hin as [Hin|Hin].
  - destruct (trim (join [" "%char] (slice words i (i + size)))); [contradiction|].
    destruct Hin as [<-|[]]. simpl. lia.
  - apply IH in Hin.
    assert (Hdiv : (i + step) / step = i / step + 1).
    { replace (i + step) with (i + 1 * step) by lia. apply Nat.div_add. lia. }
    lia.
Qed.

Lemma chunk_loop_index_NoDup (fuel : nat) (words : list jsstring) (size step : nat) :
  0 < step -> forall i, NoDup (map index (chunk_loop fuel words size step i)).
Proof.
  intros Hstep. induction fuel as [|fuel IH]; intros i; simpl; [constructor|].
  destruct (i <? length words); [|constructor].
  rewrite map_app.
  assert (Htail : forall c, In c (chunk_loop fuel words size step (i + step)) ->
                            i / step < index c).
  { intros c Hin. apply chunk_loop_index_ge in Hin; [|exact Hstep].
    assert (Hdiv : (i + step) / step = i / step + 1).
    { replace (i + step) with (i + 1 * step) by lia. apply Nat.div_add. lia. }
    lia. }
  destruct (trim (join [" "%char] (slice words i (i + size)))); simpl; [apply IH|].
  constructor; [|apply IH].
  intros Hin. apply in_map_iff in Hin. destruct Hin as (c & Heq & Hin).
  apply Htail in Hin. lia.
Qed.

Lemma chunkText_index_NoDup (content : jsstring) : NoDup (map index (chunkText content)).
Proof.
  unfold chunkText, chunkText_with. apply chunk_loop_index_NoDup. lia.
Qed.

Lemma chunk_id_inj (doc_id : jsstring) (c c' : Chunk) :
  chunk_id doc_id c = chunk_id doc_id c' -> index c = index c'.
Proof.
  unfold chunk_id. intros Heq. apply app_inv_head in Heq. apply app_inv_head in Heq.
  apply decimal_inj. exact Heq.
Qed.

Lemma chunk_id_NoDup (doc_id : jsstring) (chunks : list Chunk) :
  NoDup (map index chunks) -> NoDup (map (chunk_id doc_id) chunks).
Proof.
  induction chunks as [|c chunks IH]; intros Hnd; simpl; [constructor|].
  inversion Hnd as [|? ? Hnotin Hnd']; subst.
  constructor; [|apply IH; exact Hnd'].
  intros Hin. apply in_map_iff in Hin. destruct Hin as (c' & Heq & Hin).
  apply chunk_id_inj in Heq. apply Hnotin. rewrite <- Heq. apply in_map. exact Hin.
Qed.

(** ** Runs of [addDocument] that meet no database failure *)

Section Ingestion.
Variable num : Type.
Context `{Number num}.
Variable Math_sin : num -> num.
Variable env : Env num.
Hypothesis db_sound : forall n, db_fails env n = false.

Lemma generateEmbedding_at (text : jsstring) (w : World num) :
  generateEmbedding Math_sin env text w =
    (Ok (embedding_at Math_sin env (steps w) text),
     {| store := store w; steps := after_embedding env (steps w) |}).
Proof.
  unfold generateEmbedding, try_catch, openai_embeddings_create, embedding_at, after_embedding.
  destruct (OPENAI_API_KEY env); cbn [negb].
  - destruct (embeddings_create env (steps w) (slice text 0 max_input_length)); reflexivity.
  - destruct w; reflexivity.
Qed.

Lemma add_chunk_run (document : Document) (c : Chunk) (w : World num) :
  add_chunk Math_sin env document c w =
    (Ok tt,
     {| store := ingest_one document (store w)
                   {| ing_chunk := c;
                      ing_created_at := Date_now env (after_embedding env (steps w));
                      ing_embedding := embedding_at Math_sin env (steps w) (text c) |};
        steps := after_embedding env (steps w) + 3 |}).
Proof.
  unfold add_chunk, bind. rewrite generateEmbedding_at.
  unfold now, db_run, tick. cbn [steps store]. rewrite !db_sound.
  unfold ingest_one, chunk_row, embedding_row.
  cbn [steps store ing_chunk ing_created_at ing_embedding].
  f_equal. f_equal. lia.
Qed.

Lemma for_of_add_chunk (document : Document) (chunks : list Chunk) : forall w,
  exists n,
    for_of chunks (add_chunk Math_sin env document) w =
      (Ok tt,
       {| store := fold_left (ingest_one document)
                             (ingested_from Math_sin env (steps w) chunks) (store w);
          steps := n |}).
Proof.
  induction chunks as [|c chunks IH]; intros w; simpl.
  - exists (steps w). destruct w; reflexivity.
  - unfold bind. rewrite add_chunk_run.
    destruct (IH {| store := ingest_one document (store w)
                   {| ing_chunk := c;
                      ing_created_at := Date_now env (after_embedding env (steps w));
                      ing_embedding := embedding_at Math_sin env (steps w) (text c) |};
        steps := after_embedding env (steps w) + 3 |}) as [n Hn].
    exists n. rewrite Hn. reflexivity.
Qed.

Lemma fold_ingest_one (document : Document) (l : list (Ingested num)) : forall s,
  fold_left (ingest_one document) l s =
    {| document_chunks :=
         fold_left (fun t r => upsert dc_id r t) (map (chunk_row document) l)
                   (document_chunks s);
       embeddings :=
         fold_left (fun t r => upsert (@e_id num) r t) (map (embedding_row document) l)
                   (embeddings s) |}.
Proof.
  induction l as [|i l IH]; intros s; simpl; [destruct s; reflexivity|].
  rewrite IH. reflexivity.
Qed.

Lemma ing_chunk_ingested_from (chunks : list Chunk) : forall n,
  map (@ing_chunk num) (ingested_from Math_sin env n chunks) = chunks.
Proof.
  induction chunks as [|c chunks IH]; intros n; simpl; [reflexivity|].
  rewrite IH. reflexivity.
Qed.

Lemma dc_id_chunk_rows (document : Document) (l : list (Ingested num)) :
  map dc_id (map (chunk_row document) l) = map (chunk_id (id document)) (map (@ing_chunk num) l).
Proof. rewrite !map_map. reflexivity. Qed.

Lemma e_id_embedding_rows (document : Document) (l : list (Ingested num)) :
  map (@e_id num) (map (embedding_row document) l) =
  map (chunk_id (id document)) (map (@ing_chunk num) l).
Proof. rewrite !map_map. reflexivity. Qed.

(** The store after [addDocument]: the rows that held the ids of the chunks
    are gone and the rows of the chunks are appended, in ordinal order. *)
Lemma addDocument_run (document : Document) (w : World num) :
  let chunks := chunkText (content document) in
  let ids := map (chunk_id (id document)) chunks in
  let ing := ingested_from Math_sin env (steps w) chunks in
  exists n,
    addDocument Math_sin env document w =
      (Ok {| success := true; chunksCreated := length chunks |},
       {| store :=
            {| document_chunks :=
                 without_keys dc_id ids (document_chunks (store w))
                 ++ map (chunk_row document) ing;
               embeddings :=
                 without_keys (@e_id num) ids (embeddings (store w))
                 ++ map (embedding_row document) ing |};
          steps := n |}).
Proof.
  intros chunks ids ing.
  destruct (for_of_add_chunk document chunks w) as [n Hn].
  exists n. unfold addDocument, try_catch, bind. fold chunks. rewrite Hn.
  fold ing. rewrite fold_ingest_one.
  assert (Hids : NoDup ids)
    by (apply chunk_id_NoDup, chunkText_index_NoDup).
  rewrite !fold_upsert.
  - rewrite dc_id_chunk_rows, e_id_embedding_rows.
    unfold ing. rewrite ing_chunk_ingested_from. reflexivity.
  - rewrite e_id_embedding_rows. unfold ing. rewrite ing_chunk_ingested_from. exact Hids.
  - rewrite dc_id_chunk_rows. unfold ing. rewrite ing_chunk_ingested_from. exact Hids.
Qed.

End Ingestion.

(** ** An iteration of [addDocument], whatever the database does *)

Section AnyRun.
Variable num : Type.
Context `{Number num}.
Variable Math_sin : num -> num.
Variable env : Env num.

(** The three ways an iteration of the loop of [addDocument] ends: the
    write of the chunk throws, the write of the embedding throws, or both
    rows are written. *)
Lemma add_chunk_cases (document : Document) (c : Chunk) (w : World num) :
  let n := after_embedding env (steps w) in
  let i := {| ing_chunk := c;
              ing_created_at := Date_now env n;
              ing_embedding := embedding_at Math_sin env (steps w) (text c) |} in
  add_chunk Math_sin env document c w =
    if db_fails env (n + 1) then
      (Throw SqliteError, {| store := store w; steps := n + 2 |})
    else if db_fails env (n + 2) then
      (Throw SqliteError,
       {| store := insert_chunk (chunk_row document i) (store w); steps := n + 3 |})
    else (Ok tt, {| store := ingest_one document (store w) i; steps := n + 3 |}).
Proof.
  intros n i. unfold add_chunk, bind. rewrite generateEmbedding_at. fold n.
  unfold now, db_run, tick. cbn [steps store].
  replace (S n) with (n + 1) by lia.
  destruct (db_fails env (n + 1)).
  - unfold throw. f_equal. f_equal. lia.
  - cbn [steps store]. replace (S (n + 1)) with (n + 2) by lia.
    destruct (db_fails env (n + 2)); unfold throw, ingest_one, chunk_row, embedding_row;
      cbn [ing_chunk ing_created_at ing_embedding]; f_equal; f_equal; lia.
Qed.

Lemma for_of_invariant {A} (P : Store num -> Store num -> Prop)
    (body : A -> M num unit) (l : list A) :
  (forall s, P s s) ->
  (forall s1 s2 s3, P s1 s2 -> P s2 s3 -> P s1 s3) ->
  (forall x w, In x l -> P (store w) (store (snd (body x w)))) ->
  forall w, P (store w) (store (snd (for_of l body w))).
Proof.
  intros Hrefl Htrans. induction l as [|x l IH]; intros Hbody w; cbn [for_of].
  - apply Hrefl.
  - unfold bind. pose proof (Hbody x w (or_introl eq_refl)) as Hx.
    destruct (body x w) as [[u|e] w1]; cbn [snd] in *; [|exact Hx].
    apply Htrans with (store w1); [exact Hx|].
    apply IH. intros y w' Hy. apply Hbody. right. exact Hy.
Qed.

Lemma without_keys_member {R} (key : R -> jsstring) (k : jsstring) (keys : list jsstring)
    (table : list R) :
  In k keys -> without_keys key (k :: keys) table = without_keys key keys table.
Proof.
  intros Hk. unfold without_keys. apply filter_ext. intros r. cbn [existsb].
  destruct (jsstring_eqb (key r) k) eqn:Heq; [|reflexivity].
  apply jsstring_eqb_eq in Heq. rewrite Heq.
  rewrite (proj2 (existsb_jsstring_eqb k keys) Hk). reflexivity.
Qed.

(** [INSERT OR REPLACE] of a row leaves the rows of the other keys alone. *)
Lemma without_keys_upsert {R} (key : R -> jsstring) (row : R) (keys : list jsstring)
    (table : list R) :
  In (key row) keys ->
  without_keys key keys (upsert key row table) = without_keys key keys table.
Proof.
  intros Hk. unfold upsert. rewrite without_keys_app, without_keys_cons.
  rewrite without_keys_member by exact Hk.
  rewrite (without_keys_all key keys [row]); [apply app_nil_r|].
  intros r [<-|[]]. exact Hk.
Qed.

End AnyRun.

(** ** Rows by key *)

Lemma NoDup_app_disjoint {A} (l l' : list A) (x : A) :
  NoDup (l ++ l') -> In x l -> In x l' -> False.
Proof.
  induction l as [|y l IH]; intros Hnd Hl Hl'; [contradiction|].
  cbn [app] in Hnd. inversion Hnd as [|? ? Hnotin Hnd']; subst.
  destruct Hl as [->|Hl].
  - apply Hnotin. apply in_or_app. right. exact Hl'.
  - exact (IH Hnd' Hl Hl').
Qed.

Section RowsOf.
Context {R : Type}.
Variable key : R -> jsstring.

Lemma rows_of_app (k : jsstring) (t1 t2 : list R) :
  rows_of key k (t1 ++ t2) = rows_of key k t1 ++ rows_of key k t2.
Proof. unfold rows_of. apply filter_app. Qed.

Lemma rows_of_none (k : jsstring) (rows : list R) :
  (forall r, In r rows -> key r <> k) -> rows_of key k rows = [].
Proof.
  unfold rows_of. induction rows as [|r rows IH]; intros Hall; cbn [filter]; [reflexivity|].
  rewrite jsstring_eqb_neq by (apply Hall; left; reflexivity).
  apply IH. intros r' Hin. apply Hall. right. exact Hin.
Qed.

Lemma rows_of_without_keys (k : jsstring) (keys : list jsstring) (table : list R) :
  ~ In k keys -> rows_of key k (without_keys key keys table) = rows_of key k table.
Proof.
  intros Hk. unfold rows_of, without_keys.
  induction table as [|r table IH]; cbn [filter]; [reflexivity|].
  destruct (jsstring_eqb (key r) k) eqn:Heq.
  - apply jsstring_eqb_eq in Heq.
    assert (Hex : existsb (jsstring_eqb (key r)) keys = false).
    { destruct (existsb (jsstring_eqb (key r)) keys) eqn:Hex; [|reflexivity].
      apply existsb_jsstring_eqb in Hex. rewrite Heq in Hex. contradiction. }
    rewrite Hex. cbn [negb filter]. rewrite Heq, jsstring_eqb_refl. f_equal. exact IH.
  - destruct (negb (existsb (jsstring_eqb (key r)) keys)); cbn [filter]; rewrite ?Heq; exact IH.
Qed.

Lemma rows_of_upsert_other (k : jsstring) (row : R) (table : list R) :
  key row <> k -> rows_of key k (upsert key row table) = rows_of key k table.
Proof.
  intros Hne. unfold upsert. rewrite rows_of_app.
  rewrite (@rows_of_none k [row]) by (intros r [<-|[]]; exact Hne).
  rewrite app_nil_r.
  pose proof (@rows_of_without_keys k [key row] table) as Hw.
  unfold without_keys in Hw. cbn [existsb] in Hw.
  rewrite <- Hw by (intros [Heq|[]]; contradiction).
  f_equal. apply filter_ext. intros r. rewrite orb_false_r. reflexivity.
Qed.

Lemma In_upsert_other (row r : R) (table : list R) :
  key r <> key row -> In r table -> In r (upsert key row table).
Proof.
  intros Hne Hin. unfold upsert. apply in_or_app. left. apply filter_In.
  split; [exact Hin|]. rewrite jsstring_eqb_neq by exact Hne. reflexivity.
Qed.

End RowsOf.

(** ** Runs of [addDocument] up to a database failure *)

Section Interrupted.
Variable num : Type.
Context `{Number num}.
Variable Math_sin : num -> num.
Variable env : Env num.

Lemma after_embedding_ge (n : nat) : n <= after_embedding env n.
Proof. unfold after_embedding. destruct (OPENAI_API_KEY env); lia. Qed.

Lemma steps_after_ge (chunks : list Chunk) : forall n, n <= steps_after env n chunks.
Proof.
  induction chunks as [|c chunks IH]; intros n; cbn [steps_after]; [lia|].
  pose proof (IH (after_embedding env n + 3)). pose proof (after_embedding_ge n). lia.
Qed.

Lemma for_of_app {A} (l l' : list A) (body : A -> M num unit) (w : World num) :
  for_of (l ++ l') body w = bind (for_of l body) (fun _ => for_of l' body) w.
Proof.
  revert w. induction l as [|x l IH]; intros w; cbn [app for_of].
  - reflexivity.
  - unfold bind. destruct (body x w) as [[u|e] w1]; [|reflexivity].
    rewrite IH. reflexivity.
Qed.

(** The iterations that meet no database failure. *)
Lemma for_of_add_chunk_until (document : Document) (done : list Chunk) : forall w,
  (forall k, steps w <= k < steps_after env (steps w) done -> db_fails env k = false) ->
  for_of done (add_chunk Math_sin env document) w =
    (Ok tt,
     {| store := fold_left (ingest_one document)
                           (ingested_from Math_sin env (steps w) done) (store w);
        steps := steps_after env (steps w) done |}).
Proof.
  induction done as [|c done IH]; intros w Hdb;
    cbn [for_of steps_after ingested_from fold_left].
  - destruct w; reflexivity.
  - unfold bind. rewrite add_chunk_cases.
    pose proof (after_embedding_ge (steps w)) as Hge.
    pose proof (steps_after_ge done (after_embedding env (steps w) + 3)) as Hafter.
    cbn [steps_after] in Hdb.
    rewrite (Hdb (after_embedding env (steps w) + 1)) by lia.
    rewrite (Hdb (after_embedding env (steps w) + 2)) by lia.
    rewrite IH; [reflexivity|].
    intros k Hk. cbn [steps] in Hk. apply Hdb. lia.
Qed.

(** A run of [addDocument] whose iterations for [done] meet no database
    failure, and whose next iteration, if there is one, meets one. *)
Lemma addDocument_until (document : Document) (w : World num) (done rest : list Chunk) :
  chunkText (content document) = done ++ rest ->
  (forall k, steps w <= k < steps_after env (steps w) done -> db_fails env k = false) ->
  (rest <> [] ->
   db_fails env (after_embedding env (steps_after env (steps w) done) + 1)
   || db_fails env (after_embedding env (steps_after env (steps w) done) + 2) = true) ->
  exists n,
    addDocument Math_sin env document w =
      (match rest with
       | [] => Ok {| success := true; chunksCreated := length done |}
       | _ :: _ => Throw SqliteError
       end,
       {| store :=
            match rest with
            | [] => fold_left (ingest_one document)
                              (ingested_from Math_sin env (steps w) done) (store w)
            | c :: _ =>
                interrupted Math_sin env document (steps_after env (steps w) done) c
                  (fold_left (ingest_one document)
                             (ingested_from Math_sin env (steps w) done) (store w))
            end;
          steps := n |}).
Proof.
  intros Hchunks Hdb Hfail.
  unfold addDocument, try_catch. unfold bind at 1. rewrite Hchunks.
  rewrite for_of_app. unfold bind at 1.
  rewrite (for_of_add_chunk_until document done w Hdb).
  destruct rest as [|c rest].
  - cbn [for_of]. unfold ret. rewrite app_nil_r. eexists. reflexivity.
  - cbn [for_of]. unfold bind. rewrite add_chunk_cases. cbn [steps store].
    unfold interrupted, ingested_at.
    specialize (Hfail ltac:(discriminate)).
    destruct (db_fails env (after_embedding env (steps_after env (steps w) done) + 1)).
    + eexists. reflexivity.
    + cbn [orb] in Hfail. rewrite Hfail. eexists. reflexivity.
Qed.

End Interrupted.

(** ** [addDocument]: failures while a document is ingested *)

Section IngestionClaims.
Variable num : Type.
Context `{Number num}.
Variable Math_sin : num -> num.
Variable env : Env num.

Lemma In_ingested_from (chunks : list Chunk) : forall n i,
  In i (ingested_from Math_sin env n chunks) ->
  In (ing_chunk i) chunks /\
  exists m, ing_embedding i = embedding_at Math_sin env m (text (ing_chunk i)).
Proof.
  induction chunks as [|c chunks IH]; intros n i Hin; simpl in Hin; [contradiction|].
  destruct Hin as [<-|Hin].
  - split; [left; reflexivity|]. exists n. reflexivity.
  - apply IH in Hin. destruct Hin as [Hc Hm]. split; [right; exact Hc|exact Hm].
Qed.

Lemma embedding_at_cases (n : nat) (text : jsstring) :
  embedding_at Math_sin env n text = pseudo_embedding Math_sin text \/
  embeddings_create env n (slice text 0 max_input_length)
    = Some (embedding_at Math_sin env n text).
Proof.
  unfold embedding_at. destruct (OPENAI_API_KEY env); [|left; reflexivity].
  destruct (embeddings_create env n (slice text 0 max_input_length));
    [right|left]; reflexivity.
Qed.

Lemma fold_ingest_closed (document : Document) (ing : list (Ingested num)) (s : Store num) :
  NoDup (map (chunk_id (id document)) (map (@ing_chunk num) ing)) ->
  fold_left (ingest_one document) ing s =
    {| document_chunks :=
         without_keys dc_id (map (chunk_id (id document)) (map (@ing_chunk num) ing))
                      (document_chunks s)
         ++ map (chunk_row document) ing;
       embeddings :=
         without_keys (@e_id num) (map (chunk_id (id document)) (map (@ing_chunk num) ing))
                      (embeddings s)
         ++ map (embedding_row document) ing |}.
Proof.
  intros Hnd. rewrite fold_ingest_one. rewrite !fold_upsert.
  - rewrite dc_id_chunk_rows, e_id_embedding_rows. reflexivity.
  - rewrite e_id_embedding_rows. exact Hnd.
  - rewrite dc_id_chunk_rows. exact Hnd.
Qed.

(** C3, amended.  Let the chunks of the document be [done] followed by
    [rest], in a run whose steps for [done] meet no database failure and,
    when [rest] is not empty, one of the two writes for its first chunk
    fails.  When [rest] is empty [addDocument] succeeds; otherwise it throws
    the error of the write.  Either way every chunk of [done] is stored, with
    the serialisation of the provider's vector or, where the provider call
    threw, of the deterministic one: a failure of the provider prevents
    nothing.  The store is the one the iterations for [done] made, with the
    chunk row of the first chunk of [rest] when it is the write of its
    embedding that failed: nothing is rolled back, no embedding is written
    for a chunk of [rest] and no chunk row for the chunks after its first. *)
Theorem addDocument_failures (document : Document) (w : World num)
    (done rest : list Chunk) :
  chunkText (content document) = done ++ rest ->
  (forall k, steps w <= k < steps_after env (steps w) done -> db_fails env k = false) ->
  (rest <> [] ->
   db_fails env (after_embedding env (steps_after env (steps w) done) + 1)
   || db_fails env (after_embedding env (steps_after env (steps w) done) + 2) = true) ->
  exists w',
    addDocument Math_sin env document w =
      (match rest with
       | [] => Ok {| success := true; chunksCreated := length done |}
       | _ :: _ => Throw SqliteError
       end, w') /\
    store w' =
      match rest with
      | [] => fold_left (ingest_one document)
                        (ingested_from Math_sin env (steps w) done) (store w)
      | c :: _ =>
          interrupted Math_sin env document (steps_after env (steps w) done) c
            (fold_left (ingest_one document)
                       (ingested_from Math_sin env (steps w) done) (store w))
      end /\
    (forall c, In c done ->
       exists i,
         ing_chunk i = c /\
         (ing_embedding i = pseudo_embedding Math_sin (text c) \/
          exists n, embeddings_create env n (slice (text c) 0 max_input_length)
                    = Some (ing_embedding i)) /\
         In (chunk_row document i) (document_chunks (store w')) /\
         In (embedding_row document i) (embeddings (store w'))) /\
    (forall c, In c rest ->
       rows_of (@e_id num) (chunk_id (id document) c) (embeddings (store w')) =
       rows_of (@e_id num) (chunk_id (id document) c) (embeddings (store w))) /\
    (forall c, In c (tl rest) ->
       rows_of dc_id (chunk_id (id document) c) (document_chunks (store w')) =
       rows_of dc_id (chunk_id (id document) c) (document_chunks (store w))).
Proof.
  intros Hchunks Hdb Hfail.
  destruct (@addDocument_until num _ Math_sin env document w done rest Hchunks Hdb Hfail)
    as [n Hrun].
  eexists. split; [exact Hrun|]. cbn [store]. split; [reflexivity|].
  (* the ids of the chunks are distinct *)
  assert (Hnd : NoDup (map (chunk_id (id document)) (done ++ rest))).
  { rewrite <- Hchunks. apply chunk_id_NoDup, chunkText_index_NoDup. }
  rewrite map_app in Hnd.
  set (ids := map (chunk_id (id document)) done) in *.
  set (ing := ingested_from Math_sin env (steps w) done).
  assert (Hing : map (chunk_id (id document)) (map (@ing_chunk num) ing) = ids)
    by (unfold ing; rewrite ing_chunk_ingested_from; reflexivity).
  assert (Hclosed := @fold_ingest_closed document ing (store w)).
  rewrite Hing in Hclosed. specialize (Hclosed (NoDup_app_remove_r _ _ Hnd)).
  set (s_done := fold_left (ingest_one document) ing (store w)) in *.
  (* the embeddings are those of [s_done], the chunk rows those of [s_done]
     and at most the row of the first chunk of [rest] *)
  set (s' := match rest with
             | [] => s_done
             | c :: _ => interrupted Math_sin env document (steps_after env (steps w) done) c
                           s_done
             end).
  assert (He : embeddings s' = embeddings s_done).
  { unfold s'. destruct rest as [|c rest']; [reflexivity|].
    unfold interrupted. destruct (db_fails env _); reflexivity. }
  assert (Hdc : document_chunks s' = document_chunks s_done \/
                exists c rest' (i : Ingested num),
                  rest = c :: rest' /\ dc_id (chunk_row document i) = chunk_id (id document) c /\
                  document_chunks s' = upsert dc_id (chunk_row document i)
                                              (document_chunks s_done)).
  { unfold s'. destruct rest as [|c rest']; [left; reflexivity|].
    unfold interrupted. destruct (db_fails env _); [left; reflexivity|].
    right. exists c, rest', (ingested_at Math_sin env (steps_after env (steps w) done) c).
    split; [reflexivity|]. split; reflexivity. }
  split; [|split].
  - intros c Hc.
    assert (Hmap : In c (map (@ing_chunk num) ing))
      by (unfold ing; rewrite ing_chunk_ingested_from; exact Hc).
    apply in_map_iff in Hmap. destruct Hmap as (i & Hi & Hin).
    exists i. split; [exact Hi|]. split; [|split].
    + destruct (In_ingested_from _ _ _ Hin) as [_ [m Hm]]. rewrite Hm, Hi.
      destruct (embedding_at_cases m (text c)) as [Hp|Hc'];
        [left; exact Hp|].
      right. exists m. exact Hc'.
    + assert (Hs : In (chunk_row document i) (document_chunks s_done))
        by (rewrite Hclosed; cbn [document_chunks]; apply in_or_app; right;
            apply in_map; exact Hin).
      destruct Hdc as [->|(c0 & rest' & i0 & Hrest & Hid & ->)]; [exact Hs|].
      apply In_upsert_other; [|exact Hs].
      rewrite Hid. cbn [chunk_row dc_id]. rewrite Hi. intros Heq.
      apply (@NoDup_app_disjoint _ _ _ (chunk_id (id document) c) Hnd).
      * apply in_map. exact Hc.
      * rewrite Hrest. left. symmetry. exact Heq.
    + rewrite He, Hclosed. cbn [embeddings]. apply in_or_app. right.
      apply in_map. exact Hin.
  - intros c Hc. rewrite He, Hclosed. cbn [embeddings].
    assert (Hnotin : ~ In (chunk_id (id document) c) ids).
    { intros Hin. apply (@NoDup_app_disjoint _ _ _ (chunk_id (id document) c) Hnd Hin).
      apply in_map. exact Hc. }
    rewrite rows_of_app, rows_of_without_keys by exact Hnotin.
    rewrite (@rows_of_none _ (@e_id num) _ (map (embedding_row document) ing));
      [apply app_nil_r|].
    intros r Hr Heq. apply Hnotin. rewrite <- Heq, <- Hing.
    rewrite <- (@e_id_embedding_rows num _ document ing). apply in_map. exact Hr.
  - intros c Hc.
    assert (Hrest : In c rest) by (destruct rest; [contradiction|right; exact Hc]).
    assert (Hnotin : ~ In (chunk_id (id document) c) ids).
    { intros Hin. apply (@NoDup_app_disjoint _ _ _ (chunk_id (id document) c) Hnd Hin).
      apply in_map. exact Hrest. }
    assert (Hs : rows_of dc_id (chunk_id (id document) c) (document_chunks s_done) =
                 rows_of dc_id (chunk_id (id document) c) (document_chunks (store w))).
    { rewrite Hclosed. cbn [document_chunks].
      rewrite rows_of_app, rows_of_without_keys by exact Hnotin.
      rewrite (@rows_of_none _ dc_id _ (map (chunk_row document) ing));
        [apply app_nil_r|].
      intros r Hr Heq. apply Hnotin. rewrite <- Heq, <- Hing.
      rewrite <- (@dc_id_chunk_rows num document ing). apply in_map. exact Hr. }
    destruct Hdc as [->|(c0 & rest' & i0 & Hrest' & Hid & ->)]; [exact Hs|].
    rewrite rows_of_upsert_other; [exact Hs|].
    rewrite Hid. intros Heq.
    apply NoDup_app_remove_l in Hnd. rewrite Hrest' in Hnd, Hc. cbn [map tl] in Hnd, Hc.
    inversion Hnd as [|? ? Hn0 _]; subst. apply Hn0. rewrite Heq. apply in_map. exact Hc.
Qed.

(** A failure of the write of an embedding ends the run: the chunk row
    written before it stays, the remaining chunks are not visited. *)
Lemma addDocument_embedding_write_fails (document : Document) (w : World num) c rest :
  chunkText (content document) = c :: rest ->
  db_fails env (after_embedding env (steps w) + 1) = false ->
  db_fails env (after_embedding env (steps w) + 2) = true ->
  addDocument Math_sin env document w =
    (Throw SqliteError,
     {| store := insert_chunk
                   (chunk_row document
                      {| ing_chunk := c;
                         ing_created_at := Date_now env (after_embedding env (steps w));
                         ing_embedding := embedding_at Math_sin env (steps w) (text c) |})
                   (store w);
        steps := after_embedding env (steps w) + 3 |}).
Proof.
  intros Hchunks Hok Hfail.
  unfold addDocument, try_catch, bind. rewrite Hchunks. cbn [for_of].
  unfold bind, add_chunk, bind. rewrite generateEmbedding_at.
  unfold now, db_run, tick. cbn [steps store].
  replace (S (after_embedding env (steps w))) with (after_embedding env (steps w) + 1) by lia.
  rewrite Hok. cbn [steps store].
  replace (S (after_embedding env (steps w) + 1)) with (after_embedding env (steps w) + 2) by lia.
  rewrite Hfail. unfold throw, chunk_row. cbn [steps store ing_chunk ing_created_at].
  f_equal. f_equal. lia.
Qed.

End IngestionClaims.

Lemma chunkText_numbers :
  chunkText numbers_text = [numbers_chunk_0; numbers_chunk_1; numbers_chunk_2].
Proof. vm_compute. reflexivity. Qed.

Section IngestionRuns.
Local Open Scope R_scope.

Lemma chunkText_doc_long :
  exists c0 c1,
    chunkText (content doc_long) = [c0; c1] /\ index c0 = 0%nat /\ index c1 = 1%nat.
Proof. eexists _, _. split; [vm_compute; reflexivity|]. split; reflexivity. Qed.

(** C3 as stated, when persisting the embedding of the first of two chunks
    fails: [addDocument] throws, the first chunk is left without embedding
    and the second chunk is not ingested. *)
Lemma addDocument_write_failure_stops_ingestion :
  exists w',
    addDocument R_sin env_write_fails doc_long (world_of empty_store)
      = (Throw SqliteError, w') /\
    map index (chunkText (content doc_long)) = [0; 1]%nat /\
    map dc_id (document_chunks (store w')) = [str "long_chunk_0"] /\
    embeddings (store w') = [].
Proof.
  destruct chunkText_doc_long as (c0 & c1 & Hchunks & H0 & H1).
  eexists. split; [|split; [|split]].
  - apply (addDocument_embedding_write_fails R_sin env_write_fails doc_long
             (world_of empty_store) Hchunks); reflexivity.
  - rewrite Hchunks. simpl. rewrite H0, H1. reflexivity.
  - cbn [store insert_chunk document_chunks empty_store world_of upsert filter app map
         chunk_row dc_id ing_chunk]. unfold chunk_id. rewrite H0. reflexivity.
  - reflexivity.
Qed.

Lemma chunkText_doc_numbers :
  chunkText (content doc_numbers) = [numbers_chunk_0; numbers_chunk_1] ++ [numbers_chunk_2].
Proof. exact chunkText_numbers. Qed.

Lemma env_flaky_writes (k : nat) :
  (steps (world_of (@empty_store R)) <= k
     < steps_after env_flaky (steps (world_of (@empty_store R)))
                   [numbers_chunk_0; numbers_chunk_1])%nat ->
  db_fails env_flaky k = false.
Proof.
  cbn [steps_after after_embedding OPENAI_API_KEY env_flaky steps world_of db_fails].
  intros Hk. apply Nat.eqb_neq. lia.
Qed.

(** The ids the two tables hold after the run with [env_flaky]: three chunk
    rows, two embeddings. *)
Lemma store_after_env_flaky :
  map dc_id (document_chunks
    (interrupted R_sin env_flaky doc_numbers
        (steps_after env_flaky (steps (world_of (@empty_store R)))
                     [numbers_chunk_0; numbers_chunk_1])
        numbers_chunk_2
        (fold_left (ingest_one doc_numbers)
                   (ingested_from R_sin env_flaky (steps (world_of (@empty_store R)))
                                  [numbers_chunk_0; numbers_chunk_1])
                   (store (world_of empty_store))))) =
    [str "n_chunk_0"; str "n_chunk_1"; str "n_chunk_2"] /\
  map (@e_id R) (embeddings
    (interrupted R_sin env_flaky doc_numbers
        (steps_after env_flaky (steps (world_of (@empty_store R)))
                     [numbers_chunk_0; numbers_chunk_1])
        numbers_chunk_2
        (fold_left (ingest_one doc_numbers)
                   (ingested_from R_sin env_flaky (steps (world_of (@empty_store R)))
                                  [numbers_chunk_0; numbers_chunk_1])
                   (store (world_of empty_store))))) =
    [str "n_chunk_0"; str "n_chunk_1"].
Proof.
  split;
    cbv -[pseudo_embedding R_sin IZR numbers_chunk_0 numbers_chunk_1 numbers_chunk_2 text];
    cbn [index numbers_chunk_0 numbers_chunk_1 numbers_chunk_2];
    reflexivity.
Qed.

Lemma addDocument_failures_witness :
  exists w',
    addDocument R_sin env_flaky doc_numbers (world_of empty_store) =
      (Throw SqliteError, w') /\
    map dc_id (document_chunks (store w')) =
      [str "n_chunk_0"; str "n_chunk_1"; str "n_chunk_2"] /\
    map (@e_id R) (embeddings (store w')) = [str "n_chunk_0"; str "n_chunk_1"] /\
    (forall c, In c [numbers_chunk_0; numbers_chunk_1] ->
       exists i,
         ing_chunk i = c /\
         (ing_embedding i = pseudo_embedding R_sin (text c) \/
          exists n, embeddings_create env_flaky n (slice (text c) 0 max_input_length)
                    = Some (ing_embedding i)) /\
         In (chunk_row doc_numbers i) (document_chunks (store w')) /\
         In (embedding_row doc_numbers i) (embeddings (store w'))) /\
    (forall c, In c [numbers_chunk_2] ->
       rows_of (@e_id R) (chunk_id (id doc_numbers) c) (embeddings (store w')) =
       rows_of (@e_id R) (chunk_id (id doc_numbers) c)
               (embeddings (store (world_of empty_store)))).
Proof.
  destruct (@addDocument_failures R _ R_sin env_flaky doc_numbers (world_of empty_store)
              [numbers_chunk_0; numbers_chunk_1] [numbers_chunk_2]
              chunkText_doc_numbers env_flaky_writes (fun _ => eq_refl))
    as (w' & Hrun & Hstore & Hdone & Hrest & _).
  exists w'. split; [exact Hrun|].
  split; [rewrite Hstore; exact (proj1 store_after_env_flaky)|].
  split; [rewrite Hstore; exact (proj2 store_after_env_flaky)|].
  split; [exact Hdone|exact Hrest].
Defined.

End IngestionRuns.

(** ** [addDocument] twice *)

Section Reingestion.
Variable num : Type.
Context `{Number num}.
Variable Math_sin : num -> num.
Variable env : Env num.

(** With a clock and a provider that answer the same at every step, the
    chunks are stored the same whenever the run begins. *)
Lemma ingested_from_steady (chunks : list Chunk) :
  (forall n m, Date_now env n = Date_now env m) ->
  (forall n m input, embeddings_create env n input = embeddings_create env m input) ->
  forall n m, ingested_from Math_sin env n chunks = ingested_from Math_sin env m chunks.
Proof.
  intros Hclock Hprovider.
  induction chunks as [|c chunks IH]; intros n m; simpl; [reflexivity|].
  rewrite (IH (after_embedding env n + 3) (after_embedding env m + 3)).
  rewrite (Hclock (after_embedding env n) (after_embedding env m)).
  unfold embedding_at. rewrite (Hprovider n m). reflexivity.
Qed.

(** C8, amended: while the database accepts the writes, [addDocument] called
    twice on a document returns the same result, and both times leaves the
    store made of the rows of the other chunk ids followed by the rows of
    the chunks of the document, with the same ids (document id and ordinal),
    texts and columns of the document, in ordinal order.  The second call
    rewrites [created_at] and the embedding of every chunk; the two states
    are equal when the clock and the provider answer the same at every
    step. *)
Theorem addDocument_twice (document : Document) (w : World num) :
  (forall n, db_fails env n = false) ->
  let chunks := chunkText (content document) in
  exists r w1 w2 kept kept_embeddings first second,
    addDocument Math_sin env document w = (Ok r, w1) /\
    addDocument Math_sin env document w1 = (Ok r, w2) /\
    r = {| success := true; chunksCreated := length chunks |} /\
    map (@ing_chunk num) first = chunks /\
    map (@ing_chunk num) second = chunks /\
    document_chunks (store w1) = kept ++ map (chunk_row document) first /\
    document_chunks (store w2) = kept ++ map (chunk_row document) second /\
    embeddings (store w1) = kept_embeddings ++ map (embedding_row document) first /\
    embeddings (store w2) = kept_embeddings ++ map (embedding_row document) second /\
    ((forall n m, Date_now env n = Date_now env m) ->
     (forall n m input, embeddings_create env n input = embeddings_create env m input) ->
     store w2 = store w1).
Proof.
  intros Hdb chunks.
  destruct (addDocument_run Math_sin env Hdb document w) as [n1 Hrun1].
  fold chunks in Hrun1.
  set (ids := map (chunk_id (id document)) chunks) in *.
  set (first := ingested_from Math_sin env (steps w) chunks) in *.
  set (w1 := {| store :=
                  {| document_chunks :=
                       without_keys dc_id ids (document_chunks (store w))
                       ++ map (chunk_row document) first;
                     embeddings :=
                       without_keys (@e_id num) ids (embeddings (store w))
                       ++ map (embedding_row document) first |};
                steps := n1 |}) in *.
  destruct (addDocument_run Math_sin env Hdb document w1) as [n2 Hrun2].
  fold chunks in Hrun2. fold ids in Hrun2.
  set (second := ingested_from Math_sin env (steps w1) chunks) in *.
  assert (Hfirst : map (@ing_chunk num) first = chunks)
    by apply ing_chunk_ingested_from.
  assert (Hsecond : map (@ing_chunk num) second = chunks)
    by apply ing_chunk_ingested_from.
  assert (Hrows : without_keys dc_id ids (document_chunks (store w1)) =
                  without_keys dc_id ids (document_chunks (store w))).
  { cbn [w1 store document_chunks].
    rewrite without_keys_app, without_keys_idem.
    rewrite (without_keys_all dc_id ids (map (chunk_row document) first));
      [rewrite app_nil_r; reflexivity|].
    intros r Hr. apply in_map_iff in Hr. destruct Hr as (i & <- & Hi).
    cbn [chunk_row dc_id]. apply in_map. rewrite <- Hfirst. apply in_map. exact Hi. }
  assert (Herows : without_keys (@e_id num) ids (embeddings (store w1)) =
                   without_keys (@e_id num) ids (embeddings (store w))).
  { cbn [w1 store embeddings].
    rewrite without_keys_app, without_keys_idem.
    rewrite (without_keys_all (@e_id num) ids (map (embedding_row document) first));
      [rewrite app_nil_r; reflexivity|].
    intros r Hr. apply in_map_iff in Hr. destruct Hr as (i & <- & Hi).
    cbn [embedding_row e_id]. apply in_map. rewrite <- Hfirst. apply in_map. exact Hi. }
  rewrite Hrows, Herows in Hrun2.
  eexists _, w1, _, (without_keys dc_id ids (document_chunks (store w))),
          (without_keys (@e_id num) ids (embeddings (store w))), first, second.
  split; [exact Hrun1|]. split; [exact Hrun2|]. split; [reflexivity|].
  split; [exact Hfirst|]. split; [exact Hsecond|].
  split; [reflexivity|]. split; [reflexivity|]. split; [reflexivity|]. split; [reflexivity|].
  intros Hclock Hprovider. cbn [store].
  unfold second. rewrite (ingested_from_steady chunks Hclock Hprovider (steps w1) (steps w)).
  reflexivity.
Qed.

End Reingestion.

Section ReingestionRuns.

(** C8 as stated, with a clock that advances: the second call stamps the
    chunk anew, and the state after it differs from the state after the
    first. *)
Lemma addDocument_twice_restamps :
  exists r w1 w2,
    addDocument R_sin env_offline doc_x (world_of empty_store) = (Ok r, w1) /\
    addDocument R_sin env_offline doc_x w1 = (Ok r, w2) /\
    map dc_created_at (document_chunks (store w1)) = [0%Z] /\
    map dc_created_at (document_chunks (store w2)) = [3%Z] /\
    store w2 <> store w1.
Proof.
  eexists _, _, _. split; [reflexivity|]. split; [reflexivity|].
  split; [reflexivity|]. split; [reflexivity|].
  intros Heq.
  apply (f_equal (fun s => map dc_created_at (document_chunks s))) in Heq.
  discriminate Heq.
Qed.

Lemma addDocument_twice_witness :
  (forall n, db_fails env_steady n = false) /\
  exists r w1 w2 kept kept_embeddings first second,
    addDocument R_sin env_steady doc_x (world_of empty_store) = (Ok r, w1) /\
    addDocument R_sin env_steady doc_x w1 = (Ok r, w2) /\
    r = {| success := true; chunksCreated := length (chunkText (content doc_x)) |} /\
    map (@ing_chunk R) first = chunkText (content doc_x) /\
    map (@ing_chunk R) second = chunkText (content doc_x) /\
    document_chunks (store w1) = kept ++ map (chunk_row doc_x) first /\
    document_chunks (store w2) = kept ++ map (chunk_row doc_x) second /\
    embeddings (store w1) = kept_embeddings ++ map (embedding_row doc_x) first /\
    embeddings (store w2) = kept_embeddings ++ map (embedding_row doc_x) second /\
    store w2 = store w1.
Proof.
  split; [reflexivity|].
  destruct (addDocument_twice R_sin env_steady doc_x (world_of empty_store)
              (fun n => eq_refl))
    as (r & w1 & w2 & kept & kept_embeddings & first & second &
        Hrun1 & Hrun2 & Hr & Hfirst & Hsecond & Hd1 & Hd2 & He1 & He2 & Hsteady).
  exists r, w1, w2, kept, kept_embeddings, first, second.
  split; [exact Hrun1|]. split; [exact Hrun2|]. split; [exact Hr|].
  split; [exact Hfirst|]. split; [exact Hsecond|].
  split; [exact Hd1|]. split; [exact Hd2|]. split; [exact He1|]. split; [exact He2|].
  apply Hsteady; intros; reflexivity.
Defined.

End ReingestionRuns.

(** ** Splitting and joining *)

Lemma split_go_not_nil (b : bool) (s : jsstring) : split_go b s <> [].
Proof.
  revert b. induction s as [|c s IH]; intros b; simpl; [discriminate|].
  destruct (is_space c).
  - destruct b; [apply IH|discriminate].
  - destruct (split_go false s); discriminate.
Qed.

(** A word followed by a white space is split off. *)
Lemma split_go_word_space (w : jsstring) (c : ascii) (rest : jsstring) :
  Forall (fun c => is_space c = false) w -> is_space c = true ->
  split_go false (w ++ c :: rest) = w :: split_go true rest.
Proof.
  intros Hw Hc. induction Hw as [|d w Hd Hw IH]; simpl.
  - rewrite Hc. reflexivity.
  - rewrite Hd, IH. reflexivity.
Qed.

Lemma split_go_word (w : jsstring) :
  Forall (fun c => is_space c = false) w -> split_go false w = [w].
Proof.
  intros Hw. induction Hw as [|d w Hd Hw IH]; simpl; [reflexivity|].
  rewrite Hd, IH. reflexivity.
Qed.

Lemma split_go_flag (c : ascii) (s : jsstring) :
  is_space c = false -> split_go true (c :: s) = split_go false (c :: s).
Proof. intros Hc. simpl. rewrite Hc. reflexivity. Qed.

Lemma join_cons (sep w : jsstring) (ws : list jsstring) :
  ws <> [] -> join sep (w :: ws) = w ++ sep ++ join sep ws.
Proof. destruct ws; [congruence|reflexivity]. Qed.

Lemma join_app (sep : jsstring) (a b : list jsstring) :
  a <> [] -> b <> [] -> join sep (a ++ b) = join sep a ++ sep ++ join sep b.
Proof.
  intros Ha Hb. induction a as [|w a IH]; [congruence|].
  destruct a as [|w' a].
  - simpl app. rewrite join_cons by assumption. reflexivity.
  - change ((w :: w' :: a) ++ b) with (w :: ((w' :: a) ++ b)).
    rewrite join_cons by discriminate. rewrite IH by discriminate.
    rewrite (join_cons sep w (ws := w' :: a)) by discriminate.
    rewrite <- !app_assoc. reflexivity.
Qed.

(** The first and the last code unit of joined words are no white space. *)
Lemma join_words_head (core : list jsstring) :
  Forall is_word core -> core <> [] ->
  exists c s, join [" "%char] core = c :: s /\ is_space c = false.
Proof.
  intros Hall Hne. destruct core as [|w core]; [congruence|].
  inversion Hall as [|? ? [Hw Hfree] _]; subst.
  destruct w as [|c w]; [congruence|]. inversion Hfree; subst.
  destruct core; simpl; eauto.
Qed.

Lemma join_words_last (core : list jsstring) :
  Forall is_word core -> core <> [] ->
  exists s c, join [" "%char] core = s ++ [c] /\ is_space c = false.
Proof.
  intros Hall Hne. induction core as [|w core IH]; [congruence|].
  inversion Hall as [|? ? [Hw Hfree] Hall']; subst.
  destruct core as [|w' core].
  - simpl. destruct (exists_last Hw) as (s & c & ->).
    exists s, c. split; [reflexivity|].
    rewrite Forall_forall in Hfree. apply Hfree. apply in_or_app. right. left. reflexivity.
  - destruct (IH Hall' ltac:(discriminate)) as (s & c & Heq & Hc).
    rewrite join_cons by discriminate. rewrite Heq.
    exists (w ++ [" "%char] ++ s), c. split; [|exact Hc].
    rewrite <- !app_assoc. reflexivity.
Qed.

Lemma split_ws_join (core : list jsstring) :
  Forall is_word core -> core <> [] -> split_ws (join [" "%char] core) = core.
Proof.
  unfold split_ws. intros Hall Hne. induction core as [|w core IH]; [congruence|].
  inversion Hall as [|? ? [Hw Hfree] Hall']; subst.
  destruct core as [|w' core].
  - simpl. apply split_go_word. exact Hfree.
  - rewrite join_cons by discriminate.
    change ([" "%char] ++ join [" "%char] (w' :: core))
      with (" "%char :: join [" "%char] (w' :: core)).
    rewrite split_go_word_space by (assumption || reflexivity).
    destruct (join_words_head Hall' ltac:(discriminate)) as (c & s & Heq & Hc).
    rewrite Heq, split_go_flag by exact Hc. rewrite <- Heq.
    rewrite IH by (assumption || discriminate). reflexivity.
Qed.

(** ** Trimming *)

Lemma trim_start_spaces (pre s : jsstring) :
  Forall (fun c => is_space c = true) pre -> trim_start (pre ++ s) = trim_start s.
Proof.
  intros Hpre. induction Hpre as [|c pre Hc Hpre IH]; [reflexivity|].
  simpl. rewrite Hc. exact IH.
Qed.

Lemma trim_start_head (c : ascii) (s : jsstring) :
  is_space c = false -> trim_start (c :: s) = c :: s.
Proof. intros Hc. simpl. rewrite Hc. reflexivity. Qed.

Lemma trim_around (pre post s : jsstring) (c d : ascii) (mid : jsstring) :
  Forall (fun c => is_space c = true) pre ->
  Forall (fun c => is_space c = true) post ->
  s = c :: mid -> is_space c = false ->
  (exists mid', s = mid' ++ [d]) -> is_space d = false ->
  trim (pre ++ s ++ post) = s.
Proof.
  intros Hpre Hpost Hhead Hc [mid' Hlast] Hd. unfold trim.
  rewrite trim_start_spaces by exact Hpre.
  rewrite Hhead at 1. simpl app. rewrite trim_start_head by exact Hc.
  change (c :: mid ++ post) with ((c :: mid) ++ post). rewrite <- Hhead.
  rewrite rev_app_distr. rewrite trim_start_spaces.
  - rewrite Hlast at 1. rewrite rev_app_distr. simpl app.
    rewrite trim_start_head by exact Hd.
    change (d :: rev mid') with (rev [d] ++ rev mid'). rewrite <- rev_app_distr, <- Hlast.
    apply rev_involutive.
  - apply Forall_rev. exact Hpost.
Qed.

(** ** The shape of split texts *)

Lemma is_word_cons (c : ascii) (w : jsstring) :
  is_space c = false -> Forall (fun c => is_space c = false) w -> is_word (c :: w).
Proof. intros Hc Hw. split; [discriminate|constructor; assumption]. Qed.

(** A code unit that is no white space, put in front of the first string of
    a shaped list, leaves no empty string in front. *)
Lemma shaped_cons_head (c : ascii) (e1 core e2 : list jsstring) :
  is_space c = false -> blank e1 -> blank e2 -> Forall is_word core ->
  exists core' e2',
    match e1 ++ core ++ e2 with
    | w :: ws => (c :: w) :: ws
    | [] => [[c]]
    end = core' ++ e2' /\ blank e2' /\ Forall is_word core'.
Proof.
  intros Hc [->| ->] He2 Hcore; simpl.
  - destruct core as [|w core]; simpl.
    + exists [[c]], []. split; [destruct He2 as [->| ->]; reflexivity|].
      split; [left; reflexivity|]. constructor; [|constructor].
      apply is_word_cons; [exact Hc|constructor].
    + exists ((c :: w) :: core), e2. split; [reflexivity|]. split; [exact He2|].
      inversion Hcore as [|? ? [_ Hw] Hcore']; subst.
      constructor; [apply is_word_cons; assumption|exact Hcore'].
  - exists ([c] :: core), e2. split; [reflexivity|]. split; [exact He2|].
    constructor; [apply is_word_cons; [exact Hc|constructor]|exact Hcore].
Qed.

Lemma split_go_shaped (s : jsstring) :
  (exists core e2, split_go true s = core ++ e2 /\ blank e2 /\ Forall is_word core) /\
  (exists e1 core e2,
      split_go false s = e1 ++ core ++ e2 /\ blank e1 /\ blank e2 /\ Forall is_word core).
Proof.
  induction s as [|c s [(coreT & e2T & HT & HbT & HwT) (e1 & core & e2 & HF & Hb1 & Hb2 & Hw)]].
  - split.
    + exists [], [[]]. split; [reflexivity|]. split; [right; reflexivity|constructor].
    + exists [], [], [[]]. split; [reflexivity|].
      split; [left; reflexivity|]. split; [right; reflexivity|constructor].
  - simpl. destruct (is_space c) eqn:Hc.
    + split.
      * exists coreT, e2T. auto.
      * exists [[]], coreT, e2T. rewrite HT. split; [reflexivity|].
        split; [right; reflexivity|]. split; assumption.
    + rewrite HF.
      destruct (@shaped_cons_head c e1 core e2 Hc Hb1 Hb2 Hw) as (core' & e2' & Heq & Hb' & Hw').
      split.
      * exists core', e2'. split; [exact Heq|]. split; assumption.
      * exists [], core', e2'. split; [exact Heq|].
        split; [left; reflexivity|]. split; assumption.
Qed.

Lemma split_ws_shaped (s : jsstring) : shaped (split_ws s).
Proof. exact (proj2 (split_go_shaped s)). Qed.

Lemma blank_firstn (e : list jsstring) (n : nat) : blank e -> blank (firstn n e).
Proof.
  intros [->| ->]; destruct n as [|n]; simpl;
    try (left; reflexivity); try (right; reflexivity).
  rewrite firstn_nil. right. reflexivity.
Qed.

Lemma blank_skipn (e : list jsstring) (n : nat) : blank e -> blank (skipn n e).
Proof.
  intros [->| ->]; destruct n as [|n]; simpl;
    try (left; reflexivity); try (right; reflexivity).
  rewrite skipn_nil. left. reflexivity.
Qed.

Lemma Forall_firstn_of {A} (P : A -> Prop) (l : list A) (n : nat) :
  Forall P l -> Forall P (firstn n l).
Proof.
  rewrite !Forall_forall. intros Hall x Hx. apply Hall. eapply In_firstn. exact Hx.
Qed.

Lemma Forall_skipn_of {A} (P : A -> Prop) (l : list A) (n : nat) :
  Forall P l -> Forall P (skipn n l).
Proof.
  rewrite !Forall_forall. intros Hall x Hx. apply Hall.
  rewrite <- (firstn_skipn n l). apply in_or_app. right. exact Hx.
Qed.

Lemma shaped_firstn (l : list jsstring) (n : nat) : shaped l -> shaped (firstn n l).
Proof.
  intros (e1 & core & e2 & -> & Hb1 & Hb2 & Hw).
  rewrite !firstn_app.
  exists (firstn n e1), (firstn (n - length e1) core),
         (firstn (n - length e1 - length core) e2).
  split; [reflexivity|]. split; [apply blank_firstn; exact Hb1|].
  split; [apply blank_firstn; exact Hb2|apply Forall_firstn_of; exact Hw].
Qed.

Lemma shaped_skipn (l : list jsstring) (n : nat) : shaped l -> shaped (skipn n l).
Proof.
  intros (e1 & core & e2 & -> & Hb1 & Hb2 & Hw).
  rewrite !skipn_app.
  exists (skipn n e1), (skipn (n - length e1) core),
         (skipn (n - length e1 - length core) e2).
  split; [reflexivity|]. split; [apply blank_skipn; exact Hb1|].
  split; [apply blank_skipn; exact Hb2|apply Forall_skipn_of; exact Hw].
Qed.

Lemma shaped_slice (l : list jsstring) (i j : nat) : shaped l -> shaped (slice l i j).
Proof. intros Hl. unfold slice. apply shaped_firstn, shaped_skipn, Hl. Qed.

Lemma filter_nonempty_blank (e : list jsstring) : blank e -> filter nonempty e = [].
Proof. intros [->| ->]; reflexivity. Qed.

Lemma filter_nonempty_words (core : list jsstring) :
  Forall is_word core -> filter nonempty core = core.
Proof.
  intros Hw. induction Hw as [|w core [Hne _] _ IH]; [reflexivity|].
  simpl. destruct w; [congruence|]. simpl. rewrite IH. reflexivity.
Qed.

(** The words of a trimmed, joined slice are its non-empty strings. *)
Lemma trim_join_shaped (l : list jsstring) :
  shaped l ->
  Forall is_word (filter nonempty l) /\
  trim (join [" "%char] l) = join [" "%char] (filter nonempty l).
Proof.
  intros (e1 & core & e2 & -> & Hb1 & Hb2 & Hw).
  rewrite !filter_app, (filter_nonempty_blank Hb1), (filter_nonempty_blank Hb2),
    (filter_nonempty_words Hw), app_nil_r.
  split; [exact Hw|].
  destruct core as [|w core].
  - destruct Hb1 as [->| ->], Hb2 as [->| ->]; reflexivity.
  - destruct (join_words_head Hw ltac:(discriminate)) as (c & mid & Hhead & Hc).
    destruct (join_words_last Hw ltac:(discriminate)) as (mid' & d & Hlast & Hd).
    assert (Hsp : Forall (fun c => is_space c = true) [" "%char])
      by (constructor; [reflexivity|constructor]).
    set (J := join [" "%char] (w :: core)) in *.
    destruct Hb1 as [->| ->], Hb2 as [->| ->].
    + rewrite app_nil_r, app_nil_l. fold J.
      rewrite <- (app_nil_r J) at 1.
      apply (@trim_around [] [] J c d mid); eauto.
    + rewrite app_nil_l. rewrite join_app by discriminate. fold J. cbn [join].
      apply (@trim_around [] ([" "%char] ++ []) J c d mid); eauto.
    + rewrite app_nil_r. rewrite join_app by discriminate. fold J. cbn [join].
      rewrite <- (app_nil_r J) at 1. rewrite app_assoc.
      apply (@trim_around ([] ++ [" "%char]) [] J c d mid); eauto.
    + rewrite join_app by (simpl; discriminate).
      rewrite (join_app [" "%char] (a := w :: core) (b := [[]])) by discriminate.
      fold J. cbn [join]. rewrite app_assoc.
      apply (@trim_around ([] ++ [" "%char]) ([" "%char] ++ []) J c d mid); eauto.
Qed.

(** ** The chunks as windows of words *)

Lemma In_chunk_loop (fuel : nat) (words : list jsstring) (size step : nat) : forall i c,
  In c (chunk_loop fuel words size step i) ->
  exists j,
    i + j * step < length words /\
    text c = trim (join [" "%char] (slice words (i + j * step) (i + j * step + size))) /\
    text c <> [] /\
    index c = (i + j * step) / step.
Proof.
  induction fuel as [|fuel IH]; intros i c Hin; simpl in Hin; [contradiction|].
  destruct (i <? length words) eqn:Hlt; [|contradiction].
  apply Nat.ltb_lt in Hlt. apply in_app_or in Hin. destruct Hin as [Hin|Hin].
  - exists 0. rewrite Nat.mul_0_l, Nat.add_0_r.
    destruct (trim (join [" "%char] (slice words i (i + size)))) eqn:Htrim; [contradiction|].
    destruct Hin as [<-|[]]. simpl. repeat split; [exact Hlt|discriminate].
  - apply IH in Hin. destruct Hin as (j & Hj & Htext & Hne & Hidx).
    exists (S j). replace (i + S j * step) with (i + step + j * step) by lia.
    repeat split; assumption.
Qed.

Lemma In_chunkText (content : jsstring) (c : Chunk) :
  In c (chunkText content) ->
  800 * index c < length (split_ws content) /\
  text c = trim (join [" "%char]
                   (slice (split_ws content) (800 * index c) (800 * index c + 1000))) /\
  text c <> [].
Proof.
  unfold chunkText, chunkText_with. change (1000 - 200) with 800.
  intros Hin. apply In_chunk_loop in Hin. destruct Hin as (j & Hj & Htext & Hne & Hidx).
  rewrite Nat.add_0_l in *. rewrite Nat.div_mul in Hidx by lia. subst j.
  rewrite (Nat.mul_comm 800). auto.
Qed.

(** The words of a chunk are the non-empty strings of its window. *)
Lemma chunk_words (content : jsstring) (c : Chunk) :
  In c (chunkText content) ->
  split_ws (text c) =
    filter nonempty (slice (split_ws content) (800 * index c) (800 * index c + 1000)).
Proof.
  intros Hin. apply In_chunkText in Hin. destruct Hin as (_ & Htext & Hne).
  destruct (trim_join_shaped
              (shaped_slice (800 * index c) (800 * index c + 1000) (split_ws_shaped content)))
    as [Hwords Htrim].
  rewrite Htext, Htrim. apply split_ws_join; [exact Hwords|].
  intros Hnil. apply Hne. rewrite Htext, Htrim, Hnil. reflexivity.
Qed.

(** ** Windows that overlap *)

Lemma firstn_add {A} (n m : nat) (l : list A) :
  firstn (n + m) l = firstn n l ++ firstn m (skipn n l).
Proof.
  rewrite <- (firstn_skipn n l) at 1.
  rewrite firstn_app. rewrite firstn_firstn.
  replace (Nat.min (n + m) n) with n by lia.
  rewrite length_firstn.
  destruct (Nat.le_gt_cases n (length l)) as [Hle|Hgt].
  - replace (n + m - Nat.min n (length l)) with m by lia. reflexivity.
  - rewrite (skipn_all2 l) by lia. rewrite !firstn_nil. reflexivity.
Qed.

Lemma lastn_app_exact {A} (n : nat) (l v : list A) :
  length v = n -> lastn n (l ++ v) = v.
Proof.
  intros Hlen. unfold lastn. rewrite length_app, skipn_app.
  replace (length l + length v - n) with (length l) by lia.
  rewrite skipn_all, Nat.sub_diag. reflexivity.
Qed.

Lemma firstn_app_exact {A} (n : nat) (v l : list A) :
  length v = n -> firstn n (v ++ l) = v.
Proof.
  intros Hlen. rewrite firstn_app. rewrite firstn_all2 by lia.
  replace (n - length v) with 0 by lia. simpl. apply app_nil_r.
Qed.

Lemma filter_all_true {A} (f : A -> bool) (l : list A) :
  (forall x, In x l -> f x = true) -> filter f l = l.
Proof.
  induction l as [|x l IH]; intros Hall; simpl; [reflexivity|].
  rewrite (Hall x) by (left; reflexivity). rewrite IH; [reflexivity|].
  intros y Hy. apply Hall. right. exact Hy.
Qed.

Lemma In_slice {A} (l : list A) (i j : nat) (x : A) :
  In x (slice l i j) -> exists k, i <= k < j /\ nth_error l k = Some x.
Proof.
  unfold slice. intros Hin. apply In_nth_error in Hin. destruct Hin as [n Hn].
  rewrite nth_error_firstn in Hn. destruct (n <? j - i) eqn:Hlt; [|discriminate].
  apply Nat.ltb_lt in Hlt. rewrite nth_error_skipn in Hn.
  exists (i + n). split; [lia|exact Hn].
Qed.

(** In a split text only the first and the last string can be empty. *)
Lemma shaped_interior (l : list jsstring) (k : nat) (x : jsstring) :
  shaped l -> nth_error l k = Some x -> 0 < k -> S k < length l -> nonempty x = true.
Proof.
  intros (e1 & core & e2 & -> & Hb1 & Hb2 & Hw) Hnth Hpos Hlast.
  assert (H1 : length e1 <= 1) by (destruct Hb1 as [->| ->]; simpl; lia).
  assert (H2 : length e2 <= 1) by (destruct Hb2 as [->| ->]; simpl; lia).
  rewrite !length_app in Hlast.
  rewrite nth_error_app2 in Hnth by lia.
  rewrite nth_error_app1 in Hnth by lia.
  apply nth_error_In in Hnth. rewrite Forall_forall in Hw.
  destruct (Hw x Hnth) as [Hne _]. destruct x; [congruence|reflexivity].
Qed.

Lemma filter_nonempty_interior (l : list jsstring) (i j : nat) :
  shaped l -> 0 < i -> j < length l -> filter nonempty (slice l i j) = slice l i j.
Proof.
  intros Hl Hi Hj. apply filter_all_true. intros x Hx.
  apply In_slice in Hx. destruct Hx as (k & Hk & Hnth).
  apply (shaped_interior Hl Hnth); lia.
Qed.

Lemma slice_split {A} (l : list A) (i n m : nat) :
  slice l i (i + (n + m)) = slice l i (i + n) ++ slice l (i + n) (i + n + m).
Proof.
  unfold slice.
  replace (i + (n + m) - i) with (n + m) by lia.
  replace (i + n - i) with n by lia.
  replace (i + n + m - (i + n)) with m by lia.
  rewrite firstn_add, skipn_skipn. rewrite (Nat.add_comm n i). reflexivity.
Qed.

Lemma length_slice {A} (l : list A) (i j : nat) :
  j <= length l -> length (slice l i j) = j - i.
Proof.
  intros Hj. unfold slice. rewrite length_firstn, length_skipn. lia.
Qed.

(** C7: with windows of 1000 words and an overlap of 200, the last 200 words
    of a chunk are the first 200 words of the chunk of the next ordinal,
    unless that one is the final chunk. *)
Theorem chunkText_overlap (content : jsstring) (ci cj ck : Chunk) :
  In ci (chunkText content) -> In cj (chunkText content) -> In ck (chunkText content) ->
  index cj = S (index ci) -> index cj < index ck ->
  lastn 200 (split_ws (text ci)) = firstn 200 (split_ws (text cj)).
Proof.
  intros Hi Hj Hk Hnext Hlater.
  rewrite (chunk_words content ci Hi), (chunk_words content cj Hj).
  apply In_chunkText in Hk. destruct Hk as (Hk & _ & _).
  pose proof (split_ws_shaped content) as Hshape.
  set (W := split_ws content) in *. set (a := 800 * index ci) in *.
  assert (Hlen : a + 1600 < length W) by lia.
  replace (800 * index cj) with (a + 800) by lia.
  set (V := slice W (a + 800) (a + 800 + 200)).
  assert (HV : filter nonempty V = V)
    by (apply filter_nonempty_interior; [exact Hshape|lia|lia]).
  assert (HlenV : length V = 200)
    by (unfold V; rewrite length_slice by lia; lia).
  replace (a + 1000) with (a + (800 + 200)) by lia.
  replace (a + 800 + 1000) with (a + 800 + (200 + 800)) by lia.
  rewrite !slice_split. fold V.
  rewrite !filter_app, HV.
  rewrite lastn_app_exact by exact HlenV.
  rewrite firstn_app_exact by exact HlenV.
  reflexivity.
Qed.

Lemma chunkText_overlap_witness :
  In numbers_chunk_0 (chunkText numbers_text) /\
  In numbers_chunk_1 (chunkText numbers_text) /\
  In numbers_chunk_2 (chunkText numbers_text) /\
  index numbers_chunk_1 = S (index numbers_chunk_0) /\
  index numbers_chunk_1 < index numbers_chunk_2 /\
  lastn 200 (split_ws (text numbers_chunk_0)) = firstn 200 (split_ws (text numbers_chunk_1)).
Proof.
  assert (H0 : In numbers_chunk_0 (chunkText numbers_text))
    by (rewrite chunkText_numbers; left; reflexivity).
  assert (H1 : In numbers_chunk_1 (chunkText numbers_text))
    by (rewrite chunkText_numbers; right; left; reflexivity).
  assert (H2 : In numbers_chunk_2 (chunkText numbers_text))
    by (rewrite chunkText_numbers; right; right; left; reflexivity).
  assert (Hnext : index numbers_chunk_1 = S (index numbers_chunk_0)) by reflexivity.
  assert (Hlater : index numbers_chunk_1 < index numbers_chunk_2) by exact (le_n 2).
  exact (conj H0 (conj H1 (conj H2 (conj Hnext (conj Hlater
           (@chunkText_overlap numbers_text numbers_chunk_0 numbers_chunk_1 numbers_chunk_2
              H0 H1 H2 Hnext Hlater)))))).
Defined.

(** The overlap of the first two chunks of [numbers_text]: the words 800 to
    999.  The final chunk, the single word 1600, shares one word with its
    predecessor. *)
Example chunkText_numbers_overlap :
  lastn 200 (split_ws (text numbers_chunk_0)) = map decimal (seq 800 200) /\
  firstn 200 (split_ws (text numbers_chunk_1)) = map decimal (seq 800 200) /\
  split_ws (text numbers_chunk_2) = [decimal 1600].
Proof. vm_compute. repeat split; reflexivity. Qed.

(** ** The scenarios of the specification, and the pipeline on binary64 *)

(** On binary64 numbers, with the default threshold and a limit of 3: the
    row below the threshold is dropped, the others come by decreasing score,
    and the two rows of score 0.75 keep their storage order. *)
Example rank_float_rows :
  map (fun r => (dc_id (chunk (scored r)), citation r)) (rank float_rows 3 default_threshold) =
    [(str "c_chunk_0", str "Notes (note, section 1)");
     (str "b_chunk_0", str "Notes (note, section 1)");
     (str "d_chunk_0", str "Notes (note, section 1)")].
Proof. vm_compute. reflexivity. Qed.

(** The default threshold is the binary64 number written [0.7]. *)
Example default_threshold_float :
  @default_threshold float _ = 0x1.6666666666666p-1%float.
Proof. vm_compute. reflexivity. Qed.

(** Scenario "citation format". *)
Example citation_format :
  generateCitation {| chunk := labs_row; relevanceScore := PrimFloat.one |}
    = str "Labs (lab_result, section 3)".
Proof. vm_compute. reflexivity. Qed.

(** A source file, when there is one and its name is not empty, replaces the
    document type. *)
Example citation_source_file :
  generateCitation
    {| chunk := {| dc_id := str "labs_chunk_2"; dc_document_id := str "labs";
                   dc_document_title := str "Labs"; dc_chunk_text := str "HDL 52";
                   dc_chunk_index := 2; dc_document_type := str "lab_result";
                   dc_source_file := Some (str "labs.pdf"); dc_created_at := 0 |};
       relevanceScore := PrimFloat.one |}
    = str "Labs (labs.pdf, section 3)".
Proof. vm_compute. reflexivity. Qed.

Section EmptyContent.
Variable num : Type.
Context `{Number num}.
Variable Math_sin : num -> num.
Variable env : Env num.

(** Scenario "empty content": no chunk is created and the store is left as
    it was. *)
Lemma addDocument_empty_content (document : Document) (w : World num) :
  content document = [] ->
  addDocument Math_sin env document w = (Ok {| success := true; chunksCreated := 0 |}, w).
Proof.
  intros Hempty. unfold addDocument, try_catch, bind. rewrite Hempty. reflexivity.
Qed.

End EmptyContent.

(** * Further properties of the engine and of its use *)

(** ** Blank texts *)

Lemma split_go_spaces (s : jsstring) : forall b,
  Forall (fun c => is_space c = true) s -> Forall (fun w => w = []) (split_go b s).
Proof.
  induction s as [|c s IH]; intros b Hall; simpl.
  - repeat constructor.
  - inversion Hall as [|? ? Hc Hs]; subst. rewrite Hc.
    destruct b; [apply IH; exact Hs|].
    constructor; [reflexivity|apply IH; exact Hs].
Qed.

Lemma split_go_nonspace (s : jsstring) : forall b,
  Exists (fun c => is_space c = false) s -> Exists (fun w => w <> []) (split_go b s).
Proof.
  induction s as [|c s IH]; intros b Hex; [inversion Hex|].
  simpl. destruct (is_space c) eqn:Hc.
  - inversion Hex as [? ? Hc'|? ? Hs]; subst; [congruence|].
    destruct b; [apply IH; exact Hs|]. apply Exists_cons_tl. apply IH. exact Hs.
  - destruct (split_go false s); apply Exists_cons_hd; discriminate.
Qed.

Lemma filter_nonempty_nil (l : list jsstring) :
  Forall (fun w => w = []) l -> filter nonempty l = [].
Proof.
  induction l as [|w l IH]; intros Hall; [reflexivity|].
  inversion Hall; subst. simpl. apply IH. assumption.
Qed.

Lemma spaces_or_not (s : jsstring) :
  Forall (fun c => is_space c = true) s \/ Exists (fun c => is_space c = false) s.
Proof.
  induction s as [|c s [IH|IH]].
  - left. constructor.
  - destruct (is_space c) eqn:Hc.
    + left. constructor; assumption.
    + right. apply Exists_cons_hd. exact Hc.
  - right. apply Exists_cons_tl. exact IH.
Qed.

(** ** The windows of [chunkText] *)

Lemma chunk_loop_complete (fuel : nat) (words : list jsstring) (size step : nat) :
  0 < step -> forall i j,
  j < fuel -> i + j * step < length words ->
  trim (join [" "%char] (slice words (i + j * step) (i + j * step + size))) <> [] ->
  In {| text := trim (join [" "%char] (slice words (i + j * step) (i + j * step + size)));
        index := (i + j * step) / step |}
     (chunk_loop fuel words size step i).
Proof.
  intros Hstep. induction fuel as [|fuel IH]; intros i j Hj Hlen Hne; [lia|].
  simpl. assert (Hi : (i <? length words) = true) by (apply Nat.ltb_lt; lia).
  rewrite Hi. apply in_or_app. destruct j as [|j].
  - left. simpl in *. rewrite Nat.add_0_r in *.
    destruct (trim (join [" "%char] (slice words i (i + size)))); [congruence|].
    left. reflexivity.
  - right. replace (i + S j * step) with (i + step + j * step) in * by lia.
    apply IH; [lia|exact Hlen|exact Hne].
Qed.

Lemma slice_In {A} (l : list A) (i j k : nat) (x : A) :
  nth_error l k = Some x -> i <= k < j -> In x (slice l i j).
Proof.
  intros Hnth Hk. unfold slice.
  apply nth_error_In with (n := k - i).
  rewrite nth_error_firstn.
  assert (Hlt : (k - i <? j - i) = true) by (apply Nat.ltb_lt; lia).
  rewrite Hlt, nth_error_skipn.
  replace (i + (k - i)) with k by lia. exact Hnth.
Qed.

(** A window that holds a word does not trim to the empty string. *)
Lemma window_not_blank (l : list jsstring) (w : jsstring) :
  shaped l -> In w l -> w <> [] -> trim (join [" "%char] l) <> [].
Proof.
  intros Hl Hin Hw.
  destruct (trim_join_shaped Hl) as [Hwords ->].
  assert (Hf : In w (filter nonempty l))
    by (apply filter_In; split; [exact Hin|destruct w; [congruence|reflexivity]]).
  destruct (join_words_head Hwords) as (c & s & -> & _); [|discriminate].
  intros Heq. rewrite Heq in Hf. contradiction.
Qed.

(** ** [chunkText] with any window and overlap *)

Section Windows.
Variables maxChunkSize overlap : nat.
Hypothesis overlap_lt : overlap < maxChunkSize.

Lemma In_chunkText_with (content : jsstring) (c : Chunk) :
  In c (chunkText_with content maxChunkSize overlap) ->
  index c * (maxChunkSize - overlap) < length (split_ws content) /\
  text c = trim (join [" "%char]
                   (slice (split_ws content)
                          (index c * (maxChunkSize - overlap))
                          (index c * (maxChunkSize - overlap) + maxChunkSize))) /\
  text c <> [].
Proof.
  unfold chunkText_with. intros Hc. apply In_chunk_loop in Hc.
  destruct Hc as (j & Hlen & Htext & Hne & Hidx). cbn [Nat.add] in *.
  rewrite Nat.div_mul in Hidx by lia. subst j. auto.
Qed.

Lemma chunkText_with_words (content : jsstring) (c : Chunk) :
  In c (chunkText_with content maxChunkSize overlap) ->
  Forall is_word (split_ws (text c)) /\
  text c = join [" "%char] (split_ws (text c)) /\
  split_ws (text c) =
    filter nonempty (slice (split_ws content)
                           (index c * (maxChunkSize - overlap))
                           (index c * (maxChunkSize - overlap) + maxChunkSize)).
Proof.
  intros Hc. apply In_chunkText_with in Hc. destruct Hc as (_ & Htext & Hne).
  set (window := slice (split_ws content) (index c * (maxChunkSize - overlap))
                       (index c * (maxChunkSize - overlap) + maxChunkSize)) in *.
  assert (Hshape : shaped window) by apply shaped_slice, split_ws_shaped.
  destruct (trim_join_shaped Hshape) as [Hall Htrim]. rewrite Htrim in Htext.
  assert (Hwords : split_ws (text c) = filter nonempty window).
  { rewrite Htext. apply split_ws_join; [exact Hall|].
    intros Hnil. apply Hne. rewrite Htext, Hnil. reflexivity. }
  rewrite Hwords. split; [exact Hall|]. split; [exact Htext|reflexivity].
Qed.

Lemma chunkText_with_window (content : jsstring) (j k : nat) (w : jsstring) :
  nth_error (split_ws content) k = Some w -> w <> [] ->
  j * (maxChunkSize - overlap) <= k < j * (maxChunkSize - overlap) + maxChunkSize ->
  In {| text := trim (join [" "%char]
                        (slice (split_ws content)
                               (j * (maxChunkSize - overlap))
                               (j * (maxChunkSize - overlap) + maxChunkSize)));
        index := j |}
     (chunkText_with content maxChunkSize overlap).
Proof.
  intros Hnth Hw Hk.
  assert (Hlen : k < length (split_ws content))
    by (apply nth_error_Some; congruence).
  assert (Hj : j < length (split_ws content)) by nia.
  pose proof (@chunk_loop_complete (length (split_ws content)) (split_ws content)
                maxChunkSize (maxChunkSize - overlap) ltac:(lia) 0 j Hj ltac:(lia)) as Hc.
  cbn [Nat.add] in Hc. rewrite Nat.div_mul in Hc by lia.
  apply Hc.
  apply window_not_blank with (w := w); [apply shaped_slice, split_ws_shaped| |exact Hw].
  apply slice_In with (k := k); assumption.
Qed.

End Windows.

(** X1: whatever the window and the overlap below it, a text gives no chunk
    exactly when it is empty or white space only. *)
Theorem chunkText_blank (content : jsstring) (maxChunkSize overlap : nat) :
  overlap < maxChunkSize ->
  (chunkText_with content maxChunkSize overlap = [] <->
   Forall (fun c => is_space c = true) content).
Proof.
  intros Hlt. split.
  - intros Hnil. destruct (spaces_or_not content) as [Hs|Hex]; [exact Hs|exfalso].
    apply (split_go_nonspace false) in Hex. apply Exists_exists in Hex.
    destruct Hex as (w & Hin & Hw). apply In_nth_error in Hin. destruct Hin as [k Hk].
    pose proof (@chunkText_with_window maxChunkSize overlap Hlt content
                  (k / (maxChunkSize - overlap)) k w Hk Hw) as Hc.
    rewrite Hnil in Hc. apply Hc.
    pose proof (Nat.div_mod_eq k (maxChunkSize - overlap)).
    pose proof (Nat.mod_upper_bound k (maxChunkSize - overlap)). nia.
  - intros Hs.
    destruct (chunkText_with content maxChunkSize overlap) as [|c l] eqn:Hchunks;
      [reflexivity|exfalso].
    assert (Hin : In c (chunkText_with content maxChunkSize overlap))
      by (rewrite Hchunks; left; reflexivity).
    destruct (chunkText_with_words Hlt content c Hin) as (Hwords & Htext & Hsplit).
    apply (In_chunkText_with Hlt) in Hin. destruct Hin as (_ & _ & Hne).
    apply Hne. rewrite Htext, Hsplit.
    rewrite filter_nonempty_nil; [reflexivity|].
    apply Forall_forall. intros w Hw. apply In_slice in Hw. destruct Hw as (k & _ & Hk).
    apply nth_error_In in Hk.
    pose proof (split_go_spaces false Hs) as Hall. rewrite Forall_forall in Hall.
    apply Hall. exact Hk.
Qed.

Lemma chunkText_blank_witness :
  chunkText_with (content doc_blank) 1000 200 = [] <->
  Forall (fun c => is_space c = true) (content doc_blank).
Proof. apply (@chunkText_blank (content doc_blank) 1000 200). lia. Defined.

(** X2: no word of the text is lost: the word at position [k] of the split
    text is a word of the chunk of ordinal [k / (maxChunkSize - overlap)]. *)
Theorem chunkText_covers (content : jsstring) (maxChunkSize overlap k : nat) (w : jsstring) :
  overlap < maxChunkSize ->
  nth_error (split_ws content) k = Some w -> w <> [] ->
  exists c,
    In c (chunkText_with content maxChunkSize overlap) /\
    index c = k / (maxChunkSize - overlap) /\
    In w (split_ws (text c)).
Proof.
  intros Hlt Hk Hw. set (step := maxChunkSize - overlap).
  assert (Hwin : (k / step) * step <= k < (k / step) * step + maxChunkSize).
  { pose proof (Nat.div_mod_eq k step). pose proof (Nat.mod_upper_bound k step).
    unfold step in *. nia. }
  pose proof (@chunkText_with_window maxChunkSize overlap Hlt content (k / step) k w Hk Hw Hwin)
    as Hc.
  eexists. split; [exact Hc|]. split; [reflexivity|].
  destruct (chunkText_with_words Hlt content _ Hc) as (_ & _ & ->). cbn [index].
  apply filter_In. split.
  - apply slice_In with (k := k); assumption.
  - destruct w; [congruence|reflexivity].
Qed.

Lemma chunkText_covers_witness :
  exists c,
    In c (chunkText numbers_text) /\ index c = 1200 / 800 /\
    In (decimal 1200) (split_ws (text c)).
Proof.
  apply (@chunkText_covers numbers_text 1000 200 1200 (decimal 1200)).
  - lia.
  - vm_compute. reflexivity.
  - discriminate.
Defined.

(** X4: the text of a chunk is normalised: between 1 and [maxChunkSize]
    words, joined by single spaces, with no white space around. *)
Theorem chunkText_normalised (content : jsstring) (maxChunkSize overlap : nat) (c : Chunk) :
  overlap < maxChunkSize ->
  In c (chunkText_with content maxChunkSize overlap) ->
  Forall is_word (split_ws (text c)) /\
  1 <= length (split_ws (text c)) <= maxChunkSize /\
  text c = join [" "%char] (split_ws (text c)) /\
  trim (text c) = text c.
Proof.
  intros Hlt Hc.
  destruct (chunkText_with_words Hlt content c Hc) as (Hall & Htext & Hsplit).
  apply (In_chunkText_with Hlt) in Hc. destruct Hc as (_ & _ & Hne).
  split; [exact Hall|]. split; [|split; [exact Htext|]].
  - split.
    + destruct (split_ws (text c)); [|simpl; lia].
      exfalso. apply Hne. rewrite Htext. reflexivity.
    + rewrite Hsplit.
      set (window := slice _ _ _).
      assert (Hf : length (filter nonempty window) <= length window) by apply filter_length_le.
      assert (Hw : length window <= maxChunkSize).
      { unfold window, slice. rewrite length_firstn. lia. }
      lia.
  - rewrite Htext at 1.
    assert (Hcore : shaped (split_ws (text c))).
    { exists [], (split_ws (text c)), []. rewrite app_nil_r.
      split; [reflexivity|]. split; [left; reflexivity|]. split; [left; reflexivity|exact Hall]. }
    destruct (trim_join_shaped Hcore) as [_ ->].
    rewrite filter_nonempty_words by exact Hall. symmetry. exact Htext.
Qed.

Lemma chunkText_spaced_text :
  chunkText_with spaced_text 1000 200 = [{| text := str "Total cholesterol 180"; index := 0 |}].
Proof. vm_compute. reflexivity. Qed.

Lemma chunkText_normalised_witness :
  Forall is_word (split_ws (str "Total cholesterol 180")) /\
  1 <= length (split_ws (str "Total cholesterol 180")) <= 1000 /\
  str "Total cholesterol 180" = join [" "%char] (split_ws (str "Total cholesterol 180")) /\
  trim (str "Total cholesterol 180") = str "Total cholesterol 180".
Proof.
  assert (Hlt : 200 < 1000) by lia.
  assert (Hin : In {| text := str "Total cholesterol 180"; index := 0 |}
                   (chunkText_with spaced_text 1000 200))
    by (rewrite chunkText_spaced_text; left; reflexivity).
  exact (@chunkText_normalised spaced_text 1000 200
           {| text := str "Total cholesterol 180"; index := 0 |} Hlt Hin).
Defined.

Lemma chunkText_of_spaces (content : jsstring) :
  Forall (fun c => is_space c = true) content -> chunkText content = [].
Proof.
  intros Hs. destruct (chunkText content) as [|c l] eqn:Hchunks; [reflexivity|exfalso].
  assert (Hin : In c (chunkText content)) by (rewrite Hchunks; left; reflexivity).
  apply In_chunkText in Hin. destruct Hin as (_ & Htext & Hne).
  apply Hne. rewrite Htext.
  destruct (trim_join_shaped (shaped_slice (800 * index c) (800 * index c + 1000)
                                (split_ws_shaped content))) as [_ ->].
  rewrite filter_nonempty_nil; [reflexivity|].
  apply Forall_forall. intros w Hw. apply In_slice in Hw. destruct Hw as (k & _ & Hk).
  apply nth_error_In in Hk.
  pose proof (split_go_spaces false Hs) as Hall. rewrite Forall_forall in Hall.
  apply Hall. exact Hk.
Qed.


Lemma chunk_loop_index_sorted (fuel : nat) (words : list jsstring) (size step : nat) :
  0 < step -> forall i, StronglySorted lt (map index (chunk_loop fuel words size step i)).
Proof.
  intros Hstep. induction fuel as [|fuel IH]; intros i; simpl; [constructor|].
  destruct (i <? length words); [|constructor].
  rewrite map_app.
  destruct (trim (join [" "%char] (slice words i (i + size)))); simpl; [apply IH|].
  constructor; [apply IH|].
  apply Forall_forall. intros n Hn. apply in_map_iff in Hn. destruct Hn as (c & <- & Hc).
  apply chunk_loop_index_ge in Hc; [|exact Hstep].
  assert (Hdiv : (i + step) / step = i / step + 1).
  { replace (i + step) with (i + 1 * step) by lia. apply Nat.div_add. lia. }
  lia.
Qed.

(** An increasing list of numbers that holds [n] whenever it holds [n + 1],
    from [a] on, counts from [a]. *)
Lemma sorted_closed_seq (l : list nat) : forall a,
  StronglySorted lt l ->
  Forall (fun n => a <= n) l ->
  (forall n, In (S n) l -> a <= n -> In n l) ->
  l = seq a (length l).
Proof.
  induction l as [|x l IH]; intros a Hs Hge Hclosed; [reflexivity|].
  apply StronglySorted_inv in Hs. destruct Hs as [Hs Hlt].
  rewrite Forall_forall in Hlt.
  inversion Hge as [|? ? Hx Hge']; subst.
  assert (Hxa : x = a).
  { destruct (Nat.eq_dec x a) as [|Hne]; [assumption|exfalso].
    destruct x as [|n]; [lia|].
    destruct (Hclosed n (or_introl eq_refl) ltac:(lia)) as [Heq|Hin]; [lia|].
    apply Hlt in Hin. lia. }
  subst x. simpl. f_equal. apply IH.
  - exact Hs.
  - apply Forall_forall. intros n Hn. apply Hlt in Hn. lia.
  - intros n Hn Hle. destruct (Hclosed n (or_intror Hn) ltac:(lia)) as [Heq|Hin]; [lia|exact Hin].
Qed.

(** Between the first position and a word, a split text holds words only. *)
Lemma interior_word (l : list jsstring) (p q : nat) (w : jsstring) :
  shaped l -> nth_error l q = Some w -> w <> [] -> 1 <= p <= q ->
  exists w', nth_error l p = Some w' /\ w' <> [].
Proof.
  intros Hl Hq Hw Hp.
  assert (Hlen : q < length l) by (apply nth_error_Some; congruence).
  destruct (Nat.eq_dec p q) as [->|Hne]; [exists w; auto|].
  destruct (nth_error l p) as [w'|] eqn:Hnth; [|apply nth_error_None in Hnth; lia].
  exists w'. split; [reflexivity|].
  pose proof (@shaped_interior l p w' Hl Hnth ltac:(lia) ltac:(lia)) as Hnw.
  destruct w'; [discriminate Hnw|discriminate].
Qed.

(** A window that does not trim to the empty string holds a word. *)
Lemma window_word (l : list jsstring) :
  shaped l -> trim (join [" "%char] l) <> [] -> exists w, In w l /\ w <> [].
Proof.
  intros Hl Hne. destruct (trim_join_shaped Hl) as [_ Htrim]. rewrite Htrim in Hne.
  destruct (filter nonempty l) as [|w f] eqn:Hf; [exfalso; apply Hne; reflexivity|].
  assert (Hin : In w (filter nonempty l)) by (rewrite Hf; left; reflexivity).
  apply filter_In in Hin. destruct Hin as [Hin Hw].
  exists w. split; [exact Hin|]. destruct w; [discriminate Hw|discriminate].
Qed.

(** X3: with a window of two words or more, the ordinals of the chunks count
    from 0 without a gap, so that the ids of the chunks of a document are
    [id_chunk_0], [id_chunk_1], ..., all distinct. *)
Theorem chunkText_ordinals (doc_id content : jsstring) (maxChunkSize overlap : nat) :
  overlap < maxChunkSize -> 2 <= maxChunkSize ->
  let chunks := chunkText_with content maxChunkSize overlap in
  map index chunks = seq 0 (length chunks) /\
  map (chunk_id doc_id) chunks =
    map (fun n => doc_id ++ str "_chunk_" ++ decimal n) (seq 0 (length chunks)) /\
  NoDup (map (chunk_id doc_id) chunks).
Proof.
  intros Hlt Hsize chunks.
  set (step := maxChunkSize - overlap).
  assert (Hseq : map index chunks = seq 0 (length chunks)).
  { rewrite <- (length_map index). apply sorted_closed_seq.
    - unfold chunks, chunkText_with. apply chunk_loop_index_sorted. lia.
    - apply Forall_forall. intros n _. lia.
    - intros n Hn _. apply in_map_iff in Hn. destruct Hn as (c & Hidx & Hc).
      apply (In_chunkText_with Hlt) in Hc. destruct Hc as (Hlen & Htext & Hne).
      rewrite Hidx in Hlen, Htext. fold step in Hlen, Htext.
      rewrite Htext in Hne. apply window_word in Hne; [|apply shaped_slice, split_ws_shaped].
      destruct Hne as (w & Hw & Hwne). apply In_slice in Hw. destruct Hw as (q & Hq & Hnth).
      set (p := if (n * step =? 0) then 1 else n * step).
      assert (Hp : 1 <= p <= q /\ n * step <= p < n * step + maxChunkSize).
      { unfold p. destruct (n * step =? 0) eqn:Hz.
        - apply Nat.eqb_eq in Hz. nia.
        - apply Nat.eqb_neq in Hz. nia. }
      destruct (@interior_word (split_ws content) p q w (split_ws_shaped content) Hnth Hwne
                  (proj1 Hp)) as (w' & Hw' & Hw'ne).
      pose proof (@chunkText_with_window maxChunkSize overlap Hlt content n p w' Hw' Hw'ne
                    (proj2 Hp)) as Hc.
      apply in_map_iff. eexists. split; [|exact Hc]. reflexivity. }
  split; [exact Hseq|]. split.
  - rewrite <- Hseq, map_map. reflexivity.
  - apply chunk_id_NoDup. unfold chunks, chunkText_with. apply chunk_loop_index_NoDup. lia.
Qed.

Lemma chunkText_ordinals_witness :
  map index (chunkText_with numbers_text 1000 200) =
    seq 0 (length (chunkText_with numbers_text 1000 200)) /\
  map (chunk_id (str "labs")) (chunkText_with numbers_text 1000 200) =
    map (fun n => str "labs" ++ str "_chunk_" ++ decimal n)
        (seq 0 (length (chunkText_with numbers_text 1000 200))) /\
  NoDup (map (chunk_id (str "labs")) (chunkText_with numbers_text 1000 200)).
Proof.
  assert (Hlt : 200 < 1000) by lia.
  assert (Hsize : 2 <= 1000) by lia.
  exact (@chunkText_ordinals (str "labs") numbers_text 1000 200 Hlt Hsize).
Defined.

(** With a window of one word, white space before the first word makes the
    ordinals begin at 1. *)
Example chunkText_one_word_windows :
  map index (chunkText_with (str " a") 1 0) = [1].
Proof. reflexivity. Qed.

(** X5: a text of at most [maxChunkSize - overlap] words is one chunk, the
    text with its white space normalised. *)
Theorem chunkText_short (content : jsstring) (maxChunkSize overlap : nat) :
  overlap < maxChunkSize ->
  length (split_ws content) <= maxChunkSize - overlap ->
  chunkText_with content maxChunkSize overlap =
    match join [" "%char] (filter nonempty (split_ws content)) with
    | [] => []
    | (_ :: _) as t => [{| text := t; index := 0 |}]
    end.
Proof.
  intros Hlt Hlen. unfold chunkText_with.
  pose proof (split_ws_shaped content) as Hshape.
  assert (Hpos : length (split_ws content) <> 0).
  { pose proof (@split_go_not_nil false content) as Hne. unfold split_ws.
    destruct (split_go false content); [congruence|discriminate]. }
  set (W := split_ws content) in *. set (step := maxChunkSize - overlap) in *.
  destruct (length W) as [|n] eqn:HW; [congruence|].
  cbn [chunk_loop]. rewrite HW. cbn [Nat.ltb Nat.leb].
  assert (Hslice : slice W 0 (0 + maxChunkSize) = W).
  { unfold slice. cbn [skipn]. apply firstn_all2. lia. }
  rewrite Hslice. destruct (trim_join_shaped Hshape) as [_ ->].
  assert (Hrest : chunk_loop n W maxChunkSize step (0 + step) = []).
  { destruct n as [|n]; [reflexivity|]. cbn [chunk_loop]. rewrite HW.
    assert (Hout : (0 + step <? S (S n)) = false) by (apply Nat.ltb_ge; lia).
    rewrite Hout. reflexivity. }
  rewrite Hrest, app_nil_r.
  destruct (join [" "%char] (filter nonempty W)); [reflexivity|].
  cbn [app]. rewrite Nat.Div0.div_0_l. reflexivity.
Qed.

Lemma chunkText_short_witness :
  chunkText_with spaced_text 1000 200 = [{| text := str "Total cholesterol 180"; index := 0 |}].
Proof.
  assert (Hlt : 200 < 1000) by lia.
  assert (Hlen : length (split_ws spaced_text) <= 1000 - 200) by (vm_compute; lia).
  exact (@chunkText_short spaced_text 1000 200 Hlt Hlen).
Defined.

(** ** Windows that overlap, for any window and overlap *)

(** X26: when the overlap is at most half the window, the last [overlap]
    words of a chunk are the first [overlap] words of the chunk of the next
    ordinal, unless that one is the final chunk. *)
Theorem chunkText_overlap_any_window (content : jsstring) (maxChunkSize overlap : nat)
    (ci cj ck : Chunk) :
  2 * overlap <= maxChunkSize -> 0 < maxChunkSize ->
  In ci (chunkText_with content maxChunkSize overlap) ->
  In cj (chunkText_with content maxChunkSize overlap) ->
  In ck (chunkText_with content maxChunkSize overlap) ->
  index cj = S (index ci) -> index cj < index ck ->
  lastn overlap (split_ws (text ci)) = firstn overlap (split_ws (text cj)).
Proof.
  intros Hhalf Hsize Hi Hj Hk Hnext Hlater.
  assert (Hlt : overlap < maxChunkSize) by lia.
  destruct (chunkText_with_words Hlt content ci Hi) as (_ & _ & ->).
  destruct (chunkText_with_words Hlt content cj Hj) as (_ & _ & ->).
  apply (In_chunkText_with Hlt) in Hk. destruct Hk as (Hk & _ & _).
  pose proof (split_ws_shaped content) as Hshape.
  set (W := split_ws content) in *. set (step := maxChunkSize - overlap) in *.
  set (a := index ci * step) in *.
  assert (Hlen : a + 2 * step < length W) by (unfold a; nia).
  replace (index cj * step) with (a + step) by (unfold a; nia).
  set (V := slice W (a + step) (a + step + overlap)).
  assert (HV : filter nonempty V = V)
    by (apply filter_nonempty_interior; [exact Hshape|lia|lia]).
  assert (HlenV : length V = overlap)
    by (unfold V; rewrite length_slice by lia; lia).
  replace (a + maxChunkSize) with (a + (step + overlap)) by lia.
  replace (a + step + maxChunkSize) with (a + step + (overlap + step)) by lia.
  rewrite !slice_split. fold V.
  rewrite !filter_app, HV.
  rewrite lastn_app_exact by exact HlenV.
  rewrite firstn_app_exact by exact HlenV.
  reflexivity.
Qed.

Lemma chunkText_overlap_any_window_witness :
  lastn 1 (split_ws (str "a b c")) = firstn 1 (split_ws (str "c d e")).
Proof.
  assert (Hchunks : chunkText_with (str "a b c d e f g") 3 1 =
                    [{| text := str "a b c"; index := 0 |};
                     {| text := str "c d e"; index := 1 |};
                     {| text := str "e f g"; index := 2 |};
                     {| text := str "g"; index := 3 |}]) by reflexivity.
  apply (@chunkText_overlap_any_window (str "a b c d e f g") 3 1
           {| text := str "a b c"; index := 0 |}
           {| text := str "c d e"; index := 1 |}
           {| text := str "e f g"; index := 2 |}).
  - lia.
  - lia.
  - rewrite Hchunks. left. reflexivity.
  - rewrite Hchunks. right. left. reflexivity.
  - rewrite Hchunks. right. right. left. reflexivity.
  - reflexivity.
  - cbn [index]. lia.
Defined.

(** With an overlap of more than half the window the chunks before the final
    one can be short: here the second of three chunks has three words, fewer
    than the overlap of eight. *)
Example chunkText_wide_overlap :
  map (fun c => split_ws (text c)) (chunkText_with (str "a b c d e") 10 8) =
    [[str "a"; str "b"; str "c"; str "d"; str "e"];
     [str "c"; str "d"; str "e"];
     [str "e"]] /\
  lastn 8 (split_ws (str "a b c d e")) <> firstn 8 (split_ws (str "c d e")).
Proof. split; [reflexivity|discriminate]. Qed.

(** ** Cosine similarity: symmetry *)

Section CosineSymmetry.
Variable num : Type.
Context `{Number num}.
Hypothesis nmul_comm : forall x y : num, nmul x y = nmul y x.

Lemma cosine_loop_swap (a : list num) : forall b dot na nb,
  length a = length b ->
  cosine_loop b a dot nb na =
    (let '(d, x, y) := cosine_loop a b dot na nb in (d, y, x)).
Proof.
  induction a as [|u a IH]; intros [|v b] dot na nb Hlen; simpl in *; try discriminate.
  - reflexivity.
  - rewrite (nmul_comm v u). apply IH. lia.
Qed.

Lemma cosineSimilarity_swap (a b : jsval num) :
  cosineSimilarity a b = cosineSimilarity b a.
Proof.
  destruct a as [a|], b as [b|]; try reflexivity. unfold cosineSimilarity.
  destruct (length a =? length b) eqn:Hlen.
  - apply Nat.eqb_eq in Hlen. rewrite <- Hlen, Nat.eqb_refl. cbn [negb].
    rewrite (cosine_loop_swap a b nzero nzero nzero Hlen).
    destruct (cosine_loop a b nzero nzero nzero) as [[d x] y].
    rewrite orb_comm, (nmul_comm (nsqrt y) (nsqrt x)). reflexivity.
  - rewrite Nat.eqb_sym, Hlen. reflexivity.
Qed.

End CosineSymmetry.

Lemma SFmul_comm (prec emax : Z) (x y : SpecFloat.spec_float) :
  SpecFloat.SFmul prec emax x y = SpecFloat.SFmul prec emax y x.
Proof.
  destruct x as [sx|sx| |sx mx ex], y as [sy|sy| |sy my ey]; simpl;
    try reflexivity; try (rewrite xorb_comm; reflexivity).
  rewrite xorb_comm, Pos.mul_comm, Z.add_comm. reflexivity.
Qed.

Lemma float_mul_comm (x y : float) : PrimFloat.mul x y = PrimFloat.mul y x.
Proof.
  apply FloatAxioms.Prim2SF_inj. rewrite !FloatAxioms.mul_spec. apply SFmul_comm.
Qed.

(** X6: the similarity does not depend on the order of its arguments, on
    binary64 numbers as in exact arithmetic. *)
Theorem cosineSimilarity_symmetric :
  (forall a b : jsval float, cosineSimilarity a b = cosineSimilarity b a) /\
  (forall a b : jsval R, cosineSimilarity a b = cosineSimilarity b a).
Proof.
  split; intros a b.
  - apply cosineSimilarity_swap. exact float_mul_comm.
  - apply cosineSimilarity_swap. exact Rmult_comm.
Qed.

(** ** The deterministic vector *)

(** X8: the deterministic vector of any text, the empty one included, has 256
    components, each between 0 and 1 in exact arithmetic. *)
Theorem pseudo_embedding_range (text : jsstring) :
  length (pseudo_embedding R_sin text) = 256 /\
  Forall (fun x => (0 <= x <= 1)%R) (pseudo_embedding R_sin text).
Proof.
  split; [apply length_pseudo_embedding|].
  unfold pseudo_embedding. apply Forall_forall. intros x Hx.
  apply in_map_iff in Hx. destruct Hx as (i & <- & _).
  unfold R_sin, n_one, nofZ, nadd, ndiv. cbn [R_Number].
  set (a := IZR (Z.of_nat (nth (i mod length text) (map nat_of_ascii text) 0 + i))).
  pose proof (SIN_bound a) as [Hlo Hhi]. lra.
Qed.

(** X9: the deterministic vector reads the first 256 code units only: two
    texts of 256 code units or more that agree on them have the same
    vector. *)
Theorem pseudo_embedding_prefix (num : Type) `{Number num} (Math_sin : num -> num)
    (s t : jsstring) :
  256 <= length s -> 256 <= length t -> firstn 256 s = firstn 256 t ->
  pseudo_embedding Math_sin s = pseudo_embedding Math_sin t.
Proof.
  intros Hs Ht Heq. unfold pseudo_embedding. apply map_ext_in.
  intros i Hi. apply in_seq in Hi.
  rewrite !Nat.mod_small by lia.
  assert (Hnth : forall u : jsstring, nth i (map nat_of_ascii u) 0 =
                                      nth i (map nat_of_ascii (firstn 256 u)) 0).
  { intros u. rewrite <- (firstn_skipn 256 u) at 1. rewrite map_app.
    destruct (Nat.lt_ge_cases i (length (map nat_of_ascii (firstn 256 u)))) as [Hlt|Hge].
    - apply app_nth1. exact Hlt.
    - rewrite length_map, length_firstn in Hge.
      assert (Hu : length u <= i) by lia.
      rewrite (nth_overflow (map nat_of_ascii (firstn 256 u)))
        by (rewrite length_map, length_firstn; lia).
      apply nth_overflow. rewrite length_app, !length_map, length_firstn, length_skipn. lia. }
  rewrite (Hnth s), (Hnth t), Heq. reflexivity.
Qed.

Lemma pseudo_embedding_prefix_witness :
  pseudo_embedding R_sin (long_text "b") = pseudo_embedding R_sin (long_text "c").
Proof.
  apply (@pseudo_embedding_prefix R _ R_sin (long_text "b") (long_text "c")).
  - vm_compute. lia.
  - vm_compute. lia.
  - reflexivity.
Defined.

(** ** Runs of [search] and [getContext] in closed form *)

Section Retrieval.
Variable num : Type.
Context `{Number num}.
Variable Math_sin : num -> num.
Variable env : Env num.

Lemma search_run query limit threshold (w : World num) :
  search Math_sin env query limit threshold w =
    (Ok (if db_fails env (read_step env w) then []
         else rank (score_rows (embedding_at Math_sin env (steps w) query)
                               (select_chunks_with_embeddings (store w)))
                   limit threshold),
     {| store := store w; steps := S (read_step env w) |}).
Proof.
  unfold search, try_catch, bind. rewrite generateEmbedding_at.
  unfold db_all, read_step, tick. cbn [steps store].
  destruct (db_fails env (after_embedding env (steps w))); reflexivity.
Qed.

Lemma getContext_run query maxTokens (w : World num) :
  getContext Math_sin env query maxTokens w =
    (Ok (accumulate
           (if db_fails env (read_step env w) then []
            else rank (score_rows (embedding_at Math_sin env (steps w) query)
                                  (select_chunks_with_embeddings (store w)))
                      10 default_threshold)
           maxTokens (empty_context num)),
     {| store := store w; steps := S (read_step env w) |}).
Proof.
  unfold getContext, bind. rewrite search_run. reflexivity.
Qed.

(** X11: retrieval reads only: [search] and [getContext] leave both tables as
    they are, whatever the provider and the database do. *)
Theorem retrieval_reads_only query limit threshold maxTokens (w : World num) :
  store (snd (search Math_sin env query limit threshold w)) = store w /\
  store (snd (getContext Math_sin env query maxTokens w)) = store w.
Proof.
  rewrite search_run, getContext_run. split; reflexivity.
Qed.

Lemma In_select (s : Store num) (row : JoinedRow num) :
  In row (select_chunks_with_embeddings s) ->
  In (row_chunk row) (document_chunks s) /\
  exists e, In e (embeddings s) /\ e_id e = dc_id (row_chunk row) /\
            e_content_embedding e = row_embedding row.
Proof.
  unfold select_chunks_with_embeddings. intros Hin.
  apply in_flat_map in Hin. destruct Hin as (e & He & Hin).
  apply in_map_iff in Hin. destruct Hin as (dc & <- & Hdc).
  apply filter_In in Hdc. destruct Hdc as [Hdc Hid]. apply jsstring_eqb_eq in Hid.
  split; [exact Hdc|]. exists e. auto.
Qed.

(** X12: every record [search] returns is a stored chunk that has an embedding
    row of its id, one that parses; a chunk without it is never returned.
    The citation of the record is the one [generateCitation] gives. *)
Theorem search_results_stored query limit threshold (w : World num) :
  exists results w',
    search Math_sin env query limit threshold w = (Ok results, w') /\
    forall r, In r results ->
      In (chunk (scored r)) (document_chunks (store w)) /\
      (exists e, In e (embeddings (store w)) /\
                 e_id e = dc_id (chunk (scored r)) /\
                 JSON_parse (e_content_embedding e) <> None) /\
      citation r = generateCitation (scored r).
Proof.
  eexists _, _. split; [apply search_run|].
  intros r Hr. destruct (db_fails env (read_step env w)); [contradiction|].
  apply In_rank in Hr. destruct Hr as (Hr & _ & Hcit).
  apply In_score_rows in Hr. destruct Hr as (row & emb & Hrow & Hparse & Heq).
  apply In_select in Hrow. destruct Hrow as (Hdc & e & He & Hid & Hemb).
  rewrite Heq. cbn [chunk]. split; [exact Hdc|]. split; [|rewrite <- Heq; exact Hcit].
  exists e. split; [exact He|]. split; [exact Hid|]. rewrite Hemb, Hparse. discriminate.
Qed.

Lemma rank_firstn (rows : list (Scored num)) (k k' : Z) (threshold : num) :
  (0 <= k <= k')%Z ->
  rank rows k threshold = firstn (Z.to_nat k) (rank rows k' threshold).
Proof.
  intros Hk. unfold rank, slice_to.
  assert (Hk0 : (k <? 0)%Z = false) by (apply Z.ltb_ge; lia).
  assert (Hk'0 : (k' <? 0)%Z = false) by (apply Z.ltb_ge; lia).
  rewrite Hk0, Hk'0. rewrite firstn_map, firstn_firstn.
  replace (Nat.min (Z.to_nat k) (Z.to_nat k')) with (Z.to_nat k) by lia.
  reflexivity.
Qed.

(** X13: a larger limit only appends: for [0 <= k <= k'] the records returned
    with limit [k] are the first [k] of those returned with limit [k']. *)
Theorem search_limit_prefix query (k k' : Z) threshold (w : World num) :
  (0 <= k <= k')%Z ->
  exists fewer more w',
    search Math_sin env query k threshold w = (Ok fewer, w') /\
    search Math_sin env query k' threshold w = (Ok more, w') /\
    fewer = firstn (Z.to_nat k) more.
Proof.
  intros Hk. eexists _, _, _. split; [apply search_run|]. split; [apply search_run|].
  destruct (db_fails env (read_step env w)); [rewrite firstn_nil; reflexivity|].
  apply rank_firstn. exact Hk.
Qed.

End Retrieval.

Lemma search_limit_prefix_witness :
  exists fewer more w',
    search R_sin env_unit (str "note") 1 default_threshold (world_of two_chunks)
      = (Ok fewer, w') /\
    search R_sin env_unit (str "note") 5 default_threshold (world_of two_chunks)
      = (Ok more, w') /\
    fewer = firstn 1 more.
Proof.
  apply (@search_limit_prefix R _ R_sin env_unit (str "note") 1 5 default_threshold
           (world_of two_chunks)).
  lia.
Defined.

(** ** Scores that are not numbers *)

Lemma float_leb_not_nan (x y : float) :
  PrimFloat.leb x y = true -> PrimFloat.is_nan y = false.
Proof.
  rewrite FloatAxioms.leb_spec. intros Hle. apply SFleb_not_nan_r in Hle.
  unfold PrimFloat.is_nan. rewrite FloatAxioms.eqb_spec. unfold SpecFloat.SFeqb.
  rewrite (SFcompare_refl _ Hle). reflexivity.
Qed.

(** X14: on binary64 numbers [search] never returns a record whose score is
    NaN, although [cosineSimilarity] can compute one. *)
Theorem search_scores_not_nan (Math_sin : float -> float) (env : Env float)
    (query : jsstring) (limit : Z) (threshold : float) (w : World float) :
  exists results w',
    search Math_sin env query limit threshold w = (Ok results, w') /\
    forall r, In r results -> PrimFloat.is_nan (relevanceScore (scored r)) = false.
Proof.
  destruct (search_bounds Math_sin env query limit threshold w)
    as (results & w' & Hs & Hscore & _).
  exists results, w'. split; [exact Hs|].
  intros r Hr. apply Hscore in Hr.
  apply float_leb_not_nan with (x := threshold). exact Hr.
Qed.

(** ** The context [getContext] assembles *)

Section Assembly.
Variable num : Type.
Context `{Number num}.
Variable Math_sin : num -> num.
Variable env : Env num.

Lemma accumulate_context (results : list (SearchResult num)) (maxTokens : Z) :
  forall acc,
    context (accumulate results maxTokens acc) =
      context acc ++ concat (map (@source_block num) (taken results maxTokens (tokenCount acc))).
Proof.
  induction results as [|r results IH]; intros acc; cbn [accumulate taken].
  - cbn [map concat]. rewrite app_nil_r. reflexivity.
  - destruct (tokenCount acc + estimate_tokens (dc_chunk_text (chunk (scored r))) >? maxTokens)%Z.
    + cbn [map concat]. rewrite app_nil_r. reflexivity.
    + rewrite IH. cbn [append_result context tokenCount map concat].
      unfold source_block. rewrite <- !app_assoc. reflexivity.
Qed.

Lemma chunk_chars_cost (l : list (SearchResult num)) :
  (chunk_chars l <= 4 * total_cost l)%Z.
Proof.
  unfold chunk_chars, total_cost. induction l as [|r l IH]; cbn [map fold_right]; [lia|].
  pose proof (estimate_tokens_ceiling (dc_chunk_text (chunk (scored r)))) as Hc.
  unfold cost_of at 1. lia.
Qed.

Lemma taken_budget_prefix (results : list (SearchResult num)) (m m' : Z) :
  (m <= m')%Z -> forall tokens,
  exists rest, taken results m' tokens = taken results m tokens ++ rest.
Proof.
  intros Hm. induction results as [|r results IH]; intros tokens; cbn [taken].
  - exists []. reflexivity.
  - destruct (tokens + estimate_tokens (dc_chunk_text (chunk (scored r))) >? m)%Z eqn:Hc;
      [eexists; reflexivity|].
    assert (Hc' : (tokens + estimate_tokens (dc_chunk_text (chunk (scored r))) >? m')%Z = false).
    { destruct (Z.gtb_spec (tokens + estimate_tokens (dc_chunk_text (chunk (scored r)))) m);
        [discriminate|].
      destruct (Z.gtb_spec (tokens + estimate_tokens (dc_chunk_text (chunk (scored r)))) m');
        [lia|reflexivity]. }
    rewrite Hc'.
    destruct (IH (tokens + estimate_tokens (dc_chunk_text (chunk (scored r))))%Z) as [rest ->].
    exists rest. reflexivity.
Qed.

(** X15: the context is the concatenation of one block per citation, in the
    order of the citations: two line breaks, the citation between
    [[Source: ] and []], a line break and the text of the chunk.  It is the
    empty string exactly when there is no citation. *)
Theorem getContext_blocks query maxTokens (w : World num) :
  exists included c w',
    getContext Math_sin env query maxTokens w = (Ok c, w') /\
    citations c = map (@citation_of num) included /\
    context c = concat (map (@source_block num) included) /\
    (context c = [] <-> citations c = []).
Proof.
  pose proof (getContext_run Math_sin env query maxTokens w) as Hrun.
  set (results := if db_fails env (read_step env w) then [] else _) in Hrun.
  exists (taken results maxTokens 0). eexists _, _. split; [exact Hrun|].
  destruct (accumulate_taken results maxTokens (empty_context num)) as [Hcit _].
  pose proof (accumulate_context results maxTokens (empty_context num)) as Hctx.
  cbn [empty_context citations context tokenCount app] in Hcit, Hctx.
  rewrite Hcit, Hctx. split; [reflexivity|]. split; [reflexivity|].
  destruct (taken results maxTokens 0) as [|r l]; [split; reflexivity|].
  split; discriminate.
Qed.

Lemma context_chars (l : list (SearchResult num)) :
  Z.of_nat (length (concat (map (@source_block num) l))) =
    (chunk_chars l + source_chars (map (@citation_of num) l))%Z.
Proof.
  unfold chunk_chars, source_chars.
  induction l as [|r l IH]; cbn [map concat fold_right]; [reflexivity|].
  rewrite length_app, Nat2Z.inj_add, IH.
  unfold source_block at 1. rewrite !length_app. cbn [citation_of cit_citation].
  change (length (str "

[Source: ")) with 11%nat. change (length (str "]
")) with 2%nat. lia.
Qed.

Lemma chunk_chars_cost_lower (l : list (SearchResult num)) :
  (4 * total_cost l - 3 * Z.of_nat (length l) <= chunk_chars l)%Z.
Proof.
  unfold chunk_chars, total_cost. induction l as [|r l IH]; cbn [map fold_right length]; [lia|].
  pose proof (estimate_tokens_ceiling (dc_chunk_text (chunk (scored r)))) as Hc.
  unfold cost_of at 1. lia.
Qed.

(** X16: the budget bounds the code units of chunk text in the context, not
    those of the source lines.  What the context holds beyond its source
    lines (13 code units and the citation, for every citation returned) is
    at most [4 * tokenCount] code units, and less than that by at most 3 for
    every citation; for [maxTokens >= 0] it is at most [4 * maxTokens]. *)
Theorem getContext_chunk_characters query maxTokens (w : World num) :
  (0 <= maxTokens)%Z ->
  exists c w',
    getContext Math_sin env query maxTokens w = (Ok c, w') /\
    (4 * tokenCount c - 3 * Z.of_nat (length (citations c))
       <= Z.of_nat (length (context c)) - source_chars (citations c)
       <= 4 * tokenCount c)%Z /\
    (Z.of_nat (length (context c)) - source_chars (citations c) <= 4 * maxTokens)%Z.
Proof.
  intros Hpos.
  pose proof (getContext_run Math_sin env query maxTokens w) as Hrun.
  set (results := if db_fails env (read_step env w) then [] else _) in Hrun.
  eexists _, _. split; [exact Hrun|].
  destruct (accumulate_taken results maxTokens (empty_context num)) as [Hcit Htok].
  pose proof (accumulate_context results maxTokens (empty_context num)) as Hctx.
  cbn [empty_context citations context tokenCount app] in Hcit, Htok, Hctx.
  rewrite Hcit, Htok, Hctx, context_chars, length_map.
  pose proof (chunk_chars_cost (taken results maxTokens 0)) as Hchars.
  pose proof (chunk_chars_cost_lower (taken results maxTokens 0)) as Hlower.
  pose proof (@taken_within_budget num results maxTokens 0 Hpos) as Hle.
  lia.
Qed.

(** X17: a larger budget only appends: for [maxTokens <= maxTokens'] the
    citations and the context obtained with [maxTokens] begin those obtained
    with [maxTokens']. *)
Theorem getContext_budget_prefix query (maxTokens maxTokens' : Z) (w : World num) :
  (maxTokens <= maxTokens')%Z ->
  exists c c' w' more_citations more_context,
    getContext Math_sin env query maxTokens w = (Ok c, w') /\
    getContext Math_sin env query maxTokens' w = (Ok c', w') /\
    citations c' = citations c ++ more_citations /\
    context c' = context c ++ more_context /\
    (tokenCount c <= tokenCount c')%Z.
Proof.
  intros Hm.
  pose proof (getContext_run Math_sin env query maxTokens w) as Hrun.
  pose proof (getContext_run Math_sin env query maxTokens' w) as Hrun'.
  set (results := if db_fails env (read_step env w) then [] else _) in Hrun, Hrun'.
  destruct (accumulate_taken results maxTokens (empty_context num)) as [Hcit Htok].
  destruct (accumulate_taken results maxTokens' (empty_context num)) as [Hcit' Htok'].
  pose proof (accumulate_context results maxTokens (empty_context num)) as Hctx.
  pose proof (accumulate_context results maxTokens' (empty_context num)) as Hctx'.
  cbn [empty_context citations context tokenCount app] in Hcit, Hcit', Htok, Htok', Hctx, Hctx'.
  destruct (@taken_budget_prefix results maxTokens maxTokens' Hm 0%Z) as [rest Hrest].
  eexists _, _, _, (map (@citation_of num) rest), (concat (map (@source_block num) rest)).
  split; [exact Hrun|]. split; [exact Hrun'|].
  rewrite Hcit, Hcit', Hctx, Hctx', Htok, Htok', Hrest.
  rewrite !map_app, concat_app. split; [reflexivity|]. split; [reflexivity|].
  assert (Hnn : forall l : list (SearchResult num), (0 <= total_cost l)%Z).
  { induction l as [|r l IH]; unfold total_cost in *; cbn [map fold_right]; [lia|].
    pose proof (estimate_tokens_ceiling (dc_chunk_text (chunk (scored r)))).
    unfold cost_of at 1. lia. }
  assert (Happ : forall l l' : list (SearchResult num),
             total_cost (l ++ l') = (total_cost l + total_cost l')%Z).
  { intros l l'. induction l as [|r l IH]; unfold total_cost in *;
      cbn [app map fold_right]; [lia|]. rewrite IH. lia. }
  fold (total_cost (taken results maxTokens 0 ++ rest)). rewrite Happ.
  pose proof (Hnn rest). lia.
Qed.

End Assembly.

Lemma getContext_chunk_characters_witness :
  exists c w',
    getContext R_sin env_unit (str "note") 3000 (world_of two_chunks) = (Ok c, w') /\
    (4 * tokenCount c - 3 * Z.of_nat (length (citations c))
       <= Z.of_nat (length (context c)) - source_chars (citations c)
       <= 4 * tokenCount c)%Z /\
    (Z.of_nat (length (context c)) - source_chars (citations c) <= 4 * 3000)%Z.
Proof.
  apply (@getContext_chunk_characters R _ R_sin env_unit (str "note") 3000
           (world_of two_chunks)).
  lia.
Defined.

Lemma getContext_budget_prefix_witness :
  exists c c' w' more_citations more_context,
    getContext R_sin env_unit (str "note") 3 (world_of two_chunks) = (Ok c, w') /\
    getContext R_sin env_unit (str "note") 3000 (world_of two_chunks) = (Ok c', w') /\
    citations c' = citations c ++ more_citations /\
    context c' = context c ++ more_context /\
    (tokenCount c <= tokenCount c')%Z.
Proof.
  apply (@getContext_budget_prefix R _ R_sin env_unit (str "note") 3 3000
           (world_of two_chunks)).
  lia.
Defined.

(** ** What every run of [addDocument] keeps and returns *)

Section AnyRunClaims.
Variable num : Type.
Context `{Number num}.
Variable Math_sin : num -> num.
Variable env : Env num.

Lemma other_rows_kept_refl (ids : list jsstring) (s : Store num) : other_rows_kept ids s s.
Proof. split; reflexivity. Qed.

Lemma other_rows_kept_trans (ids : list jsstring) (s1 s2 s3 : Store num) :
  other_rows_kept ids s1 s2 -> other_rows_kept ids s2 s3 -> other_rows_kept ids s1 s3.
Proof. intros [H1 H2] [H3 H4]. split; congruence. Qed.

Lemma add_chunk_keeps (document : Document) (ids : list jsstring) (c : Chunk) (w : World num) :
  In (chunk_id (id document) c) ids ->
  other_rows_kept ids (store w) (store (snd (add_chunk Math_sin env document c w))).
Proof.
  intros Hid. rewrite add_chunk_cases.
  destruct (db_fails env (after_embedding env (steps w) + 1)); [apply other_rows_kept_refl|].
  destruct (db_fails env (after_embedding env (steps w) + 2)); cbn [snd store];
    unfold other_rows_kept, ingest_one, insert_embedding, insert_chunk;
    cbn [document_chunks embeddings];
    rewrite ?without_keys_upsert by exact Hid; split; reflexivity.
Qed.

(** X18: whether it succeeds or throws, [addDocument] leaves the rows of every
    id that is not the id of a chunk of the document as they are, in both
    tables: it replaces and appends, and never deletes.  The chunks an
    earlier, longer version of the document left behind stay in the store. *)
Theorem addDocument_keeps_other_rows (document : Document) (w : World num) :
  other_rows_kept (map (chunk_id (id document)) (chunkText (content document)))
                  (store w)
                  (store (snd (addDocument Math_sin env document w))).
Proof.
  set (ids := map (chunk_id (id document)) (chunkText (content document))).
  pose proof (@for_of_invariant num Chunk (other_rows_kept ids)
                (add_chunk Math_sin env document) (chunkText (content document))
                (other_rows_kept_refl ids) (@other_rows_kept_trans ids)) as Hinv.
  assert (Hloop : other_rows_kept ids (store w)
                    (store (snd (for_of (chunkText (content document))
                                        (add_chunk Math_sin env document) w)))).
  { apply Hinv. intros c w' Hc. apply add_chunk_keeps. apply in_map. exact Hc. }
  unfold addDocument, try_catch, bind.
  destruct (for_of (chunkText (content document)) (add_chunk Math_sin env document) w)
    as [[u|e] w1]; exact Hloop.
Qed.

Lemma for_of_add_chunk_outcomes (document : Document) (chunks : list Chunk) : forall w,
  (exists w', for_of chunks (add_chunk Math_sin env document) w = (Ok tt, w')) \/
  (exists w' n,
      for_of chunks (add_chunk Math_sin env document) w = (Throw SqliteError, w') /\
      steps w < n /\ db_fails env n = true).
Proof.
  induction chunks as [|c chunks IH]; intros w; cbn [for_of].
  - left. eexists. reflexivity.
  - unfold bind. rewrite add_chunk_cases.
    assert (Hstep : steps w <= after_embedding env (steps w))
      by (unfold after_embedding; destruct (OPENAI_API_KEY env); lia).
    destruct (db_fails env (after_embedding env (steps w) + 1)) eqn:H1.
    { right. eexists _, _. split; [reflexivity|]. split; [|exact H1]. lia. }
    destruct (db_fails env (after_embedding env (steps w) + 2)) eqn:H2.
    { right. eexists _, _. split; [reflexivity|]. split; [|exact H2]. lia. }
    match goal with |- context [for_of chunks _ ?w1] => destruct (IH w1) as [[w' Hok]|(w' & n & Hthrow & Hn & Hfail)] end.
    + left. exists w'. exact Hok.
    + right. exists w', n. split; [exact Hthrow|]. split; [|exact Hfail].
      cbn [steps] in Hn. lia.
Qed.

(** X19: [addDocument] succeeds, reporting the number of chunks of the text,
    or throws the error of a database write that failed during the run; a
    missing key or a failing provider never makes it throw. *)
Theorem addDocument_outcomes (document : Document) (w : World num) :
  (exists w',
      addDocument Math_sin env document w =
        (Ok {| success := true; chunksCreated := length (chunkText (content document)) |}, w')) \/
  (exists w' n,
      addDocument Math_sin env document w = (Throw SqliteError, w') /\
      steps w < n /\ db_fails env n = true).
Proof.
  unfold addDocument, try_catch, bind.
  destruct (for_of_add_chunk_outcomes document (chunkText (content document)) w)
    as [[w' Hok]|(w' & n & Hthrow & Hn & Hfail)].
  - left. exists w'. rewrite Hok. reflexivity.
  - right. exists w', n. rewrite Hthrow. auto.
Qed.

End AnyRunClaims.

(** ** What [addDocument] stores *)

Section Lookup.
Variable num : Type.
Context `{Number num}.
Variable Math_sin : num -> num.
Variable env : Env num.

(** X20: a document whose text is empty or white space only is accepted and
    leaves no trace: no chunk is created, the provider, the clock and the
    database are not touched. *)
Theorem addDocument_blank_content (document : Document) (w : World num) :
  Forall (fun c => is_space c = true) (content document) ->
  addDocument Math_sin env document w = (Ok {| success := true; chunksCreated := 0 |}, w).
Proof.
  intros Hblank. unfold addDocument, try_catch, bind.
  rewrite (chunkText_of_spaces Hblank). reflexivity.
Qed.

Lemma without_keys_not_member {R} (key : R -> jsstring) (keys : list jsstring)
    (table : list R) (r : R) :
  In r (without_keys key keys table) -> existsb (jsstring_eqb (key r)) keys = false.
Proof.
  unfold without_keys. intros Hin. apply filter_In in Hin. destruct Hin as [_ Hn].
  apply negb_true_iff in Hn. exact Hn.
Qed.

Lemma filter_none {A} (f : A -> bool) (l : list A) :
  (forall x, In x l -> f x = false) -> filter f l = [].
Proof.
  induction l as [|x l IH]; intros Hall; simpl; [reflexivity|].
  rewrite (Hall x) by (left; reflexivity). apply IH. intros y Hy. apply Hall. right. exact Hy.
Qed.

(** In a table with distinct keys, the rows of the key of a row are that
    row. *)
Lemma filter_key_NoDup {R} (key : R -> jsstring) (l : list R) (x : R) :
  NoDup (map key l) -> In x l ->
  filter (fun y => jsstring_eqb (key y) (key x)) l = [x].
Proof.
  induction l as [|y l IH]; intros Hnd Hin; [contradiction|].
  cbn [map] in Hnd. inversion Hnd as [|? ? Hnotin Hnd']; subst. cbn [filter].
  destruct Hin as [->|Hin].
  - rewrite jsstring_eqb_refl. f_equal. apply filter_none.
    intros z Hz. apply jsstring_eqb_neq. intros Heq. apply Hnotin.
    rewrite <- Heq. apply in_map. exact Hz.
  - rewrite jsstring_eqb_neq; [apply IH; assumption|].
    intros Heq. apply Hnotin. rewrite Heq. apply in_map. exact Hin.
Qed.

Lemma flat_map_singletons {A B} (g : A -> list B) (f : A -> B) (l : list A) :
  (forall x, In x l -> g x = [f x]) -> flat_map g l = map f l.
Proof.
  induction l as [|x l IH]; intros Hg; simpl; [reflexivity|].
  rewrite (Hg x) by (left; reflexivity). simpl. f_equal.
  apply IH. intros y Hy. apply Hg. right. exact Hy.
Qed.

(** The join of a store that [addDocument] left, restricted to the ids of
    the chunks. *)
Lemma select_ingested (document : Document) (ing : list (Ingested num))
    (kept : list ChunkRow) (kept_embeddings : list (EmbeddingRow num)) :
  let ids := map (chunk_id (id document)) (map (@ing_chunk num) ing) in
  NoDup ids ->
  (forall r, In r kept -> existsb (jsstring_eqb (dc_id r)) ids = false) ->
  (forall e, In e kept_embeddings -> existsb (jsstring_eqb (e_id e)) ids = false) ->
  filter (joined_with ids)
         (select_chunks_with_embeddings
            {| document_chunks := kept ++ map (chunk_row document) ing;
               embeddings := kept_embeddings ++ map (embedding_row document) ing |}) =
    map (joined_row document) ing.
Proof.
  intros ids Hnd Hkept Hkept_e.
  unfold select_chunks_with_embeddings. cbn [document_chunks embeddings].
  rewrite flat_map_app, filter_app.
  rewrite filter_none.
  2:{ intros row Hrow. apply in_flat_map in Hrow. destruct Hrow as (e & He & Hrow).
      apply in_map_iff in Hrow. destruct Hrow as (dc & <- & Hdc).
      apply filter_In in Hdc. destruct Hdc as [_ Hid]. apply jsstring_eqb_eq in Hid.
      unfold joined_with. cbn [row_chunk]. rewrite Hid. apply Hkept_e. exact He. }
  cbn [app]. rewrite flat_map_concat_map, map_map, <- flat_map_concat_map.
  rewrite (@flat_map_singletons _ _ _ (joined_row document)).
  - apply filter_all_true. intros row Hrow. apply in_map_iff in Hrow.
    destruct Hrow as (i & <- & Hi). unfold joined_with, joined_row. cbn [row_chunk chunk_row dc_id].
    apply existsb_jsstring_eqb. unfold ids. apply in_map, in_map. exact Hi.
  - intros i Hi. rewrite filter_app. rewrite filter_none.
    2:{ intros dc Hdc. cbn [embedding_row e_id].
        destruct (jsstring_eqb (dc_id dc) (chunk_id (id document) (ing_chunk i))) eqn:Heq;
          [|reflexivity].
        apply jsstring_eqb_eq in Heq. apply Hkept in Hdc. rewrite Heq in Hdc.
        assert (Hin : existsb (jsstring_eqb (chunk_id (id document) (ing_chunk i))) ids = true)
          by (apply existsb_jsstring_eqb; unfold ids; apply in_map, in_map; exact Hi).
        congruence. }
    cbn [app].
    change (e_id (embedding_row document i)) with (dc_id (chunk_row document i)).
    rewrite (@filter_key_NoDup _ dc_id (map (chunk_row document) ing) (chunk_row document i)).
    + reflexivity.
    + rewrite dc_id_chunk_rows. exact Hnd.
    + apply in_map. exact Hi.
Qed.

(** X21: what [addDocument] stores, the join of [search] reads back: after a
    run begun at step [steps w] that met no database failure, the joined
    rows of the ids of the document are its chunks, one row each and in
    ordinal order; the row of a chunk holds the columns written for it and
    the serialisation of the vector [generateEmbedding] returned for its
    text at the step of its iteration. *)
Theorem addDocument_then_select (document : Document) (w : World num) :
  (forall n, db_fails env n = false) ->
  exists r w',
    addDocument Math_sin env document w = (Ok r, w') /\
    map (@ing_chunk num)
        (ingested_from Math_sin env (steps w) (chunkText (content document))) =
      chunkText (content document) /\
    filter (joined_with (map (chunk_id (id document)) (chunkText (content document))))
           (select_chunks_with_embeddings (store w')) =
      map (joined_row document)
          (ingested_from Math_sin env (steps w) (chunkText (content document))).
Proof.
  intros Hdb.
  destruct (addDocument_run Math_sin env Hdb document w) as [n Hrun].
  eexists _, _.
  split; [exact Hrun|]. split; [apply ing_chunk_ingested_from|].
  cbn [store].
  pose proof (select_ingested document
                (ingested_from Math_sin env (steps w) (chunkText (content document)))
                (without_keys dc_id (map (chunk_id (id document)) (chunkText (content document)))
                   (document_chunks (store w)))
                (without_keys (@e_id num)
                   (map (chunk_id (id document)) (chunkText (content document)))
                   (embeddings (store w)))) as Hsel.
  cbn zeta in Hsel. rewrite ing_chunk_ingested_from in Hsel.
  apply Hsel.
  - apply chunk_id_NoDup, chunkText_index_NoDup.
  - intros r0. apply without_keys_not_member.
  - intros e. apply without_keys_not_member.
Qed.

End Lookup.

Lemma addDocument_blank_content_witness :
  addDocument R_sin env_write_fails doc_blank (world_of empty_store) =
    (Ok {| success := true; chunksCreated := 0 |}, world_of empty_store).
Proof.
  apply (@addDocument_blank_content R _ R_sin env_write_fails doc_blank (world_of empty_store)).
  repeat constructor.
Defined.

Lemma addDocument_then_select_witness :
  exists r w',
    addDocument R_sin env_provider_down doc_x (world_of two_chunks) = (Ok r, w') /\
    map (@ing_chunk R)
        (ingested_from R_sin env_provider_down 0 (chunkText (content doc_x))) =
      chunkText (content doc_x) /\
    filter (joined_with (map (chunk_id (id doc_x)) (chunkText (content doc_x))))
           (select_chunks_with_embeddings (store w')) =
      map (joined_row doc_x)
          (ingested_from R_sin env_provider_down 0 (chunkText (content doc_x))).
Proof.
  apply (@addDocument_then_select R _ R_sin env_provider_down doc_x (world_of two_chunks)).
  reflexivity.
Defined.

(** ** [search]: ranking order, and the order of the join *)

Section JoinOrder.
Variable num : Type.
Context `{Number num}.

(** The ids of the joined rows are the ids of the embeddings that have a
    chunk, in the order of the table of the embeddings. *)
Lemma select_ids (s : Store num) :
  NoDup (map dc_id (document_chunks s)) ->
  map (fun row => dc_id (row_chunk row)) (select_chunks_with_embeddings s) =
    filter (has_chunk s) (map (@e_id num) (embeddings s)).
Proof.
  intros Hnd. unfold select_chunks_with_embeddings, has_chunk.
  induction (embeddings s) as [|e es IH]; cbn [flat_map map filter]; [reflexivity|].
  rewrite map_app, IH, map_map. cbn [row_chunk].
  destruct (existsb (jsstring_eqb (e_id e)) (map dc_id (document_chunks s))) eqn:Hex.
  - apply existsb_jsstring_eqb in Hex. apply in_map_iff in Hex.
    destruct Hex as (dc & Hid & Hdc). rewrite <- Hid.
    rewrite (@filter_key_NoDup _ dc_id (document_chunks s) dc Hnd Hdc). reflexivity.
  - rewrite filter_none; [reflexivity|].
    intros dc Hdc. destruct (jsstring_eqb (dc_id dc) (e_id e)) eqn:Heq; [|reflexivity].
    apply jsstring_eqb_eq in Heq.
    assert (Hin : existsb (jsstring_eqb (e_id e)) (map dc_id (document_chunks s)) = true)
      by (apply existsb_jsstring_eqb; rewrite <- Heq; apply in_map; exact Hdc).
    congruence.
Qed.

Lemma select_in_step_of (dcs : list ChunkRow) (es : list (EmbeddingRow num)) :
  NoDup (map dc_id dcs) ->
  forall part : list ChunkRow,
    incl part dcs -> map (@e_id num) es = map dc_id part ->
    map (@row_chunk num)
        (flat_map
           (fun e =>
              map (fun dc => {| row_chunk := dc; row_embedding := e_content_embedding e |})
                  (filter (fun dc => jsstring_eqb (dc_id dc) (e_id e)) dcs))
           es) = part.
Proof.
  intros Hnd. induction es as [|e es IH]; intros [|dc part] Hincl Hids;
    cbn [map] in Hids; try discriminate; [reflexivity|].
  inversion Hids as [[He Hrest]]. cbn [flat_map]. rewrite map_app, map_map. cbn [row_chunk].
  rewrite He.
  rewrite (@filter_key_NoDup _ dc_id dcs dc Hnd (Hincl dc (or_introl eq_refl))).
  cbn [map app]. f_equal. apply IH; [|exact Hrest].
  intros x Hx. apply Hincl. right. exact Hx.
Qed.

(** While the two tables hold the same ids in the same order, the join
    returns the chunks in their storage order. *)
Lemma select_in_step (s : Store num) :
  NoDup (map dc_id (document_chunks s)) ->
  map (@e_id num) (embeddings s) = map dc_id (document_chunks s) ->
  map (@row_chunk num) (select_chunks_with_embeddings s) = document_chunks s.
Proof.
  intros Hnd Hids. apply select_in_step_of; [exact Hnd| |exact Hids].
  intros x Hx. exact Hx.
Qed.

End JoinOrder.

(** C6, amended: on the binary64 numbers of the engine, the list [search]
    returns is non-increasing in [relevanceScore], and for every score the
    results with that score are, in their order, an initial segment of the
    joined rows with that score, in the order in which the join returns
    them.  The join scans the table of the embeddings: with distinct chunk
    ids, its rows come in the order in which that table holds their ids,
    which is the storage order of the chunks while the two tables hold the
    same ids in the same order. *)
Theorem search_ranking_order (Math_sin : float -> float) (env : Env float)
    (query : jsstring) (limit : Z) (threshold : float) (w : World float) :
  exists results w' queryEmbedding,
    search Math_sin env query limit threshold w = (Ok results, w') /\
    StronglySorted (fun a b => score_ge (scored a) (scored b)) results /\
    (forall s, exists k,
      filter (same_score s) (map (@scored float) results) =
      firstn k (filter (same_score s)
                  (score_rows queryEmbedding (select_chunks_with_embeddings (store w))))) /\
    (NoDup (map dc_id (document_chunks (store w))) ->
     map (fun row => dc_id (row_chunk row)) (select_chunks_with_embeddings (store w)) =
       filter (has_chunk (store w)) (map (@e_id float) (embeddings (store w))) /\
     (map (@e_id float) (embeddings (store w)) = map dc_id (document_chunks (store w)) ->
      map (@row_chunk float) (select_chunks_with_embeddings (store w)) =
        document_chunks (store w))).
Proof.
  destruct (search_ranking_order_of_laws (H0 := float_NumberOrder) Math_sin env
              query limit threshold w) as (results & w' & qe & Hs & Hsorted & Hstable).
  exists results, w', qe. split; [exact Hs|]. split; [exact Hsorted|].
  split; [exact Hstable|].
  intros Hnd. split; [apply select_ids; exact Hnd|].
  apply select_in_step. exact Hnd.
Qed.

(** C6 as stated, after a second ingestion of a document of two chunks that
    fails at the write of the embedding of the second chunk: the two chunk
    rows were replaced, in their order, and the first embedding was moved
    behind the second.  Both chunks score the same for the query, and
    [search] returns the second chunk before the first, against the storage
    order of the chunks. *)
Lemma search_ties_after_failed_reingestion :
  exists w1 w2 first second w3,
    (forall Math_sin : float -> float,
        addDocument Math_sin env_second_run_fails doc_long (world_of empty_store) =
          (Ok {| success := true; chunksCreated := 2 |}, w1) /\
        addDocument Math_sin env_second_run_fails doc_long w1 = (Throw SqliteError, w2) /\
        search Math_sin env_second_run_fails (str "a") 5 default_threshold w2 =
          (Ok [first; second], w3)) /\
    map dc_chunk_index (document_chunks (store w2)) = [0; 1] /\
    map (@e_id float) (embeddings (store w2)) = [str "long_chunk_1"; str "long_chunk_0"] /\
    relevanceScore (scored first) = relevanceScore (scored second) /\
    dc_chunk_index (chunk (scored first)) = 1 /\
    dc_chunk_index (chunk (scored second)) = 0.
Proof.
  eexists _, _, _, _, _. split.
  - intros Math_sin. split; [vm_compute; reflexivity|].
    split; vm_compute; reflexivity.
  - vm_compute. repeat split.
Qed.

(** ** Citations *)

(** X23: the citations of two chunks of a document (same title, type and
    source file) are the same only if their ordinals are: the section number
    tells the chunks of a document apart. *)
Theorem generateCitation_sections (num : Type) (r r' : Scored num) :
  dc_document_title (chunk r) = dc_document_title (chunk r') ->
  dc_document_type (chunk r) = dc_document_type (chunk r') ->
  dc_source_file (chunk r) = dc_source_file (chunk r') ->
  generateCitation r = generateCitation r' ->
  dc_chunk_index (chunk r) = dc_chunk_index (chunk r').
Proof.
  intros Htitle Htype Hfile Hcit. unfold generateCitation in Hcit.
  rewrite Htitle, Htype, Hfile in Hcit.
  assert (Hsection : decimal (dc_chunk_index (chunk r) + 1) ++ str ")" =
                     decimal (dc_chunk_index (chunk r') + 1) ++ str ")").
  { destruct (dc_source_file (chunk r')) as [[|a f]|];
      repeat (apply app_inv_head in Hcit); exact Hcit. }
  apply app_inv_tail in Hsection. apply decimal_inj in Hsection. lia.
Qed.
Lemma generateCitation_sections_witness :
  dc_chunk_index (chunk {| chunk := labs_row; relevanceScore := PrimFloat.one |}) =
  dc_chunk_index (chunk {| chunk := labs_row; relevanceScore := PrimFloat.zero |}).
Proof.
  apply (@generateCitation_sections float
           {| chunk := labs_row; relevanceScore := PrimFloat.one |}
           {| chunk := labs_row; relevanceScore := PrimFloat.zero |}); reflexivity.
Defined.

(** ** The server's use of the engine *)

Section ServerClaims.
Variable num : Type.
Context `{Number num}.
Variable Math_sin : num -> num.
Variable env : Env num.

Lemma total_cost_nonneg (l : list (SearchResult num)) : (0 <= total_cost l)%Z.
Proof.
  induction l as [|r l IH]; unfold total_cost in *; cbn [map fold_right]; [lia|].
  pose proof (estimate_tokens_ceiling (dc_chunk_text (chunk (scored r)))).
  unfold cost_of at 1. lia.
Qed.

(** What [getContext(userText, 3000)] gives the server. *)
Lemma getContext_for_server (userText : jsstring) (w : World num) :
  exists included c w',
    getContext Math_sin env userText 3000 w = (Ok c, w') /\
    store w' = store w /\
    citations c = map (@citation_of num) included /\
    context c = concat (map (@source_block num) included) /\
    (0 <= tokenCount c <= 3000)%Z /\
    length included <= 10 /\
    (forall r, In r included -> nge (relevanceScore (scored r)) default_threshold = true).
Proof.
  destruct (getContext_returns Math_sin env userText 3000 w)
    as (results & w' & Hs & Hg & Hlen & Hscore).
  destruct (search_returns Math_sin env userText 10 default_threshold w)
    as (results' & w'' & Hs' & Hstore & _).
  rewrite Hs in Hs'. inversion Hs'; subst results' w''.
  destruct (accumulate_taken results 3000 (empty_context num)) as [Hcit Htok].
  pose proof (accumulate_context results 3000 (empty_context num)) as Hctx.
  destruct (taken_prefix results 3000 (tokenCount (empty_context num))) as (rest & Hpre & _).
  pose proof (@taken_within_budget num results 3000 (tokenCount (empty_context num))) as Hle.
  cbn [empty_context citations context tokenCount app] in *.
  exists (taken results 3000 0), (accumulate results 3000 (empty_context num)), w'.
  split; [exact Hg|]. split; [exact Hstore|]. split; [exact Hcit|]. split; [exact Hctx|].
  split; [|split].
  - rewrite Htok. pose proof (total_cost_nonneg (taken results 3000 0)). lia.
  - assert (Hl : length results = length (taken results 3000 0) + length rest)
      by (rewrite Hpre at 1; apply length_app).
    lia.
  - intros r Hr. apply Hscore. rewrite Hpre. apply in_or_app. left. exact Hr.
Qed.

(** X24: [buildGlobalContext] never takes its [catch] branch and never writes.
    The context it returns is not empty: it is the retrieved context, or the
    placeholder exactly when nothing was retrieved.  It returns at most 10
    citations, each of a score of at least 0.7, a token count between 0 and
    3000, and no memory. *)
Theorem buildGlobalContext_returns (userId userText : jsstring) (w : World num) :
  exists gc w',
    buildGlobalContext Math_sin env userId userText w = (Ok gc, w') /\
    store w' = store w /\
    gc_context gc <> [] /\
    (gc_context gc = str "Demo health copilot context" <-> gc_citations gc = []) /\
    length (gc_citations gc) <= 10 /\
    (forall cit, In cit (gc_citations gc) ->
                 nge (cit_relevanceScore cit) default_threshold = true) /\
    (exists n, gc_tokenCount gc = Some n /\ (0 <= n <= 3000)%Z) /\
    gc_memories gc = [].
Proof.
  destruct (getContext_for_server userText w)
    as (included & c & w' & Hg & Hstore & Hcit & Hctx & Htok & Hlen & Hscore).
  unfold buildGlobalContext, try_catch, bind. rewrite Hg. cbn [ret].
  eexists _, w'. split; [reflexivity|]. split; [exact Hstore|].
  cbn [gc_context gc_citations gc_tokenCount gc_memories].
  rewrite Hcit, Hctx.
  split; [|split; [|split; [|split; [|split]]]].
  - destruct included as [|r l]; discriminate.
  - destruct included as [|r l]; [split; reflexivity|].
    split; discriminate.
  - rewrite length_map. exact Hlen.
  - intros cit Hin. apply in_map_iff in Hin. destruct Hin as (r & <- & Hr).
    cbn [citation_of cit_relevanceScore]. apply Hscore. exact Hr.
  - eexists. split; [reflexivity|]. destruct (tokenCount c =? 0)%Z; lia.
  - reflexivity.
Qed.

Lemma join_lines_nonempty (lines : list jsstring) :
  lines <> [] -> (forall l, In l lines -> l <> []) -> join newline lines <> [].
Proof.
  destruct lines as [|l [|l' rest]]; intros Hne Hall; [congruence| |].
  - cbn [join]. apply Hall. left. reflexivity.
  - cbn [join]. assert (Hl : l <> []) by (apply Hall; left; reflexivity).
    destruct l; [congruence|discriminate].
Qed.

(** The prompts are the opening line, an empty line, the base context, an
    empty line and the closing lines. *)
Lemma prompt_shape (opening base line : jsstring) (lines : list jsstring) :
  join newline (opening :: [] :: base :: [] :: line :: lines) =
    join newline [opening; []; base; []] ++ newline ++ join newline (line :: lines).
Proof. cbn [join]. rewrite <- !app_assoc. reflexivity. Qed.

(** X25: the prompt the server builds from the context of the engine: the
    user context is the retrieved context or the placeholder, never empty;
    the citations are listed one per line, each followed by [undefined]
    where the text of the chunk was meant, or replaced by [None] when there
    is none; the memories are always [None]. *)
Theorem baseContext_of_engine (userId userText : jsstring) (w : World num) :
  exists gc w',
    buildGlobalContext Math_sin env userId userText w = (Ok gc, w') /\
    baseContext gc =
      join newline
        [ [];
          str "User Context:";
          gc_context gc;
          [];
          str "Knowledge Base Citations:";
          match gc_citations gc with
          | [] => str "None"
          | _ :: _ =>
              join newline
                (map (fun c => str "- " ++ cit_citation c ++ str ": undefined")
                     (gc_citations gc))
          end;
          [];
          str "Previous Memories:";
          str "None";
          [] ] /\
    forall task,
      exists opening closing,
        systemPrompt (buildStructuredPrompt task gc) =
          join newline [opening; []; baseContext gc; []] ++ closing.
Proof.
  destruct (getContext_for_server userText w)
    as (included & c & w' & Hg & _ & Hcit & Hctx & _).
  unfold buildGlobalContext, try_catch, bind. rewrite Hg. cbn [ret].
  eexists _, w'. split; [reflexivity|]. split.
  - unfold baseContext. cbn [gc_context gc_citations gc_memories map].
    rewrite Hcit, Hctx.
    destruct included as [|r l]; [reflexivity|].
    cbn [map concat or_else].
    assert (Hctx' : or_else (or_else (source_block r ++ concat (map (@source_block num) l))
                               (str "Demo health copilot context")) [] =
                    or_else (source_block r ++ concat (map (@source_block num) l))
                            (str "Demo health copilot context")) by reflexivity.
    rewrite Hctx'.
    assert (Hlines : or_else (join newline
                                (citation_line (citation_of r) :: map (@citation_line num)
                                   (map (@citation_of num) l))) (str "None") =
                     join newline
                       (citation_line (citation_of r) :: map (@citation_line num)
                          (map (@citation_of num) l))).
    { destruct (join newline (citation_line (citation_of r)
                                :: map (@citation_line num) (map (@citation_of num) l)))
        eqn:Hj; [|reflexivity].
      exfalso. revert Hj. apply join_lines_nonempty; [discriminate|].
      intros line Hline. apply in_map_iff with (f := @citation_line num)
                                               (l := citation_of r :: map (@citation_of num) l)
        in Hline.
      destruct Hline as (cit & <- & _). discriminate. }
    rewrite Hlines. reflexivity.
  - intros task. unfold buildStructuredPrompt.
    destruct (jsstring_eqb task (str "symptom_analysis"));
      [cbn [systemPrompt]; eexists _, _; apply prompt_shape|].
    destruct (jsstring_eqb task (str "lab_interpretation"));
      [cbn [systemPrompt]; eexists _, _; apply prompt_shape|].
    destruct (jsstring_eqb task (str "nutrition_plan"));
      [cbn [systemPrompt]; eexists _, _; apply prompt_shape|].
    destruct (jsstring_eqb task (str "predictive_analysis"));
      cbn [systemPrompt]; eexists _, _; apply prompt_shape.
Qed.

End ServerClaims.

(** ** [search]: a higher threshold *)

Section Threshold.
Variable num : Type.
Context `{NumberOrder num}.

(** The rows of a score of [t] or more. *)
Let above (t : num) (r : Scored num) : bool := nge (relevanceScore r) t.

Lemma above_le (t' : num) (x y : Scored num) :
  score_ge x y -> above t' y = true -> above t' x = true.
Proof. unfold above, score_ge. intros Hxy Hy. exact (nge_trans _ _ _ Hxy Hy). Qed.

Lemma insert_by_above (t' : num) (x : Scored num) (l : list (Scored num)) :
  score_ge x x -> Forall (fun r => score_ge r r) l ->
  StronglySorted (@score_ge num _) l ->
  filter (above t') (insert_by (@by_score num _) x l) =
    if above t' x then insert_by (@by_score num _) x (filter (above t') l)
    else filter (above t') l.
Proof.
  intros Hx Hgood Hs. induction Hs as [|y l Hs IH Hy]; cbn [insert_by].
  - cbn [filter]. destruct (above t' x); reflexivity.
  - inversion Hgood as [|? ? Hgy Hgl]; subst.
    destruct (ngt (by_score x y) nzero) eqn:Hc.
    + cbn [filter]. rewrite (IH Hgl).
      pose proof (by_score_pos _ _ Hc) as Hyx.
      destruct (above t' y) eqn:Hpy.
      * destruct (above t' x); [cbn [insert_by]; rewrite Hc|]; reflexivity.
      * destruct (above t' x) eqn:Hpx; [|reflexivity].
        rewrite (@above_le t' y x Hyx Hpx) in Hpy. discriminate.
    + pose proof (by_score_npos Hx Hgy Hc) as Hxy.
      set (rest := filter (above t') (y :: l)).
      change (filter (above t') (x :: y :: l))
        with (if above t' x then x :: rest else rest).
      destruct (above t' x) eqn:Hpx; [|reflexivity].
      destruct rest as [|z rest'] eqn:Hf; [reflexivity|].
      cbn [insert_by].
      assert (Hz : In z (y :: l)).
      { assert (Hin : In z rest) by (rewrite Hf; left; reflexivity).
        unfold rest in Hin. apply filter_In in Hin. apply Hin. }
      assert (Hxz : score_ge x z).
      { destruct Hz as [<-|Hz]; [exact Hxy|].
        rewrite Forall_forall in Hy. exact (score_ge_trans Hxy (Hy z Hz)). }
      destruct (ngt (by_score x z) nzero) eqn:Hcz; [|reflexivity].
      apply nsub_pos_gt in Hcz. destruct Hcz as [_ Hcz].
      unfold score_ge in Hxz. congruence.
Qed.

Lemma sort_by_score_sorted (l : list (Scored num)) :
  Forall (fun r => score_ge r r) l ->
  StronglySorted (@score_ge num _) (sort_by (@by_score num _) l).
Proof.
  intros Hgood. apply sort_by_sorted with (good := fun r : Scored num => score_ge r r).
  - intros a b c. exact (@score_ge_trans num _ _ a b c).
  - exact (@by_score_pos num _ _).
  - intros a b. exact (@by_score_npos num _ _ a b).
  - exact Hgood.
Qed.

Lemma sort_by_above (t' : num) (l : list (Scored num)) :
  Forall (fun r => score_ge r r) l ->
  filter (above t') (sort_by (@by_score num _) l) =
    sort_by (@by_score num _) (filter (above t') l).
Proof.
  induction l as [|x l IH]; intros Hgood; [reflexivity|].
  inversion Hgood as [|? ? Hx Hl]; subst.
  cbn [sort_by fold_right filter]. fold (sort_by (@by_score num _) l).
  rewrite insert_by_above.
  - rewrite (IH Hl). destruct (above t' x); reflexivity.
  - exact Hx.
  - apply Forall_forall. intros r Hr. apply (proj1 (In_sort_by _ _ _)) in Hr.
    rewrite Forall_forall in Hl. apply Hl. exact Hr.
  - apply sort_by_score_sorted. exact Hl.
Qed.

(** In a list by decreasing score the rows above a threshold come first. *)
Lemma sorted_above_prefix (t' : num) (l : list (Scored num)) :
  StronglySorted (@score_ge num _) l ->
  exists k, filter (above t') l = firstn k l.
Proof.
  intros Hs. induction Hs as [|x l Hs [k IH] Hx]; [exists 0; reflexivity|].
  cbn [filter]. destruct (above t' x) eqn:Hpx.
  - exists (S k). cbn [firstn]. rewrite IH. reflexivity.
  - exists 0. cbn [firstn]. apply filter_none.
    intros y Hy. destruct (above t' y) eqn:Hpy; [|reflexivity].
    rewrite Forall_forall in Hx. rewrite (@above_le t' x y (Hx y Hy) Hpy) in Hpx. discriminate.
Qed.

Lemma slice_to_prefix {A} (l : list A) (k : nat) (limit : Z) :
  exists j, slice_to (firstn k l) limit = firstn j (slice_to l limit).
Proof.
  unfold slice_to. rewrite length_firstn.
  destruct (limit <? 0)%Z eqn:Hneg.
  - exists (Z.to_nat (Z.max 0 (Z.of_nat (Nat.min k (length l)) + limit))).
    rewrite !firstn_firstn. f_equal. lia.
  - exists k. rewrite !firstn_firstn. f_equal. lia.
Qed.

Lemma rank_threshold_prefix (rows : list (Scored num)) (limit : Z) (t t' : num) :
  nge t' t = true ->
  exists j, rank rows limit t' = firstn j (rank rows limit t).
Proof.
  intros Ht. unfold rank. fold (@by_score num _). fold (above t) (above t').
  assert (Hgood : Forall (fun r => score_ge r r) (filter (above t) rows)).
  { apply Forall_forall. intros r Hr. apply filter_In in Hr. destruct Hr as [_ Hr].
    exact (nge_diag _ _ Hr). }
  assert (Hfilter : filter (above t') rows = filter (above t') (filter (above t) rows)).
  { induction rows as [|r rows IH]; [reflexivity|]. cbn [filter].
    assert (Hrest : Forall (fun r => score_ge r r) (filter (above t) rows)).
    { apply Forall_forall. intros r0 Hr. apply filter_In in Hr. destruct Hr as [_ Hr].
      exact (nge_diag _ _ Hr). }
    destruct (above t' r) eqn:Hr'.
    - assert (Hr : above t r = true) by (unfold above in *; exact (nge_trans _ _ _ Hr' Ht)).
      rewrite Hr. cbn [filter]. rewrite Hr'. f_equal. apply IH. exact Hrest.
    - destruct (above t r); [cbn [filter]; rewrite Hr'|]; apply IH; exact Hrest. }
  rewrite Hfilter, <- sort_by_above by exact Hgood.
  destruct (@sorted_above_prefix t' (sort_by (@by_score num _) (filter (above t) rows)))
    as [k ->].
  { apply sort_by_score_sorted. exact Hgood. }
  destruct (slice_to_prefix (sort_by (@by_score num _) (filter (above t) rows)) k limit)
    as [j ->].
  exists j. rewrite firstn_map. reflexivity.
Qed.

Variable Math_sin : num -> num.
Variable env : Env num.

(** X27: a higher threshold only cuts the list short: for [t' >= t] the
    records returned with threshold [t'] are the first of those returned
    with threshold [t], in the same order. *)
Theorem search_threshold_prefix query limit (t t' : num) (w : World num) :
  nge t' t = true ->
  exists lower higher w' j,
    search Math_sin env query limit t w = (Ok lower, w') /\
    search Math_sin env query limit t' w = (Ok higher, w') /\
    higher = firstn j lower.
Proof.
  intros Ht.
  pose proof (search_run Math_sin env query limit t w) as Hlow.
  pose proof (search_run Math_sin env query limit t' w) as Hhigh.
  destruct (db_fails env (read_step env w)).
  - eexists _, _, _, 0. split; [exact Hlow|]. split; [exact Hhigh|]. reflexivity.
  - destruct (@rank_threshold_prefix
                (score_rows (embedding_at Math_sin env (steps w) query)
                            (select_chunks_with_embeddings (store w)))
                limit t t' Ht) as [j Hj].
    eexists _, _, _, j. split; [exact Hlow|]. split; [exact Hhigh|]. exact Hj.
Qed.

End Threshold.

Lemma search_threshold_prefix_witness :
  exists lower higher w' j,
    search R_sin env_unit (str "note") 5 (1 / 2)%R (world_of two_chunks) = (Ok lower, w') /\
    search R_sin env_unit (str "note") 5 default_threshold (world_of two_chunks)
      = (Ok higher, w') /\
    higher = firstn j lower.
Proof.
  apply (@search_threshold_prefix R R_Number R_NumberOrder R_sin env_unit (str "note") 5
           (1 / 2)%R default_threshold (world_of two_chunks)).
  apply R_nge_true. rewrite default_threshold_R. lra.
Defined.

(** ** Ingest, then search *)

Section IngestThenSearch.
Variable num : Type.
Context `{NumberOrder num}.
Variable Math_sin : num -> num.
Variable env : Env num.

Lemma embedding_at_steady (text : jsstring) :
  (forall n m input, embeddings_create env n input = embeddings_create env m input) ->
  forall n m, embedding_at Math_sin env n text = embedding_at Math_sin env m text.
Proof.
  intros Hsteady n m. unfold embedding_at. rewrite (Hsteady n m). reflexivity.
Qed.

(** X22: after a document is ingested, the search for the text of one of its
    chunks finds it.  With a database that accepts the writes, a provider
    that answers the same at every call and a limit of 1 or more: if the
    similarity of the embedding of the chunk to what is read back of its
    serialisation meets the threshold, the search returns a record, and the
    first record scores at least that similarity.  This holds of every
    number type that meets the laws of [NumberOrder], binary64 among
    them. *)
Theorem ingest_then_search (document : Document) (c : Chunk) (limit : Z) (threshold : num)
    (w : World num) :
  (forall n, db_fails env n = false) ->
  (forall n m input, embeddings_create env n input = embeddings_create env m input) ->
  In c (chunkText (content document)) ->
  (1 <= limit)%Z ->
  nge (cosineSimilarity (VArray (embedding_at Math_sin env 0 (text c)))
                        (VArray (map njson (embedding_at Math_sin env 0 (text c)))))
      threshold = true ->
  exists r w1 first rest w2,
    addDocument Math_sin env document w = (Ok r, w1) /\
    search Math_sin env (text c) limit threshold w1 = (Ok (first :: rest), w2) /\
    nge (relevanceScore (scored first))
        (cosineSimilarity (VArray (embedding_at Math_sin env 0 (text c)))
                          (VArray (map njson (embedding_at Math_sin env 0 (text c)))))
      = true.
Proof.
  intros Hdb Hsteady Hc Hlimit Hthreshold.
  destruct (@addDocument_run num _ Math_sin env Hdb document w) as [n Hrun].
  set (chunks := chunkText (content document)) in *.
  set (ing := ingested_from Math_sin env (steps w) chunks) in *.
  set (v := embedding_at Math_sin env 0 (text c)) in *.
  match type of Hrun with _ = (_, ?x) => set (w1 := x) in * end.
  (* the chunk, as it was stored *)
  assert (Hi : exists i, In i ing /\ ing_chunk i = c /\ ing_embedding i = v).
  { assert (Hmap : In c (map (@ing_chunk num) ing))
      by (unfold ing; rewrite ing_chunk_ingested_from; exact Hc).
    apply in_map_iff in Hmap. destruct Hmap as (i & Hic & Hi).
    exists i. split; [exact Hi|]. split; [exact Hic|].
    destruct (@In_ingested_from num _ Math_sin env _ _ _ Hi) as [_ [m Hm]].
    rewrite Hm, Hic. apply embedding_at_steady. exact Hsteady. }
  destruct Hi as (i & Hi & Hic & Hiv).
  assert (Hrow : In (joined_row document i) (select_chunks_with_embeddings (store w1))).
  { pose proof (@select_ingested num _ document ing
                  (without_keys dc_id (map (chunk_id (id document)) chunks)
                     (document_chunks (store w)))
                  (without_keys (@e_id num) (map (chunk_id (id document)) chunks)
                     (embeddings (store w)))) as Hsel.
    cbn zeta in Hsel. unfold ing in Hsel at 1 2 3. rewrite ing_chunk_ingested_from in Hsel.
    fold ing in Hsel.
    assert (Hin : In (joined_row document i) (map (joined_row document) ing))
      by (apply in_map; exact Hi).
    rewrite <- Hsel in Hin.
    - apply filter_In in Hin. apply Hin.
    - apply chunk_id_NoDup, chunkText_index_NoDup.
    - intros r0. apply without_keys_not_member.
    - intros e. apply without_keys_not_member. }
  (* the run of the search *)
  pose proof (@search_run num _ Math_sin env (text c) limit threshold w1) as Hsearch.
  rewrite Hdb in Hsearch.
  rewrite (embedding_at_steady (text c) Hsteady (steps w1) 0) in Hsearch. fold v in Hsearch.
  set (rows := score_rows v (select_chunks_with_embeddings (store w1))) in *.
  set (s0 := {| chunk := chunk_row document i;
                relevanceScore := cosineSimilarity (VArray v) (VArray (map njson v)) |}).
  assert (Hs0 : In s0 rows).
  { apply In_score_rows. exists (joined_row document i), (VArray (map njson v)).
    split; [exact Hrow|]. split; [unfold joined_row; cbn; rewrite Hiv; reflexivity|].
    reflexivity. }
  assert (Hsorted : StronglySorted (@score_ge num _)
            (sort_by (@by_score num _) (filter (fun r => nge (relevanceScore r) threshold) rows))).
  { apply (@sort_by_score_sorted num _ _). apply Forall_forall. intros r Hr.
    apply filter_In in Hr. destruct Hr as [_ Hr]. exact (nge_diag _ _ Hr). }
  set (L := sort_by (@by_score num _) (filter (fun r => nge (relevanceScore r) threshold) rows)) in *.
  assert (HL : In s0 L).
  { apply In_sort_by. apply filter_In. split; [exact Hs0|]. exact Hthreshold. }
  destruct L as [|h t] eqn:HLeq; [contradiction|].
  assert (Hh : nge (relevanceScore h) (cosineSimilarity (VArray v) (VArray (map njson v))) = true).
  { destruct HL as [->|Ht]; [exact (nge_diag _ _ Hthreshold)|].
    apply StronglySorted_inv in Hsorted. destruct Hsorted as [_ Hall].
    rewrite Forall_forall in Hall. apply Hall in Ht. exact Ht. }
  assert (Hrank : rank rows limit threshold =
                  {| scored := h; citation := generateCitation h |}
                  :: map (fun r => {| scored := r; citation := generateCitation r |})
                         (firstn (Z.to_nat limit - 1) t)).
  { unfold rank. fold (@by_score num _). fold L. rewrite HLeq. unfold slice_to.
    assert (Hl0 : (limit <? 0)%Z = false) by (apply Z.ltb_ge; lia).
    rewrite Hl0.
    destruct (Z.to_nat limit) as [|k] eqn:Hk; [lia|].
    cbn [firstn map]. replace (S k - 1)%nat with k by lia. reflexivity. }
  eexists _, w1, _, _, _. split; [exact Hrun|]. split.
  - rewrite Hsearch, Hrank. reflexivity.
  - cbn [scored]. exact Hh.
Qed.

End IngestThenSearch.

Lemma ingest_then_search_witness :
  exists r w1 first rest w2,
    addDocument R_sin env_provider_down doc_x (world_of empty_store) = (Ok r, w1) /\
    search R_sin env_provider_down (str "x") 5 default_threshold w1
      = (Ok (first :: rest), w2) /\
    nge (relevanceScore (scored first))
        (cosineSimilarity
           (VArray (embedding_at R_sin env_provider_down 0 (text {| text := str "x"; index := 0 |})))
           (VArray (map njson (embedding_at R_sin env_provider_down 0
                                 (text {| text := str "x"; index := 0 |})))))
      = true.
Proof.
  apply (@ingest_then_search R _ _ R_sin env_provider_down doc_x {| text := str "x"; index := 0 |}
           5 default_threshold (world_of empty_store)).
  - reflexivity.
  - reflexivity.
  - left. reflexivity.
  - lia.
  - cbn [text]. unfold embedding_at. cbn [OPENAI_API_KEY env_provider_down embeddings_create].
    change (map njson (pseudo_embedding R_sin (str "x"))) with
      (map (fun x : R => x) (pseudo_embedding R_sin (str "x"))).
    rewrite map_id.
    rewrite (@cosineSimilarity_R_self (pseudo_embedding R_sin (str "x")))
      by exact (pseudo_embedding_nonzero "x").
    apply R_nge_true. rewrite default_threshold_R. lra.
Defined.

(** The same on binary64 numbers, with a provider that answers [[3, 4]]:
    the chunk scores 1 for its own text, which meets the default threshold. *)
Example ingest_then_search_binary64 (Math_sin : float -> float) :
  let env := {| OPENAI_API_KEY := true;
                embeddings_create := fun _ _ => Some [3%float; 4%float];
                Date_now := fun n => Z.of_nat n;
                db_fails := fun _ => false |} in
  exists r w1 first w2,
    addDocument Math_sin env doc_x (world_of empty_store) = (Ok r, w1) /\
    search Math_sin env (str "x") 5 default_threshold w1 = (Ok [first], w2) /\
    relevanceScore (scored first) = PrimFloat.one.
Proof.
  eexists _, _, _, _. split; [vm_compute; reflexivity|].
  split; [vm_compute; reflexivity|]. reflexivity.
Qed.
